(** * djinject: the runtime resolution engine

    A shallow embedding of [src/inject.ts] and [src/merge.ts]:
    [merge], [inject], [initializeEagerServices], [proxify] (its traps) and
    [resolve], over an explicit store of module objects and proxy targets.

    Conventions of the embedding.
    - JS objects used as dictionaries (modules, proxy targets) are
      association lists of their own string keys in insertion order. They
      are plain objects, so [prop in obj] is also true of the names they
      inherit from [Object.prototype] ([proto_names]); symbols are not
      modelled, and an own key [__proto__], which only a computed key or
      [JSON.parse] creates, is treated as any other own key (the accessor
      [Object.prototype] has at that name is not modelled).
    - Module objects live in a heap and are addressed by reference, so
      that the aliasing created by [target[key] = sourceValue] is visible.
    - A factory is a function from the context to a small program that can
      read properties, create objects, throw and catch; every invocation
      [value(container)] made by the library, and every invocation an
      [eager] wrapper forwards, is recorded in [calls].
    - The histories considered ([reads]) are property reads on the
      proxies of one container. The proxies have no [set] trap: an
      assignment to a container, and a change of a module object after
      [inject], are not part of these histories. *)

From stdpp Require Import base option list strings.
From Stdlib Require Import ZArith Lia.

#[local] Open Scope string_scope.
#[local] Open Scope list_scope.
#[local] Open Scope nat_scope.
#[local] Set Warnings "-register-all".

(** ** Values *)

(** The JS values that flow through the container. [VError] is an instance
    of [Error] (message and optional [cause]); [VProxy p] is the proxy
    created by the [p]-th call of [proxify]; [VObj n] is a plain object with
    identity [n]; [VInherited name] is what [Object.prototype] has at
    [name] (a built-in function; the prototype itself for [__proto__]). *)
Inductive val :=
| VUndef
| VBool (b : bool)
| VNum (n : Z)
| VStr (s : string)
| VObj (id : nat)
| VError (message : string) (cause : option val)
| VProxy (p : nat)
| VInherited (name : string).

(** [error instanceof Error] *)
Definition instanceofError (v : val) : bool :=
  match v with VError _ _ => true | _ => false end.

(** The own property names of [Object.prototype]: the names every plain
    object inherits. *)
Definition proto_names : list string :=
  ["constructor"; "__defineGetter__"; "__defineSetter__"; "hasOwnProperty";
   "__lookupGetter__"; "__lookupSetter__"; "isPrototypeOf";
   "propertyIsEnumerable"; "toString"; "valueOf"; "__proto__";
   "toLocaleString"].

(** [name in {}] *)
Definition inherited (name : string) : bool := bool_decide (name ∈ proto_names).

(** What a property of a proxy target holds: the symbol [requested], which
    is private to the library and so never a value of user code, or a
    value. *)
Inductive cell :=
| Requested
| Stored (v : val).

(** ** Factories *)

(** What the body of a factory may do. [Read o key] is the property read
    [o[key]]; [Fresh] evaluates an object literal; [Catch c h] is
    [try { c } catch (e) { h(e) }]. *)
Inductive prog :=
| Ret (v : val)
| Throw (v : val)
| Read (o : val) (key : string)
| Fresh
| Bind (c : prog) (k : val -> prog)
| Catch (c : prog) (h : val -> prog).

(** A function object: its identity [fid], the [isEager] tag, what a call
    of it evaluates, and the identities of the functions it calls with its
    own argument on the way ([forwards]; empty for a function literal). *)
Record Factory := mkFunction {
  fid : nat;
  isEager : bool;
  fbody : val -> prog;
  forwards : list nat
}.

(** The function literal [(ctx) => ...] with identity [id]. *)
Definition mkFactory (id : nat) (tag : bool) (body : val → prog) : Factory :=
  mkFunction id tag body [].

(** The functions a call of [f] invokes with its argument: [f] itself and
    those it forwards to. *)
Definition invoked (f : Factory) : list nat := fid f :: forwards f.

(** [eager(factory)]: an already tagged factory is returned as it is;
    otherwise the result is a new function object, tagged, that forwards
    its argument to [factory]: [(ctr) => factory(ctr)]. Its identity [id]
    is given by the caller of the model, as the identity of every function
    is; a call of it is also a call of [factory]. *)
Definition eager (id : nat) (factory : Factory) : Factory :=
  if isEager factory then factory
  else mkFunction id true (fun ctr => fbody factory ctr) (invoked factory).

(** ** Objects as ordered dictionaries *)

Section Dict.
Context {A : Type}.

(** [o[key]] (own property) *)
Fixpoint lookup_key (key : string) (o : list (string * A)) : option A :=
  match o with
  | [] => None
  | (k, v) :: o' => if decide (k = key) then Some v else lookup_key key o'
  end.

(** [o[key] = v]: an existing key keeps its position, a new one is
    added last. *)
Fixpoint set_key (key : string) (v : A) (o : list (string * A)) : list (string * A) :=
  match o with
  | [] => [(key, v)]
  | (k, w) :: o' =>
      if decide (k = key) then (k, v) :: o' else (k, w) :: set_key key v o'
  end.

(** [key in o] *)
Definition has_key (key : string) (o : list (string * A)) : bool :=
  match lookup_key key o with Some _ => true | None => false end.
End Dict.

(** Modelled from the spec: [keys] of [./base], which is not among the
    sources ("applied key by key over source"; "insertion order is
    preserved and observable"): the own keys of an object, in insertion
    order. *)
Definition keys {A : Type} (o : list (string * A)) : list string := o.*1.

(** ** The order of own keys *)

(** The value of a decimal digit. *)
Definition digit (a : Ascii.ascii) : option N :=
  let n := Ascii.N_of_ascii a in
  if (48 <=? n)%N && (n <=? 57)%N then Some (n - 48)%N else None.

Fixpoint digits (acc : N) (x : string) : option N :=
  match x with
  | EmptyString => Some acc
  | String a x' => d ← digit a; digits (10 * acc + d)%N x'
  end.

(** [key] is an array index: the canonical decimal name of an integer
    below [2^32 - 1]. *)
Definition array_index (key : string) : option N :=
  match key with
  | EmptyString => None
  | String a rest =>
      n ← digits 0 key;
      if (negb (Ascii.N_of_ascii a =? 48)%N || bool_decide (rest = "")) && (n <? 4294967295)%N
      then Some n else None
  end.

Fixpoint insert_index (n : N) (key : string) (l : list (N * string))
    : list (N * string) :=
  match l with
  | [] => [(n, key)]
  | (m, key') :: l' =>
      if (n <=? m)%N then (n, key) :: l else (m, key') :: insert_index n key l'
  end.

(** The order in which [Reflect.ownKeys] lists own string keys created in
    the order [ks]: array indices first, ascending, then the other keys in
    the order of their creation. *)
Definition own_key_order (ks : list string) : list string :=
  (foldr (λ key acc, match array_index key with
                     | Some n => insert_index n key acc
                     | None => acc
                     end) [] ks).*2
  ++ filter (λ key, array_index key = None) ks.

(** ** Modules *)

(** A module value is a factory or a reference to a nested module. *)
Inductive mval :=
| MFn (f : Factory)
| MObj (r : nat).

Abbreviation mobj := (list (string * mval)).

(** Modelled from the spec: [isObj] of [./base], which is not among the
    sources ("If both target[key] and source[key] are nested Modules
    (groups)"): true of a nested module, false of a factory and of
    [undefined]. *)
Definition isObj (v : option mval) : bool :=
  match v with Some (MObj _) => true | _ => false end.

(** [typeof value === 'function'] *)
Definition isFn (v : mval) : bool :=
  match v with MFn _ => true | MObj _ => false end.

(** The heap of module objects. *)
Abbreviation heap := (list mobj).

(** [h[r][key]] *)
Definition mget (h : heap) (r : nat) (key : string) : option mval :=
  h !! r ≫= lookup_key key.

(** [h[r][key] = v] *)
Definition mset (h : heap) (r : nat) (key : string) (v : mval) : heap :=
  match h !! r with
  | Some o => <[r := set_key key v o]> h
  | None => h
  end.

(** A module as the caller writes it: an object literal of factories and
    nested literals. *)
Inductive ModuleTree :=
| Service (f : Factory)
| Group (entries : list (string * ModuleTree)).

(** One property of an object literal: its value is evaluated, then stored
    (a repeated key keeps its first position and takes the last value). *)
Definition alloc_entry (rec : ModuleTree → heap → mval * heap)
    (acc : mobj * heap) (e : string * ModuleTree) : mobj * heap :=
  let '(v, h') := rec e.2 acc.2 in (set_key e.1 v acc.1, h').

(** Evaluation of an object literal: every nested literal becomes a new
    heap object. *)
Fixpoint alloc (m : ModuleTree) (h : heap) : mval * heap :=
  match m with
  | Service f => (MFn f, h)
  | Group entries =>
      let '(o, h') := foldl (alloc_entry alloc) ([], h) entries in
      (MObj (List.length h'), h' ++ [o])
  end.

(** The literal [{ k1: m1, ..., kn: mn }] passed as a module. *)
Definition alloc_module (entries : list (string * ModuleTree)) (h : heap) : nat * heap :=
  match alloc (Group entries) h with
  | (MObj r, h') => (r, h')
  | (MFn _, h') => (0, h')
  end.

(** ** merge *)

(** The body of the loop of [merge]: the callback of
    [keys(source).forEach], with [rec] for the recursive call. A loop that
    has run out of fuel stays so. *)
Definition merge_key (rec : nat → nat → heap → option heap) (target source : nat)
    (acc : option heap) (key : string) : option heap :=
  h ← acc;
  let sourceValue := mget h source key in
  let targetValue := mget h target key in
  if isObj sourceValue && isObj targetValue then
    match sourceValue, targetValue with
    | Some (MObj sr), Some (MObj tr) =>
        h' ← rec tr sr h;
        Some (mset h' target key (MObj tr))
    | _, _ => Some h
    end
  else
    match sourceValue with
    | Some v => Some (mset h target key v)
    | None => Some h
    end.

(** [merge(target, source)]: the loop runs over the keys [source] has on
    entry and reads both objects at each step; the result is [target],
    updated in place. The fuel bounds the recursion depth. *)
Fixpoint merge (fuel : nat) (target source : nat) (h : heap) : option heap :=
  match fuel with
  | 0 => None
  | S fuel' =>
      foldl (merge_key (merge fuel') target source) (Some h)
            (default [] (keys <$> h !! source))
  end.

(** ** The container store *)

(** A thrown value or a returned one. *)
Inductive outcome :=
| Ok (v : val)
| Err (v : val).

(** What a call of [proxify(module, container, path)] closes over, with
    the target object [{}] the proxy wraps. *)
Record proxy := mkProxy {
  target : list (string * cell);
  pmodule : nat;
  pcontainer : option nat;
  ppath : option string
}.

(** The store: module objects, proxies, the invocations of factory
    functions so far (function identity and argument, oldest first) and
    the next object identity. *)
Record state := mkState {
  modules : heap;
  proxies : list proxy;
  calls : list (nat * val);
  nextobj : nat
}.

Definition set_proxies (ps : list proxy) (s : state) : state :=
  mkState (modules s) ps (calls s) (nextobj s).

(** [obj[prop]] for the target [obj] of proxy [p] *)
Definition tget (s : state) (p : nat) (prop : string) : option cell :=
  proxies s !! p ≫= fun px => lookup_key prop (target px).

(** [obj[prop] = v] for the target [obj] of proxy [p] *)
Definition tset (p : nat) (prop : string) (v : cell) (s : state) : state :=
  match proxies s !! p with
  | Some px =>
      set_proxies
        (<[p := mkProxy (set_key prop v (target px)) (pmodule px)
                        (pcontainer px) (ppath px)]> (proxies s)) s
  | None => s
  end.

(** [proxify(module, container, path)]: a new proxy over a new target. *)
Definition proxify (module : nat) (container : option nat) (path : option string)
    (s : state) : nat * state :=
  (List.length (proxies s),
   set_proxies (proxies s ++ [mkProxy [] module container path]) s).

(** [prop in obj] for the target [obj] of proxy [p]: an own property, or a
    name the target [{}] inherits. *)
Definition tin (s : state) (p : nat) (prop : string) : bool :=
  bool_decide (is_Some (tget s p prop)) || inherited prop.

(** The factory call [value(container)] is about to run: the call of
    [value], and the calls it forwards. *)
Definition record_call (f : Factory) (container : val) (s : state) : state :=
  mkState (modules s) (proxies s)
          (calls s ++ ((λ g, (g, container)) <$> invoked f)) (nextobj s).

(** Truthiness of a string, and of an optional string argument. *)
Definition truthy (x : string) : bool :=
  match x with EmptyString => false | _ => true end.

Definition truthy_opt (x : option string) : bool :=
  match x with Some x => truthy x | None => false end.

Definition cycle_message (path : string) : string :=
  "Cycle detected. Please make " +:+ path +:+
  " lazy. See https://github.com/langium/ginject#cyclic-dependencies".

Definition failure_message (path : string) : string :=
  "Construction failure: " +:+ path.

(** [(parentPath ? '.' : '') + String(prop)] *)
Definition path_of (parentPath : option string) (prop : string) : string :=
  (if truthy_opt parentPath then "." else "") +:+ prop.

(** ** Running a factory body *)

Section Run.
(** The [get] trap of the proxies, as far as the fuel reaches. *)
Variable get : nat -> string -> state -> option (outcome * state).

(** [o[key]]: a proxy answers through its [get] trap; reading a property
    of [undefined] is a [TypeError]; other values have no property in
    this model. *)
Definition read (o : val) (key : string) (s : state) : option (outcome * state) :=
  match o with
  | VProxy p => get p key s
  | VUndef => Some (Err (VError "TypeError: cannot read properties of undefined" None), s)
  | _ => Some (Ok VUndef, s)
  end.

Fixpoint run (c : prog) (s : state) : option (outcome * state) :=
  match c with
  | Ret v => Some (Ok v, s)
  | Throw v => Some (Err v, s)
  | Read o key => read o key s
  | Fresh =>
      Some (Ok (VObj (nextobj s)),
            mkState (modules s) (proxies s) (calls s) (S (nextobj s)))
  | Bind c k =>
      match run c s with
      | Some (Ok v, s') => run (k v) s'
      | r => r
      end
  | Catch c h =>
      match run c s with
      | Some (Err e, s') => run (h e) s'
      | r => r
      end
  end.

(** [value(container)] for a factory [value] *)
Definition call (f : Factory) (container : nat) (s : state) : option (outcome * state) :=
  run (fbody f (VProxy container)) (record_call f (VProxy container) s).
End Run.

(** ** resolve and the traps of proxify *)

(** [resolve(obj, prop, module, container, parentPath)], where [obj] is the
    target of proxy [self]. The fuel bounds the depth of nested [resolve]
    calls (a factory reading the container). In the first branch
    [obj[prop]] is the own property, or else the inherited value, which is
    neither an [Error] nor [requested]; in the second branch [prop] is not
    an inherited name, so [prop in module] is an own key of the module. *)
Fixpoint resolve (fuel : nat) (self : nat) (prop : string) (module : nat)
    (container : nat) (parentPath : option string) (s : state)
    : option (outcome * state) :=
  match fuel with
  | 0 => None
  | S fuel' =>
      let get (p : nat) (prop : string) (s : state) :=
        match proxies s !! p with
        | Some px =>
            resolve fuel' p prop (pmodule px) (default p (pcontainer px)) (ppath px) s
        | None => Some (Ok VUndef, s)
        end in
      let path := path_of parentPath prop in
      if tin s self prop then
        match tget s self prop with
        | Some (Stored v) =>
            if instanceofError v then
              Some (Err (VError (failure_message path) None), s)
            else Some (Ok v, s)
        | Some Requested => Some (Err (VError (cycle_message path) None), s)
        | None => Some (Ok (VInherited prop), s)
        end
      else
        match mget (modules s) module prop with
        | Some value =>
            let s1 := tset self prop Requested s in
            let r :=
              match value with
              | MFn f => call get f container s1
              | MObj m =>
                  let '(p, s2) :=
                    proxify m (Some container)
                            (Some (if truthy path then "." else "")) s1 in
                  Some (Ok (VProxy p), s2)
              end in
            match r with
            | Some (Ok v, s2) => Some (Ok v, tset self prop (Stored v) s2)
            | Some (Err error, s2) =>
                Some (Err error,
                      tset self prop
                           (Stored (if instanceofError error then error else VUndef))
                           s2)
            | None => None
            end
        | None => Some (Ok VUndef, s)
        end
  end.

(** The [get] trap: [resolve(target, prop, module, container || proxy, path)]. *)
Definition proxy_get (fuel : nat) (p : nat) (prop : string) (s : state)
    : option (outcome * state) :=
  match proxies s !! p with
  | Some px => resolve fuel p prop (pmodule px) (default p (pcontainer px)) (ppath px) s
  | None => Some (Ok VUndef, s)
  end.

(** The [has] trap: [prop in module], true of the own keys of the module
    and of the names it inherits. *)
Definition proxy_has (p : nat) (prop : string) (s : state) : bool :=
  match proxies s !! p with
  | Some px =>
      bool_decide (is_Some (mget (modules s) (pmodule px) prop)) || inherited prop
  | None => false
  end.

(** The [ownKeys] trap: [Reflect.ownKeys(module)]. *)
Definition proxy_ownKeys (p : nat) (s : state) : list string :=
  match proxies s !! p with
  | Some px => own_key_order (default [] (keys <$> modules s !! pmodule px))
  | None => []
  end.

(** The [getOwnPropertyDescriptor] trap: [resolve] first (its value is
    dropped, its exception is not), then the descriptor of the target's
    property: what the target holds, or [None] for [undefined]. *)
Definition proxy_getOwnPropertyDescriptor (fuel : nat) (p : nat) (prop : string)
    (s : state) : option ((val + option cell) * state) :=
  match proxy_get fuel p prop s with
  | Some (Ok _, s') => Some (inr (tget s' p prop), s')
  | Some (Err e, s') => Some (inl e, s')
  | None => None
  end.

(** What [Object.keys(proxy)] and the own part of [for..in] do with the
    traps, as ECMAScript defines them: the keys of the [ownKeys] trap are
    taken first; then, key by key, the [getOwnPropertyDescriptor] trap is
    asked, and a key with a descriptor is listed. An exception of a trap
    ends the enumeration. *)
Fixpoint enumerate (fuel : nat) (p : nat) (ks : list string) (s : state)
    : option ((val + list string) * state) :=
  match ks with
  | [] => Some (inr [], s)
  | key :: ks' =>
      match proxy_getOwnPropertyDescriptor fuel p key s with
      | Some (inr d, s') =>
          match enumerate fuel p ks' s' with
          | Some (inr l, s'') =>
              Some (inr (match d with Some _ => key :: l | None => l end), s'')
          | r => r
          end
      | Some (inl e, s') => Some (inl e, s')
      | None => None
      end
  end.

Definition object_keys (fuel : nat) (p : nat) (s : state)
    : option ((val + list string) * state) :=
  enumerate fuel p (proxy_ownKeys p s) s.

(** The [deleteProperty] trap: [() => false]. *)
Definition proxy_deleteProperty (p : nat) (prop : string) (s : state) : bool := false.

(** ** inject *)

(** The body of the loop of [initializeEagerServices]: the callback of
    [keys(module).forEach], with [rec] for the recursive call and [get] for
    the [get] trap. An exception ends the loop. *)
Definition eager_key (rec : nat → nat → state → option (outcome * state))
    (get : nat → string → state → option (outcome * state))
    (module container : nat) (acc : option (outcome * state)) (key : string)
    : option (outcome * state) :=
  match acc with
  | Some (Ok _, s) =>
      match mget (modules s) module key with
      | Some (MFn value) =>
          if isEager value then
            match call get value container s with
            | Some (Ok _, s') => Some (Ok VUndef, s')
            | r => r
            end
          else Some (Ok VUndef, s)
      | Some (MObj value) => rec value container s
      | None => Some (Ok VUndef, s)
      end
  | r => r
  end.

(** [initializeEagerServices(module, container)] *)
Fixpoint initializeEagerServices (fuel : nat) (module : nat) (container : nat)
    (s : state) : option (outcome * state) :=
  match fuel with
  | 0 => None
  | S fuel' =>
      foldl (eager_key (initializeEagerServices fuel') (proxy_get fuel')
                       module container)
            (Some (Ok VUndef, s)) (default [] (keys <$> modules s !! module))
  end.

(** [modules.reduce(merge, {})] over the references of the argument
    modules; the result is the reference of the accumulator. *)
Definition merge_all (fuel : nat) (ms : list nat) (h : heap) : option (nat * heap) :=
  let acc := List.length h in
  h' ← foldl (fun (a : option heap) m => h ← a; merge fuel acc m h) (Some (h ++ [[]])) ms;
  Some (acc, h').

(** The argument modules are evaluated left to right. *)
Fixpoint alloc_modules (ms : list (list (string * ModuleTree))) (h : heap)
    : list nat * heap :=
  match ms with
  | [] => ([], h)
  | m :: ms' =>
      let '(r, h') := alloc_module m h in
      let '(rs, h'') := alloc_modules ms' h' in
      (r :: rs, h'')
  end.

(** [inject(...modules)] on module references, in a store whose heap holds
    them. *)
Definition inject_refs (fuel : nat) (ms : list nat) (s : state)
    : option (outcome * state) :=
  '(module, h) ← merge_all fuel ms (modules s);
  let '(container, s1) :=
    proxify module None None (mkState h (proxies s) (calls s) (nextobj s)) in
  match initializeEagerServices fuel module container s1 with
  | Some (Ok _, s2) => Some (Ok (VProxy container), s2)
  | r => r
  end.

(** [inject(m1, ..., mn)] on module literals, from an empty store. *)
Definition inject (fuel : nat) (ms : list (list (string * ModuleTree)))
    : option (outcome * state) :=
  let '(rs, h) := alloc_modules ms [] in
  inject_refs fuel rs (mkState h [] [] 0).

(** ** Specification vocabulary *)

(** The closure of a proxy (module, container, path) never changes. *)
Definition same_closure (px px' : proxy) : Prop :=
  pmodule px' = pmodule px ∧ pcontainer px' = pcontainer px ∧ ppath px' = ppath px.

(** [ext s s']: from [s] to [s'] the module heap is the same, every proxy
    keeps its closure, every property a target holds keeps its value, the
    record of calls is extended and object identities are not reused. *)
Record ext (s s' : state) : Prop := mkExt {
  ext_modules : modules s' = modules s;
  ext_proxies : ∀ p px, proxies s !! p = Some px →
                ∃ px', proxies s' !! p = Some px' ∧ same_closure px px';
  ext_frozen : ∀ p k v, tget s p k = Some v → tget s' p k = Some v;
  ext_calls : ∃ l, calls s' = calls s ++ l;
  ext_nextobj : (nextobj s ≤ nextobj s')%nat
}.

(** [reads s s']: [s'] is [s] after some property reads on proxies, each
    a call of the [get] trap that has returned or thrown. Assignments to a
    proxy and changes of the module objects are not among the steps. *)
Inductive reads : state → state → Prop :=
| reads_refl s : reads s s
| reads_step s fuel p k r s1 s2 :
    proxy_get fuel p k s = Some (r, s1) → reads s1 s2 → reads s s2.

(** What a read of a property the target already holds does. *)
Definition replay (path : string) (c : cell) : outcome :=
  match c with
  | Requested => Err (VError (cycle_message path) None)
  | Stored v =>
      if instanceofError v then Err (VError (failure_message path) None) else Ok v
  end.

(** The chained read [o.k1.k2...kn]. *)
Fixpoint read_path (fuel : nat) (o : val) (π : list string) (s : state)
    : option (outcome * state) :=
  match π with
  | [] => Some (Ok o, s)
  | k :: π' =>
      match read (proxy_get fuel) o k s with
      | Some (Ok v, s') => read_path fuel v π' s'
      | r => r
      end
  end.

(** How many times the function [id] has been invoked. *)
Definition ncalls (id : nat) (cs : list (nat * val)) : nat :=
  List.length (filter (λ c, c.1 = id) cs).

(** The module object reached from [r] along the group keys [π]. *)
Fixpoint node_at (h : heap) (r : nat) (π : list string) : option nat :=
  match π with
  | [] => Some r
  | k :: π' =>
      match mget h r k with
      | Some (MObj r') => node_at h r' π'
      | _ => None
      end
  end.

(** The module value at key [k] of the group [π] of the module [r]. *)
Definition value_at (h : heap) (r : nat) (π : list string) (k : string) : option mval :=
  node_at h r π ≫= λ n, mget h n k.

(** The first statement of [inject] on module literals, on its own: the
    merged module the container is built from ([inject_module] relates it
    to the store [inject] returns). *)
Definition merged_module (fuel : nat) (ms : list (list (string * ModuleTree)))
    : option (nat * heap) :=
  let '(rs, h) := alloc_modules ms [] in merge_all fuel rs h.

(** Every proxy hands the proxy [root] to the factories it calls, and every
    call recorded so far received it. *)
Definition rooted (root : nat) (s : state) : Prop :=
  (∀ p px, proxies s !! p = Some px → default p (pcontainer px) = root) ∧
  (∀ c, c ∈ calls s → c.2 = VProxy root).

(** [tracked h rootm paths s]: the store [s] is a container over the module
    [rootm] of the heap [h], and [paths] gives every proxy the group path
    of the module node it stands for: different proxies stand for
    different paths, a proxy other than the root is known to its parent,
    and what the target holds at a group key is the proxy of that group. *)
Record tracked (h : heap) (rootm : nat) (paths : list (list string)) (s : state)
    : Prop := mkTracked {
  tr_modules : modules s = h;
  tr_length : List.length paths = List.length (proxies s);
  tr_node : ∀ p px π, proxies s !! p = Some px → paths !! p = Some π →
            node_at h rootm π = Some (pmodule px);
  tr_nodup : NoDup paths;
  tr_parent : ∀ q πq, paths !! q = Some πq →
              πq = [] ∨ ∃ p π k, πq = π ++ [k] ∧ paths !! p = Some π ∧
                                 is_Some (tget s p k);
  tr_group : ∀ p px π k m c, proxies s !! p = Some px → paths !! p = Some π →
             mget h (pmodule px) k = Some (MObj m) → tget s p k = Some c →
             ∃ q, c = Stored (VProxy q) ∧ paths !! q = Some (π ++ [k])
}.

(** [counted paths π0 k0 id s]: the function [id] has been called once if
    the target of the proxy for [π0] holds the key [k0], and not at all if
    it does not. *)
Definition counted (paths : list (list string)) (π0 : list string) (k0 : string)
    (id : nat) (s : state) : Prop :=
  ((∀ p, paths !! p = Some π0 → tget s p k0 = None) → ncalls id (calls s) = 0) ∧
  (∀ p, paths !! p = Some π0 → is_Some (tget s p k0) → ncalls id (calls s) = 1).

(** No factory of the module [rootm] is tagged eager. *)
Definition no_eager (h : heap) (rootm : nat) : Prop :=
  ∀ π k g, value_at h rootm π k = Some (MFn g) → isEager g = false.

(** A program that reads no property. *)
Inductive readfree : prog → Prop :=
| readfree_Ret v : readfree (Ret v)
| readfree_Throw v : readfree (Throw v)
| readfree_Fresh : readfree Fresh
| readfree_Bind c k : readfree c → (∀ v, readfree (k v)) → readfree (Bind c k)
| readfree_Catch c hd : readfree c → (∀ e, readfree (hd e)) → readfree (Catch c hd).

(** No eager factory of the module [rootm] reads a property. *)
Definition eager_readfree (h : heap) (rootm : nat) : Prop :=
  ∀ π k g ctx, value_at h rootm π k = Some (MFn g) → isEager g = true →
               readfree (fbody g ctx).

(** The function [f0] is a value of the module at [π0], [k0] only, no
    function elsewhere in the module forwards to it (as [eager(f0)] would),
    and it does not forward to itself. *)
Definition unique_at (h : heap) (rootm : nat) (π0 : list string) (k0 : string)
    (f0 : Factory) : Prop :=
  (fid f0 ∉ forwards f0) ∧
  ∀ π k g, value_at h rootm π k = Some (MFn g) → fid f0 ∈ invoked g →
           π = π0 ∧ k = k0.

(** The targets along the groups [π] from the proxy [p] hold the proxies of
    these groups, and the last one holds the value [v] at the key [k]. *)
Fixpoint chain (s : state) (p : nat) (π : list string) (k : string) (v : val) : Prop :=
  match π with
  | [] => tget s p k = Some (Stored v)
  | k' :: π' => ∃ q, tget s p k' = Some (Stored (VProxy q)) ∧ chain s q π' k v
  end.

(** ** The merge rule of the specification *)

(** The value the merged module has at a key where the later module has
    [sv] and the earlier one has [tv], written after section 4.1 of the
    specification: two groups are merged recursively, key by key over the
    later one; in every other case the later value replaces the earlier
    one. *)
Fixpoint merge_value (sv : ModuleTree) (tv : option ModuleTree) : ModuleTree :=
  match sv, tv with
  | Group ss, Some (Group ts) =>
      Group (foldl (λ t e, set_key e.1 (merge_value e.2 (lookup_key e.1 t)) t) ts ss)
  | _, _ => sv
  end.

(** [merge(target, source)] of the specification, on the entries of two
    modules. *)
Definition merge_spec (target source : list (string * ModuleTree))
    : list (string * ModuleTree) :=
  foldl (λ t e, set_key e.1 (merge_value e.2 (lookup_key e.1 t)) t) target source.

(** The module a list of modules merges to: a left fold from the empty
    module, so later modules override earlier ones. *)
Definition merge_all_spec (ms : list (list (string * ModuleTree)))
    : list (string * ModuleTree) :=
  foldl merge_spec [] ms.

(** The object an object literal denotes: a repeated key keeps its first
    position and takes its last value. *)
Fixpoint norm (m : ModuleTree) : ModuleTree :=
  match m with
  | Service f => Service f
  | Group es => Group (foldl (λ o e, set_key e.1 (norm e.2) o) [] es)
  end.

Definition norm_entries (es : list (string * ModuleTree)) : list (string * ModuleTree) :=
  foldl (λ o e, set_key e.1 (norm e.2) o) [] es.

(** The nesting depth of a module. *)
Fixpoint depth (m : ModuleTree) : nat :=
  match m with
  | Service _ => 0
  | Group es => S (foldr (λ e d, depth e.2 `max` d) 0 es)
  end.

(** The heap holds the module [t] at the value [v]. *)
Fixpoint repr (h : heap) (t : ModuleTree) (v : mval) : Prop :=
  match t with
  | Service f => v = MFn f
  | Group es =>
      ∃ r o, v = MObj r ∧ h !! r = Some o ∧ keys o = keys es ∧
        foldr (λ e P, (∃ v', lookup_key e.1 o = Some v' ∧ repr h e.2 v') ∧ P) True es
  end.

(** ** Module trees with their heap addresses *)

(** A module as it lies in the heap: every group with the address of its
    object. *)
Inductive atree :=
| ALeaf (f : Factory)
| ANode (r : nat) (kids : list (string * atree)).

Definition aval (a : atree) : mval :=
  match a with ALeaf f => MFn f | ANode r _ => MObj r end.

(** The object of a group with the children [kids]. *)
Definition kobj (kids : list (string * atree)) : mobj := prod_map id aval <$> kids.

(** The addresses of the objects of a tree, the root first. *)
Fixpoint addrs (a : atree) : list nat :=
  match a with
  | ALeaf _ => []
  | ANode r kids => r :: flat_map (λ ka, addrs ka.2) kids
  end.

Definition kaddrs (kids : list (string * atree)) : list nat :=
  flat_map (λ ka, addrs ka.2) kids.

(** The module a tree stands for. *)
Fixpoint erase (a : atree) : ModuleTree :=
  match a with
  | ALeaf f => Service f
  | ANode _ kids => Group (prod_map id erase <$> kids)
  end.

Fixpoint adepth (a : atree) : nat :=
  match a with
  | ALeaf _ => 0
  | ANode _ kids => S (foldr (λ ka d, adepth ka.2 `max` d) 0 kids)
  end.

Definition kdepth (kids : list (string * atree)) : nat :=
  foldr (λ ka d, adepth ka.2 `max` d) 0 kids.

Definition edepth (es : list (string * ModuleTree)) : nat :=
  foldr (λ e d, depth e.2 `max` d) 0 es.

(** The heap holds the tree: every group object is at its address, with
    its keys and the values of its children, and no key twice. *)
Fixpoint awf (h : heap) (a : atree) : Prop :=
  match a with
  | ALeaf _ => True
  | ANode r kids =>
      h !! r = Some (kobj kids) ∧ NoDup (keys kids) ∧
      foldr (λ ka P, awf h ka.2 ∧ P) True kids
  end.

(** [merge] on trees with addresses: the merged group lives in the
    object of the target, the other values are the source's own. *)
Fixpoint amerge_value (sv : atree) (tv : option atree) : atree :=
  match sv, tv with
  | ANode sr skids, Some (ANode tr tkids) =>
      ANode tr (foldl (λ t ka, set_key ka.1 (amerge_value ka.2 (lookup_key ka.1 t)) t)
                      tkids skids)
  | _, _ => sv
  end.

(** What the evaluation of the properties of a literal keeps true of the
    children built so far, in a heap that extends [h]. *)
Definition literal_inv (h : heap) (kids : list (string * atree)) (h1 : heap) : Prop :=
  Forall (λ ka, awf h1 ka.2) kids ∧ NoDup (keys kids) ∧ NoDup (kaddrs kids) ∧
  ∀ r, r ∈ kaddrs kids → List.length h ≤ r.

(** The addresses of a list of modules in the heap, each given by the
    address of its object and its children. *)
Definition taddrs (trees : list (nat * list (string * atree))) : list nat :=
  flat_map (λ t, addrs (ANode t.1 t.2)) trees.

Definition oaddrs (tv : option atree) : list nat := from_option addrs [] tv.

Definition amerge_kids (tkids skids : list (string * atree)) : list (string * atree) :=
  foldl (λ t ka, set_key ka.1 (amerge_value ka.2 (lookup_key ka.1 t)) t) tkids skids.

(** ** Termination of reads *)

(** A position of the module: the path of a group and a key. The target of
    the proxy for the path holds the key. *)
Definition cached_at (s : state) (paths : list (list string))
    (pos : list string * string) : Prop :=
  ∃ p, paths !! p = Some pos.1 ∧ is_Some (tget s p pos.2).

(** [U] has every position of the module [rootm] that no target holds
    yet. *)
Definition covers (U : list (list string * string)) (h : heap) (rootm : nat)
    (s : state) (paths : list (list string)) : Prop :=
  ∀ π k, is_Some (value_at h rootm π k) → ¬ cached_at s paths (π, k) → (π, k) ∈ U.

(** The positions of a tree. *)
Fixpoint apos (a : atree) : list (list string * string) :=
  match a with
  | ALeaf _ => []
  | ANode _ kids =>
      flat_map (λ ka, ([], ka.1) :: (prod_map (cons ka.1) id <$> apos ka.2)) kids
  end.

(** The number of keys of a module, nested ones included. *)
Fixpoint nkeys (m : ModuleTree) : nat :=
  match m with
  | Service _ => 0
  | Group es => foldr (λ e n, S (nkeys e.2) + n) 0 es
  end.

(** ** Vocabulary of the further properties *)

(** The targets hold only keys of their modules. *)
Definition within (s : state) : Prop :=
  ∀ p px k, proxies s !! p = Some px → is_Some (tget s p k) →
            is_Some (mget (modules s) (pmodule px) k).

(** [marks s s']: every property that holds the symbol [requested] in [s']
    held it in [s]. *)
Definition marks (s s' : state) : Prop :=
  ∀ p k, tget s' p k = Some Requested → tget s p k = Some Requested.

(** [fills s s']: every property with an inherited name that a target
    holds in [s'] was held in [s]. *)
Definition fills (s s' : state) : Prop :=
  ∀ p k, inherited k = true → is_Some (tget s' p k) → is_Some (tget s p k).

(** [called root s]: for every property a target holds at a key where the
    module has a factory, an invocation of that factory with the proxy
    [root] is on record. *)
Definition called (root : nat) (s : state) : Prop :=
  ∀ p px k f, proxies s !! p = Some px → is_Some (tget s p k) →
    mget (modules s) (pmodule px) k = Some (MFn f) →
    (fid f, VProxy root) ∈ calls s.

(** The value a module literal has at the key [k] of its group [π]. *)
Fixpoint tree_at (es : list (string * ModuleTree)) (π : list string) (k : string)
    : option ModuleTree :=
  match π with
  | [] => lookup_key k es
  | k1 :: π' =>
      match lookup_key k1 es with
      | Some (Group es') => tree_at es' π' k
      | _ => None
      end
  end.

(** The subtree of a tree with addresses at the key [k] of its group [π]. *)
Fixpoint asub (kids : list (string * atree)) (π : list string) (k : string)
    : option atree :=
  match π with
  | [] => lookup_key k kids
  | k1 :: π' =>
      match lookup_key k1 kids with
      | Some (ANode _ kids') => asub kids' π' k
      | _ => None
      end
  end.

(** ** Example modules *)

Module Examples.
(** The store a computation ends in ([s0] if it ran out of fuel). *)
Definition state_of {A : Type} (s0 : state) (r : option (A * state)) : state :=
  match r with Some (_, s) => s | None => s0 end.

Definition no_state : state := mkState [] [] [] 0.

(** [{a: (ctx) => ctx.b, b: (ctx) => ctx.a}] *)
Definition cyclic_pair : list (string * ModuleTree) :=
  [("a", Service (mkFactory 0 false (λ ctx, Read ctx "b")));
   ("b", Service (mkFactory 1 false (λ ctx, Read ctx "a")))].

(** [{a: () => { throw new Error() }, b: () => 1}] *)
Definition throwing_a : list (string * ModuleTree) :=
  [("a", Service (mkFactory 0 false (λ _, Throw (VError "" None))));
   ("b", Service (mkFactory 1 false (λ _, Ret (VNum 1))))].

(** [{b: {c: {d: (ctx) => ctx.b.c.d}}}] *)
Definition nested_cycle : list (string * ModuleTree) :=
  [("b", Group [("c", Group [("d", Service (mkFactory 0 false (λ ctx,
      Bind (Read ctx "b") (λ b, Bind (Read b "c") (λ c, Read c "d")))))])])].

(** [{b: {c: {d: () => { throw new Error('construction error') }}}}] *)
Definition nested_failure : list (string * ModuleTree) :=
  [("b", Group [("c", Group [("d", Service (mkFactory 0 false (λ _,
      Throw (VError "construction error" None))))])])].

(** [{first: () => { throw new Error('construction error') }}] *)
Definition failing_first : list (string * ModuleTree) :=
  [("first", Service (mkFactory 0 false (λ _,
      Throw (VError "construction error" None))))].

(** [{first: () => { throw 'boom' }}] *)
Definition throwing_string : list (string * ModuleTree) :=
  [("first", Service (mkFactory 0 false (λ _, Throw (VStr "boom"))))].
Definition throwing_string_heap_object : mobj :=
  [("first", MFn (mkFactory 0 false (λ _, Throw (VStr "boom"))))].

(** [{gin: eager(() => ({}))}] *)
Definition eager_gin : list (string * ModuleTree) :=
  [("gin", Service (eager 1 (mkFactory 0 false (λ _, Fresh))))].

(** [{p: eager((ctx) => ctx.q), q: () => ({})}] *)
Definition eager_reads_lazy : list (string * ModuleTree) :=
  [("p", Service (eager 2 (mkFactory 0 false (λ ctx, Read ctx "q"))));
   ("q", Service (mkFactory 1 false (λ _, Fresh)))].

(** [{p1: eager(() => ({})), p2: () => ({})}] *)
Definition eager_and_lazy : list (string * ModuleTree) :=
  [("p1", Service (eager 2 (mkFactory 0 false (λ _, Fresh))));
   ("p2", Service (mkFactory 1 false (λ _, Fresh)))].

(** [{a: {x: () => 1}}] and [{a: {y: () => 2}}] *)
Definition group_x : list (string * ModuleTree) :=
  [("a", Group [("x", Service (mkFactory 0 false (λ _, Ret (VNum 1))))])].
Definition group_y : list (string * ModuleTree) :=
  [("a", Group [("y", Service (mkFactory 1 false (λ _, Ret (VNum 2))))])].

(** [{x: () => 1, g: {h: {deep: (ctx) => ctx.x}}}] *)
Definition deep_reads_root : list (string * ModuleTree) :=
  [("x", Service (mkFactory 0 false (λ _, Ret (VNum 1))));
   ("g", Group [("h", Group [("deep", Service (mkFactory 1 false (λ ctx,
      Read ctx "x")))])])].

(** [{group: {value: () => ({})}}] *)
Definition group_value : list (string * ModuleTree) :=
  [("group", Group [("value", Service (mkFactory 0 false (λ _, Fresh)))])].

(** [const g = {x: () => 1}; const m1 = {a: g, b: g}; const m2 = {a: {x: () => 2}}]:
    the heap with [g] at 0, [m1] at 1, the group of [m2] at 2 and [m2] at 3;
    both keys of [m1] hold the one object [g]. *)
Definition shared_f1 : Factory := mkFactory 1 false (λ _, Ret (VNum 1)).
Definition shared_f2 : Factory := mkFactory 2 false (λ _, Ret (VNum 2)).
Definition shared_heap : heap :=
  [[("x", MFn shared_f1)];
   [("a", MObj 0); ("b", MObj 0)];
   [("x", MFn shared_f2)];
   [("a", MObj 2)]].
(** The trees [m1] and [m2] denote. *)
Definition shared_m1 : list (string * ModuleTree) :=
  [("a", Group [("x", Service shared_f1)]); ("b", Group [("x", Service shared_f1)])].
Definition shared_m2 : list (string * ModuleTree) :=
  [("a", Group [("x", Service shared_f2)])].
End Examples.

(** * Properties *)

(** ** Dictionaries *)

Section DictFacts.
Context {A : Type}.
Implicit Types (o : list (string * A)) (k : string) (v : A).

Lemma lookup_set_key_eq o k v : lookup_key k (set_key k v o) = Some v.
Proof.
  induction o as [|[k' w] o IH]; simpl.
  - by rewrite decide_True.
  - destruct (decide (k' = k)) as [->|Hne]; simpl.
    + by rewrite decide_True.
    + by rewrite decide_False.
Qed.

Lemma lookup_set_key_ne o k k' v :
  k ≠ k' → lookup_key k' (set_key k v o) = lookup_key k' o.
Proof.
  intros Hne. induction o as [|[k0 w] o IH]; simpl.
  - by rewrite decide_False.
  - destruct (decide (k0 = k)) as [->|Hne0]; simpl.
    + by rewrite !decide_False.
    + destruct (decide (k0 = k')); [done|apply IH].
Qed.

Lemma lookup_key_Some_keys o k v : lookup_key k o = Some v → k ∈ keys o.
Proof.
  unfold keys. induction o as [|[k0 w] o IH]; simpl; [done|].
  destruct (decide (k0 = k)) as [->|]; intros; [left|right; auto].
Qed.

Lemma lookup_key_None_keys o k : lookup_key k o = None ↔ k ∉ keys o.
Proof.
  unfold keys. induction o as [|[k0 w] o IH]; simpl.
  - split; [intros _; apply not_elem_of_nil|done].
  - rewrite not_elem_of_cons. destruct (decide (k0 = k)) as [->|Hne].
    + split; [done|]. by intros [? _].
    + rewrite IH. split; [by split|by intros [_ ?]].
Qed.

Lemma keys_lookup_key o k : k ∈ keys o → is_Some (lookup_key k o).
Proof.
  intros Hin. destruct (lookup_key k o) eqn:E; [eauto|].
  by apply lookup_key_None_keys in E.
Qed.

Lemma keys_set_key_present o k v :
  is_Some (lookup_key k o) → keys (set_key k v o) = keys o.
Proof.
  unfold keys. induction o as [|[k0 w] o IH]; simpl.
  - by intros [? ?].
  - destruct (decide (k0 = k)) as [->|Hne]; simpl; [done|].
    intros H. f_equal. by apply IH.
Qed.

Lemma keys_set_key_absent o k v :
  lookup_key k o = None → keys (set_key k v o) = keys o ++ [k].
Proof.
  unfold keys. induction o as [|[k0 w] o IH]; simpl; [done|].
  destruct (decide (k0 = k)) as [->|Hne]; simpl; [done|].
  intros H. f_equal. by apply IH.
Qed.
End DictFacts.

(** ** Proxy targets *)

Lemma tget_tset_eq s p k v :
  is_Some (proxies s !! p) → tget (tset p k v s) p k = Some v.
Proof.
  intros [px Hpx]. unfold tget, tset. rewrite Hpx. simpl.
  rewrite list_lookup_insert_eq; [|by eapply lookup_lt_Some].
  simpl. apply lookup_set_key_eq.
Qed.

Lemma tget_tset_ne s p k v p' k' :
  (p, k) ≠ (p', k') → tget (tset p k v s) p' k' = tget s p' k'.
Proof.
  intros Hne. unfold tget, tset.
  destruct (proxies s !! p) as [px|] eqn:Hpx; [|done]. simpl.
  destruct (decide (p = p')) as [<-|Hp].
  - rewrite list_lookup_insert_eq; [|by eapply lookup_lt_Some].
    rewrite Hpx. simpl. apply lookup_set_key_ne. congruence.
  - by rewrite list_lookup_insert_ne.
Qed.

Lemma tget_is_Some_proxy s p k : is_Some (tget s p k) → is_Some (proxies s !! p).
Proof. unfold tget. destruct (proxies s !! p); [eauto|by intros [? ?]]. Qed.

Lemma modules_tset p k v s : modules (tset p k v s) = modules s.
Proof. unfold tset. by destruct (proxies s !! p). Qed.

Lemma calls_tset p k v s : calls (tset p k v s) = calls s.
Proof. unfold tset. by destruct (proxies s !! p). Qed.

Lemma calls_record_call f c s :
  calls (record_call f c s) = calls s ++ ((λ g, (g, c)) <$> invoked f).
Proof. done. Qed.

Lemma elem_of_record_call f c s x :
  x ∈ calls (record_call f c s) ↔ x ∈ calls s ∨ ∃ g, x = (g, c) ∧ g ∈ invoked f.
Proof. rewrite calls_record_call, elem_of_app, list_elem_of_fmap. done. Qed.

Lemma nextobj_tset p k v s : nextobj (tset p k v s) = nextobj s.
Proof. unfold tset. by destruct (proxies s !! p). Qed.

Lemma length_proxies_tset p k v s :
  List.length (proxies (tset p k v s)) = List.length (proxies s).
Proof.
  unfold tset. destruct (proxies s !! p); [|done]. simpl. by rewrite length_insert.
Qed.


Lemma proxies_tset p k v s q px :
  proxies s !! q = Some px →
  ∃ px', proxies (tset p k v s) !! q = Some px' ∧ same_closure px px'.
Proof.
  intros Hq. unfold tset.
  destruct (proxies s !! p) as [pp|] eqn:Hp; [|by exists px]. simpl.
  destruct (decide (p = q)) as [->|Hne].
  - rewrite list_lookup_insert_eq; [|by eapply lookup_lt_Some].
    eexists. split; [done|]. rewrite Hq in Hp. by inversion Hp.
  - rewrite list_lookup_insert_ne; [|done]. by exists px.
Qed.

Lemma proxies_tset_inv p k v s q px' :
  proxies (tset p k v s) !! q = Some px' →
  ∃ px, proxies s !! q = Some px ∧ same_closure px px'.
Proof.
  unfold tset. destruct (proxies s !! p) as [pp|] eqn:Hp; [|by exists px'].
  simpl. destruct (decide (p = q)) as [->|Hne].
  - rewrite list_lookup_insert_eq; [|by eapply lookup_lt_Some].
    intros [= <-]. by exists pp.
  - rewrite list_lookup_insert_ne; [|done]. by exists px'.
Qed.

(** ** How the store evolves *)

Lemma same_closure_refl px : same_closure px px.
Proof. by repeat split. Qed.

Lemma same_closure_trans px1 px2 px3 :
  same_closure px1 px2 → same_closure px2 px3 → same_closure px1 px3.
Proof. unfold same_closure. intros (?&?&?) (?&?&?). repeat split; congruence. Qed.

Lemma ext_refl s : ext s s.
Proof.
  split; auto.
  - intros p px ?. exists px. split; [done|apply same_closure_refl].
  - exists []. by rewrite app_nil_r.
Qed.

Lemma ext_trans s1 s2 s3 : ext s1 s2 → ext s2 s3 → ext s1 s3.
Proof.
  intros [Hm1 Hp1 Hf1 [l1 Hc1] Hn1] [Hm2 Hp2 Hf2 [l2 Hc2] Hn2]. split.
  - congruence.
  - intros p px Hpx. destruct (Hp1 _ _ Hpx) as (px2 & Hpx2 & Hcl2).
    destruct (Hp2 _ _ Hpx2) as (px3 & Hpx3 & Hcl3).
    exists px3. split; [done|]. by eapply same_closure_trans.
  - auto.
  - exists (l1 ++ l2). by rewrite Hc2, Hc1, app_assoc.
  - lia.
Qed.

Lemma ext_tset_absent s p k v : tget s p k = None → ext s (tset p k v s).
Proof.
  intros Hnone. split.
  - apply modules_tset.
  - intros q px. apply proxies_tset.
  - intros q k' w Hw. rewrite tget_tset_ne; [done|]. congruence.
  - exists []. by rewrite calls_tset, app_nil_r.
  - by rewrite nextobj_tset.
Qed.

Lemma ext_overwrite s s2 p k v :
  tget s p k = None → ext s s2 → ext s (tset p k v s2).
Proof.
  intros Hnone [Hm Hp Hf Hc Hn]. split.
  - by rewrite modules_tset.
  - intros q px Hq. destruct (Hp _ _ Hq) as (px2 & Hq2 & Hcl).
    destruct (proxies_tset p k v _ _ _ Hq2) as (px3 & Hq3 & Hcl3).
    exists px3. split; [done|]. by eapply same_closure_trans.
  - intros q k' w Hw. rewrite tget_tset_ne; [auto|]. congruence.
  - by rewrite calls_tset.
  - by rewrite nextobj_tset.
Qed.

Lemma ext_record_call f c s : ext s (record_call f c s).
Proof.
  split; simpl; auto.
  - intros p px ?. exists px. split; [done|apply same_closure_refl].
  - by eexists.
Qed.

Lemma ext_proxify m c path s : ext s (proxify m c path s).2.
Proof.
  split; simpl; auto.
  - intros p px Hp. exists px. split; [|apply same_closure_refl].
    by apply lookup_app_l_Some.
  - intros p k v. unfold tget. simpl.
    destruct (proxies s !! p) as [px|] eqn:Hp; [|done].
    by rewrite (lookup_app_l_Some _ _ _ _ Hp).
  - exists []. by rewrite app_nil_r.
Qed.

Section RunExt.
Variable get : nat → string → state → option (outcome * state).
Hypothesis get_ext : ∀ p k s r s', get p k s = Some (r, s') → ext s s'.

Lemma read_ext o k s r s' : read get o k s = Some (r, s') → ext s s'.
Proof.
  destruct o; simpl; try (intros [= <- <-]; apply ext_refl). apply get_ext.
Qed.

Lemma run_ext c : ∀ s r s', run get c s = Some (r, s') → ext s s'.
Proof.
  induction c as [v|v|o k| |c IHc k IHk|c IHc h IHh]; simpl; intros s r s'.
  - intros [= <- <-]. apply ext_refl.
  - intros [= <- <-]. apply ext_refl.
  - apply read_ext.
  - intros [= <- <-]. split; simpl; auto.
    + intros p px ?. exists px. split; [done|apply same_closure_refl].
    + exists []. by rewrite app_nil_r.
  - destruct (run get c s) as [[[v|e] s1]|] eqn:E; [| |done].
    + intros H. eapply ext_trans; [by eapply IHc|by eapply IHk].
    + intros [= <- <-]. by eapply IHc.
  - destruct (run get c s) as [[[v|e] s1]|] eqn:E; [| |done].
    + intros [= <- <-]. by eapply IHc.
    + intros H. eapply ext_trans; [by eapply IHc|by eapply IHh].
Qed.

Lemma call_ext f c s r s' : call get f c s = Some (r, s') → ext s s'.
Proof.
  unfold call. intros H. eapply ext_trans; [apply ext_record_call|].
  by eapply run_ext.
Qed.
End RunExt.

(** One unfolding of [resolve]: its local [get] is the [get] trap. *)
Lemma resolve_S fuel self prop module container parentPath s :
  resolve (S fuel) self prop module container parentPath s =
  let path := path_of parentPath prop in
  match tget s self prop with
  | Some (Stored v) =>
      if instanceofError v then Some (Err (VError (failure_message path) None), s)
      else Some (Ok v, s)
  | Some Requested => Some (Err (VError (cycle_message path) None), s)
  | None =>
      if inherited prop then Some (Ok (VInherited prop), s)
      else
      match mget (modules s) module prop with
      | Some value =>
          let s1 := tset self prop Requested s in
          let r :=
            match value with
            | MFn f => call (proxy_get fuel) f container s1
            | MObj m =>
                let '(p, s2) :=
                  proxify m (Some container)
                          (Some (if truthy path then "." else "")) s1 in
                Some (Ok (VProxy p), s2)
            end in
          match r with
          | Some (Ok v, s2) => Some (Ok v, tset self prop (Stored v) s2)
          | Some (Err error, s2) =>
              Some (Err error,
                    tset self prop
                         (Stored (if instanceofError error then error else VUndef)) s2)
          | None => None
          end
      | None => Some (Ok VUndef, s)
      end
  end.
Proof.
  change (resolve (S fuel) self prop module container parentPath s) with
    (let path := path_of parentPath prop in
     if tin s self prop then
       match tget s self prop with
       | Some (Stored v) =>
           if instanceofError v then Some (Err (VError (failure_message path) None), s)
           else Some (Ok v, s)
       | Some Requested => Some (Err (VError (cycle_message path) None), s)
       | None => Some (Ok (VInherited prop), s)
       end
     else
       match mget (modules s) module prop with
       | Some value =>
           let s1 := tset self prop Requested s in
           let r :=
             match value with
             | MFn f => call (proxy_get fuel) f container s1
             | MObj m =>
                 let '(p, s2) :=
                   proxify m (Some container)
                           (Some (if truthy path then "." else "")) s1 in
                 Some (Ok (VProxy p), s2)
             end in
           match r with
           | Some (Ok v, s2) => Some (Ok v, tset self prop (Stored v) s2)
           | Some (Err error, s2) =>
               Some (Err error,
                     tset self prop
                          (Stored (if instanceofError error then error else VUndef)) s2)
           | None => None
           end
       | None => Some (Ok VUndef, s)
       end).
  unfold tin. simpl. destruct (tget s self prop) as [[|v]|]; simpl; done.
Qed.

Lemma tin_false s p k : tin s p k = false ↔ tget s p k = None ∧ inherited k = false.
Proof.
  unfold tin. rewrite orb_false_iff, bool_decide_eq_false. split.
  - intros [Hn ->]. split; [|done]. destruct (tget s p k); [|done]. exfalso. eauto.
  - intros [-> ->]. split; [|done]. by intros [? ?].
Qed.

Lemma inherited_false k : inherited k = false ↔ k ∉ proto_names.
Proof. unfold inherited. apply bool_decide_eq_false. Qed.

Lemma resolve_ext fuel : ∀ self prop module container parentPath s r s',
  resolve fuel self prop module container parentPath s = Some (r, s') → ext s s'.
Proof.
  induction fuel as [|fuel IH]; [done|].
  assert (Hget : ∀ p k s r s', proxy_get fuel p k s = Some (r, s') → ext s s').
  { intros p k s r s'. unfold proxy_get.
    destruct (proxies s !! p); [apply IH|]. intros [= <- <-]. apply ext_refl. }
  intros self prop module container parentPath s r s'. rewrite resolve_S. simpl.
  destruct (tget s self prop) as [[|v]|] eqn:Ht.
  { intros [= <- <-]; apply ext_refl. }
  { destruct (instanceofError v); intros [= <- <-]; apply ext_refl. }
  destruct (inherited prop); [intros [= <- <-]; apply ext_refl|].
  destruct (mget (modules s) module prop) as [[f|m]|];
    [| |intros [= <- <-]; apply ext_refl].
  - destruct (call _ f container _) as [[[v|e] s2]|] eqn:E; [| |done].
    + intros [= <- <-]. apply ext_overwrite; [done|].
      eapply ext_trans; [by apply ext_tset_absent|by eapply call_ext].
    + intros [= <- <-]. apply ext_overwrite; [done|].
      eapply ext_trans; [by apply ext_tset_absent|by eapply call_ext].
  - intros [= <- <-]. apply ext_overwrite; [done|].
    eapply ext_trans; [by apply ext_tset_absent|].
    apply (ext_proxify m (Some container) _ (tset self prop Requested s)).
Qed.

Lemma proxy_get_ext fuel p k s r s' : proxy_get fuel p k s = Some (r, s') → ext s s'.
Proof.
  unfold proxy_get. destruct (proxies s !! p); [apply resolve_ext|].
  intros [= <- <-]. apply ext_refl.
Qed.

(** ** Reading the container *)

Lemma reads_ext s s' : reads s s' → ext s s'.
Proof.
  induction 1 as [s|s fuel p k r s1 s2 Hget _ IH]; [apply ext_refl|].
  eapply ext_trans; [by eapply proxy_get_ext|done].
Qed.

Lemma reads_trans s1 s2 s3 : reads s1 s2 → reads s2 s3 → reads s1 s3.
Proof. induction 1; [done|]. intros. eapply reads_step; eauto. Qed.


Lemma proxy_get_cached fuel p px k v s :
  proxies s !! p = Some px → tget s p k = Some v →
  proxy_get (S fuel) p k s = Some (replay (path_of (ppath px) k) v, s).
Proof.
  intros Hp Ht. unfold proxy_get. rewrite Hp, resolve_S. simpl. rewrite Ht.
  unfold replay. destruct v as [|v]; [done|]. by destruct (instanceofError v).
Qed.

(** A first read whose factory throws. *)
Lemma proxy_get_factory_throws fuel p px k f e s s2 :
  proxies s !! p = Some px → tin s p k = false →
  mget (modules s) (pmodule px) k = Some (MFn f) →
  call (proxy_get fuel) f (default p (pcontainer px)) (tset p k Requested s)
    = Some (Err e, s2) →
  proxy_get (S fuel) p k s
    = Some (Err e, tset p k (Stored (if instanceofError e then e else VUndef)) s2).
Proof.
  intros Hp [Ht Hin]%tin_false Hm Hc. unfold proxy_get. rewrite Hp, resolve_S. simpl.
  by rewrite Ht, Hin, Hm, Hc.
Qed.

(** A first read whose factory returns. *)
Lemma proxy_get_factory_returns fuel p px k f v s s2 :
  proxies s !! p = Some px → tin s p k = false →
  mget (modules s) (pmodule px) k = Some (MFn f) →
  call (proxy_get fuel) f (default p (pcontainer px)) (tset p k Requested s)
    = Some (Ok v, s2) →
  proxy_get (S fuel) p k s = Some (Ok v, tset p k (Stored v) s2).
Proof.
  intros Hp [Ht Hin]%tin_false Hm Hc. unfold proxy_get. rewrite Hp, resolve_S. simpl.
  by rewrite Ht, Hin, Hm, Hc.
Qed.

(** ** Cycles *)

Lemma proxy_get_requested fuel p px k s :
  proxies s !! p = Some px → tget s p k = Some Requested →
  proxy_get (S fuel) p k s
    = Some (Err (VError (cycle_message (path_of (ppath px) k)) None), s).
Proof. intros Hp Ht. by rewrite (proxy_get_cached _ _ _ _ _ _ Hp Ht). Qed.

(** C4. For [{a: (ctx) => ctx.b, b: (ctx) => ctx.a}], reading [a] throws
    the cycle error, whose message names [a] and asks to make it lazy; and
    in any store, a read that finds the property [requested] throws that
    error and leaves the store as it was. *)
Theorem cyclic_dependency_detected :
  (∃ s s', inject 1 [Examples.cyclic_pair] = Some (Ok (VProxy 0), s) ∧
     proxy_get 3 0 "a" s
       = Some (Err (VError "Cycle detected. Please make a lazy. See https://github.com/langium/ginject#cyclic-dependencies" None), s')) ∧
  (∀ fuel p px k s,
     proxies s !! p = Some px → tget s p k = Some Requested →
     proxy_get (S fuel) p k s
       = Some (Err (VError (cycle_message (path_of (ppath px) k)) None), s)).
Proof.
  split; [|apply proxy_get_requested].
  eexists _, _. split; vm_compute; reflexivity.
Qed.

Lemma cyclic_dependency_detected_witness :
  let s := mkState [[]] [mkProxy [("a", Requested)] 0 None None] [] 0 in
  proxy_get 1 0 "a" s = Some (Err (VError (cycle_message "a") None), s).
Proof.
  intros s.
  exact (proj2 cyclic_dependency_detected 0 0 (mkProxy [("a", Requested)] 0 None None)
           "a" s eq_refl eq_refl).
Defined.

(** ** Cached failures *)

(** C10. When the first invocation of a factory throws a value that is not
    an [Error], the first read throws that value, the target then holds
    [undefined], and every later read returns [undefined] and leaves the
    store (so the record of calls) as it is. *)
Theorem non_error_failure_cached_as_undefined fuel p px k f e s s2 :
  proxies s !! p = Some px → tin s p k = false →
  mget (modules s) (pmodule px) k = Some (MFn f) →
  call (proxy_get fuel) f (default p (pcontainer px)) (tset p k Requested s)
    = Some (Err e, s2) →
  instanceofError e = false →
  ∃ s', proxy_get (S fuel) p k s = Some (Err e, s') ∧
        tget s' p k = Some (Stored VUndef) ∧
        ∀ s'' fuel', reads s' s'' →
          proxy_get (S fuel') p k s'' = Some (Ok VUndef, s'').
Proof.
  intros Hp Ht Hm Hc He.
  pose proof (proxy_get_factory_throws _ _ _ _ _ _ _ _ Hp Ht Hm Hc) as Hget.
  rewrite He in Hget. eexists. split; [exact Hget|].
  assert (Hs2 : is_Some (proxies s2 !! p)).
  { apply call_ext in Hc; [|apply proxy_get_ext].
    destruct (proxies_tset p k Requested _ _ _ Hp) as (px1 & Hp1 & _).
    destruct (ext_proxies _ _ Hc _ _ Hp1) as (px2 & Hp2 & _). eauto. }
  assert (Hcell : tget (tset p k (Stored VUndef) s2) p k = Some (Stored VUndef))
    by by apply tget_tset_eq.
  split; [done|]. intros s'' fuel' Hreads. apply reads_ext in Hreads.
  pose proof (ext_frozen _ _ Hreads _ _ _ Hcell) as Hcell''.
  destruct (tget_is_Some_proxy s'' p k) as [px'' Hp'']; [eauto|].
  by rewrite (proxy_get_cached _ _ _ _ _ _ Hp'' Hcell'').
Qed.

Lemma non_error_failure_cached_as_undefined_witness :
  ∃ s s', inject 1 [Examples.throwing_string] = Some (Ok (VProxy 0), s) ∧
    proxy_get 1 0 "first" s = Some (Err (VStr "boom"), s') ∧
    proxy_get 1 0 "first" s' = Some (Ok VUndef, s') ∧
    ncalls 0 (calls s') = 1.
Proof.
  eexists _, _. split; [vm_compute; reflexivity|].
  destruct (non_error_failure_cached_as_undefined 0 0
              (mkProxy [] 1 None None) "first"
              (mkFactory 0 false (λ _, Throw (VStr "boom"))) (VStr "boom")
              (mkState [Examples.throwing_string_heap_object;
                        Examples.throwing_string_heap_object]
                       [mkProxy [] 1 None None] [] 0)
              (mkState [Examples.throwing_string_heap_object;
                        Examples.throwing_string_heap_object]
                       [mkProxy [("first", Requested)] 1 None None]
                       [(0, VProxy 0)] 0)
              eq_refl eq_refl eq_refl eq_refl eq_refl) as (s' & Hget & Hcell & Hlater).
  assert (Hs' : s' = mkState [Examples.throwing_string_heap_object;
                              Examples.throwing_string_heap_object]
                       [mkProxy [("first", Stored VUndef)] 1 None None]
                       [(0, VProxy 0)] 0).
  { vm_compute in Hget. by inversion Hget. }
  subst s'. split; [exact Hget|]. split; [|reflexivity].
  apply Hlater. apply reads_refl.
Defined.

(** C5: what the code does on the failing input. After a factory threw
    [new Error('construction error')], the second read throws an [Error]
    whose message is ["Construction failure: first"] and whose [cause] is
    not set, and the factory has been called once. *)
Theorem construction_failure_drops_cause :
  ∃ s s1 s2,
    inject 1 [Examples.failing_first] = Some (Ok (VProxy 0), s) ∧
    proxy_get 1 0 "first" s = Some (Err (VError "construction error" None), s1) ∧
    proxy_get 1 0 "first" s1
      = Some (Err (VError "Construction failure: first" None), s2) ∧
    ncalls 0 (calls s2) = 1.
Proof. eexists _, _, _. repeat split; vm_compute; reflexivity. Qed.

(** ** Paths *)

(** C9: what the code does on the failing input. For
    [{b: {c: {d: (ctx) => ctx.b.c.d}}}] the cycle error of [ctr.b.c.d] names
    [.d], and for a factory at [b.c.d] that threw an [Error] the cached
    failure names [.d] as well; neither message holds [b.c.d]. *)
Theorem nested_path_is_not_dotted :
  (∃ s s', inject 3 [Examples.nested_cycle] = Some (Ok (VProxy 0), s) ∧
     read_path 3 (VProxy 0) ["b"; "c"; "d"] s
       = Some (Err (VError (cycle_message ".d") None), s')) ∧
  (∃ s s1 s2, inject 3 [Examples.nested_failure] = Some (Ok (VProxy 0), s) ∧
     read_path 1 (VProxy 0) ["b"; "c"; "d"] s
       = Some (Err (VError "construction error" None), s1) ∧
     read_path 1 (VProxy 0) ["b"; "c"; "d"] s1
       = Some (Err (VError (failure_message ".d") None), s2)) ∧
  cycle_message ".d" ≠ cycle_message "b.c.d" ∧
  failure_message ".d" ≠ failure_message "b.c.d".
Proof.
  split; [|split; [|split]].
  - eexists _, _. split; vm_compute; reflexivity.
  - eexists _, _, _. repeat split; vm_compute; reflexivity.
  - vm_compute. discriminate.
  - vm_compute. discriminate.
Qed.

(** ** Eager factories *)

(** C3: what the code does on the failing input. For
    [{gin: eager(() => ({}))}], [inject] calls the eager wrapper (the
    function 1), and so the factory (the function 0), once and leaves the
    target of the container without the property [gin]; the first read of
    [gin] calls the factory a second time and returns the second object. *)
Theorem eager_factory_runs_again_on_read :
  ∃ s s',
    inject 1 [Examples.eager_gin] = Some (Ok (VProxy 0), s) ∧
    calls s = [(1, VProxy 0); (0, VProxy 0)] ∧ tget s 0 "gin" = None ∧
    proxy_get 1 0 "gin" s = Some (Ok (VObj 1), s') ∧
    ncalls 0 (calls s') = 2.
Proof. eexists _, _. repeat split; vm_compute; reflexivity. Qed.

(** ** Module objects are shared *)

(** C8: what the code does on the failing input. With [m1 = {a: {x}}] and
    [m2 = {a: {y}}], the group [m1.a] is the heap object 0; before
    [inject(m1, m2)] it has no key [y], afterwards it has. *)
Theorem merge_mutates_nested_group :
  ∃ h f s,
    alloc_modules [Examples.group_x; Examples.group_y] [] = ([1; 3], h) ∧
    mget h 1 "a" = Some (MObj 0) ∧
    mget h 0 "y" = None ∧
    inject 2 [Examples.group_x; Examples.group_y] = Some (Ok (VProxy 0), s) ∧
    mget (modules s) 1 "a" = Some (MObj 0) ∧
    mget (modules s) 0 "y" = Some (MFn f).
Proof. eexists _, _, _. repeat split; vm_compute; reflexivity. Qed.

(** ** The context of every factory is the root container *)

Lemma rooted_tset root p k v s : rooted root s → rooted root (tset p k v s).
Proof.
  intros [Hp Hc]. split.
  - intros q px' Hq. destruct (proxies_tset_inv _ _ _ _ _ _ Hq) as (px & Hpx & _ & Hcl & _).
    rewrite Hcl. by apply Hp.
  - by rewrite calls_tset.
Qed.

Lemma rooted_record_call root f s :
  rooted root s → rooted root (record_call f (VProxy root) s).
Proof.
  intros [Hp Hc]. split; [done|].
  intros c [Hin|(g & -> & _)]%elem_of_record_call; [auto|done].
Qed.

Lemma rooted_proxify root m path s :
  rooted root s → rooted root (proxify m (Some root) path s).2.
Proof.
  intros [Hp Hc]. split; [|done]. simpl. intros q px Hq.
  apply lookup_app_Some in Hq as [Hq|[_ Hq]]; [by apply Hp|].
  destruct (q - List.length (proxies s)) as [|n]; [|done].
  by inversion Hq.
Qed.

Section RunRooted.
Variable root : nat.
Variable get : nat → string → state → option (outcome * state).
Hypothesis get_rooted :
  ∀ p k s r s', get p k s = Some (r, s') → rooted root s → rooted root s'.

Lemma run_rooted c : ∀ s r s',
  run get c s = Some (r, s') → rooted root s → rooted root s'.
Proof.
  induction c as [v|v|o k| |c IHc k IHk|c IHc h IHh]; simpl; intros s r s'.
  - by intros [= <- <-].
  - by intros [= <- <-].
  - destruct o; simpl; try by intros [= <- <-]. apply get_rooted.
  - by intros [= <- <-].
  - destruct (run get c s) as [[[v|e] s1]|] eqn:E; [| |done].
    + intros H Hs. eapply IHk; [done|]. by eapply IHc.
    + intros [= <- <-]. by eapply IHc.
  - destruct (run get c s) as [[[v|e] s1]|] eqn:E; [| |done].
    + intros [= <- <-]. by eapply IHc.
    + intros H Hs. eapply IHh; [done|]. by eapply IHc.
Qed.

Lemma call_rooted f s r s' :
  call get f root s = Some (r, s') → rooted root s → rooted root s'.
Proof.
  unfold call. intros H Hs. eapply run_rooted; [done|]. by apply rooted_record_call.
Qed.
End RunRooted.

Lemma resolve_rooted root fuel : ∀ self prop module parentPath s r s',
  resolve fuel self prop module root parentPath s = Some (r, s') →
  rooted root s → rooted root s'.
Proof.
  induction fuel as [|fuel IH]; [done|].
  assert (Hget : ∀ p k s r s',
    proxy_get fuel p k s = Some (r, s') → rooted root s → rooted root s').
  { intros p k s r s'. unfold proxy_get.
    destruct (proxies s !! p) as [px|] eqn:Hp; [|by intros [= <- <-]].
    intros H Hs. pose proof (proj1 Hs _ _ Hp) as Hroot. rewrite Hroot in H.
    by eapply IH. }
  intros self prop module parentPath s r s'. rewrite resolve_S. simpl.
  destruct (tget s self prop) as [[|v]|] eqn:Ht.
  { by intros [= <- <-]. }
  { destruct (instanceofError v); by intros [= <- <-]. }
  destruct (inherited prop); [by intros [= <- <-]|].
  destruct (mget (modules s) module prop) as [[f|m]|]; [| |by intros [= <- <-]].
  - destruct (call _ f root _) as [[[v|e] s2]|] eqn:E; [| |done];
      intros [= <- <-] Hs; apply rooted_tset;
      (eapply call_rooted; [exact Hget|exact E|by apply rooted_tset]).
  - intros [= <- <-] Hs. apply rooted_tset.
    apply (rooted_proxify root m _ (tset self prop Requested s)).
    by apply rooted_tset.
Qed.

Lemma proxy_get_rooted root fuel p k s r s' :
  proxy_get fuel p k s = Some (r, s') → rooted root s → rooted root s'.
Proof.
  unfold proxy_get. destruct (proxies s !! p) as [px|] eqn:Hp; [|by intros [= <- <-]].
  intros H Hs. rewrite (proj1 Hs _ _ Hp) in H. by eapply resolve_rooted.
Qed.

Lemma reads_rooted root s s' : reads s s' → rooted root s → rooted root s'.
Proof.
  induction 1 as [s|s fuel p k r s1 s2 Hget _ IH]; [done|].
  intros Hs. apply IH. by eapply proxy_get_rooted.
Qed.

Lemma initializeEagerServices_rooted root fuel : ∀ module s r s',
  initializeEagerServices fuel module root s = Some (r, s') →
  rooted root s → rooted root s'.
Proof.
  induction fuel as [|fuel IH]; [done|]. intros module s r s'. simpl.
  generalize (default [] (keys <$> modules s !! module)). intros ks.
  assert (Hacc : ∀ acc, foldl (eager_key (initializeEagerServices fuel)
                                 (proxy_get fuel) module root) acc ks = Some (r, s') →
                 ∀ r0 s0, acc = Some (r0, s0) → rooted root s0 → rooted root s').
  { induction ks as [|key ks IHks]; simpl.
    - intros acc -> r0 s0 [= <- <-]. done.
    - intros acc Hfold r0 s0 -> Hs0.
      destruct (eager_key _ _ module root (Some (r0, s0)) key)
        as [[r1 s1]|] eqn:Hstep.
      + eapply IHks; [exact Hfold|done|]. revert Hstep. simpl.
        destruct r0 as [v0|e0]; [|by intros [= <- <-]].
        destruct (mget (modules s0) module key) as [[f|m]|]; [| |by intros [= <- <-]].
        * destruct (isEager f); [|by intros [= <- <-]].
          destruct (call _ f root s0) as [[[v|e] s2]|] eqn:E; [| |done];
            intros [= <- <-];
            (eapply call_rooted; [apply proxy_get_rooted|exact E|done]).
        * intros H. by eapply IH.
      + exfalso. clear -Hfold. induction ks; simpl in *; [done|auto]. }
  intros Hfold. by eapply Hacc.
Qed.

Lemma inject_rooted fuel ms r s :
  inject fuel ms = Some (r, s) →
  rooted 0 s ∧ ∀ ctr, r = Ok ctr → ctr = VProxy 0.
Proof.
  unfold inject. destruct (alloc_modules ms []) as [rs h]. unfold inject_refs. simpl.
  destruct (merge_all fuel rs h) as [[module h']|]; [|done]. simpl.
  destruct (initializeEagerServices fuel module 0 _) as [[[v|e] s2]|] eqn:E; [| |done].
  - intros [= <- <-]. split; [|by intros ctr [= <-]].
    eapply initializeEagerServices_rooted; [exact E|]. split; simpl.
    + intros [|p] px; [by intros [= <-]|done].
    + intros c Hc. by apply not_elem_of_nil in Hc.
  - intros [= <- <-]. split; [|done].
    eapply initializeEagerServices_rooted; [exact E|]. split; simpl.
    + intros [|p] px; [by intros [= <-]|done].
    + intros c Hc. by apply not_elem_of_nil in Hc.
Qed.

(** C7. Every factory invocation, during [inject] or during any later read
    and at any depth of the module tree, receives the container that
    [inject] returned. *)
Theorem factories_receive_root_container fuel ms ctr s s' :
  inject fuel ms = Some (Ok ctr, s) → reads s s' →
  ∀ id ctx, (id, ctx) ∈ calls s' → ctx = ctr.
Proof.
  intros Hinj Hreads id ctx Hin.
  destruct (inject_rooted _ _ _ _ Hinj) as [Hrooted Hctr].
  rewrite (Hctr ctr eq_refl).
  apply (reads_rooted 0) in Hreads; [|done].
  apply (proj2 Hreads (id, ctx) Hin).
Qed.

Lemma read_reads fuel o k s r s' :
  read (proxy_get fuel) o k s = Some (r, s') → reads s s'.
Proof.
  destruct o; simpl; try (intros [= <- <-]; apply reads_refl).
  intros H. eapply reads_step; [exact H|apply reads_refl].
Qed.

Lemma read_path_reads fuel π : ∀ o s r s',
  read_path fuel o π s = Some (r, s') → reads s s'.
Proof.
  induction π as [|k π IH]; simpl; intros o s r s'.
  - intros [= <- <-]. apply reads_refl.
  - destruct (read (proxy_get fuel) o k s) as [[[v|e] s1]|] eqn:E; [| |done].
    + intros H. eapply reads_trans; [by eapply read_reads|by eapply IH].
    + intros [= <- <-]. by eapply read_reads.
Qed.

Lemma factories_receive_root_container_witness :
  let s := Examples.state_of Examples.no_state (inject 3 [Examples.deep_reads_root]) in
  let s' := Examples.state_of s (read_path 2 (VProxy 0) ["g"; "h"; "deep"] s) in
  calls s' = [(1, VProxy 0); (0, VProxy 0)] ∧
  ∀ id ctx, (id, ctx) ∈ calls s' → ctx = VProxy 0.
Proof.
  intros s s'. split; [vm_compute; reflexivity|].
  apply (factories_receive_root_container 3 [Examples.deep_reads_root] (VProxy 0) s s').
  - vm_compute; reflexivity.
  - apply (read_path_reads 2 ["g"; "h"; "deep"] (VProxy 0) s (Ok (VNum 1))).
    vm_compute; reflexivity.
Defined.

(** ** Lazy factories are called at most once *)

Lemma tget_proxify m c path s p k :
  tget (proxify m c path s).2 p k = tget s p k.
Proof.
  unfold tget. simpl. destruct (proxies s !! p) as [px|] eqn:Hp.
  - by rewrite (lookup_app_l_Some _ _ _ _ Hp).
  - apply lookup_ge_None in Hp. rewrite lookup_app_r; [|done].
    by destruct (p - List.length (proxies s)).
Qed.

Lemma tget_record_call f c s p k : tget (record_call f c s) p k = tget s p k.
Proof. done. Qed.

Lemma tget_tset_is_Some s p k v p' k' :
  is_Some (tget s p' k') → is_Some (tget (tset p k v s) p' k').
Proof.
  intros Hs. destruct (decide ((p, k) = (p', k'))) as [[= <- <-]|Hne].
  - rewrite tget_tset_eq; [eauto|]. by eapply tget_is_Some_proxy.
  - by rewrite tget_tset_ne.
Qed.

Lemma tget_tset_None s p k v p' k' :
  tget (tset p k v s) p' k' = None → tget s p' k' = None.
Proof.
  intros Hn. destruct (tget s p' k') eqn:E; [|done].
  destruct (tget_tset_is_Some s p k v p' k') as [? H]; [eauto|]. congruence.
Qed.

Lemma ncalls_app id cs cs' : ncalls id (cs ++ cs') = ncalls id cs + ncalls id cs'.
Proof. unfold ncalls. by rewrite filter_app, length_app. Qed.

Lemma ncalls_cons id g (c : val) cs :
  ncalls id ((g, c) :: cs) = (if decide (g = id) then 1 else 0) + ncalls id cs.
Proof.
  unfold ncalls. rewrite (filter_cons (λ c : nat * val, c.1 = id)). simpl.
  by destruct (decide (g = id)).
Qed.

Lemma ncalls_absent id (c : val) (l : list nat) :
  id ∉ l → ncalls id ((λ g, (g, c)) <$> l) = 0.
Proof.
  induction l as [|g l IH]; [done|].
  intros [Hne Hl]%not_elem_of_cons. rewrite fmap_cons, ncalls_cons.
  rewrite decide_False by done. by apply IH.
Qed.

Lemma ncalls_record_other id f c s :
  id ∉ invoked f → ncalls id (calls (record_call f c s)) = ncalls id (calls s).
Proof.
  intros Hid. rewrite calls_record_call, ncalls_app, ncalls_absent by done. lia.
Qed.

Lemma ncalls_record_self f c s :
  fid f ∉ forwards f →
  ncalls (fid f) (calls (record_call f c s)) = S (ncalls (fid f) (calls s)).
Proof.
  intros Hid. rewrite calls_record_call, ncalls_app. unfold invoked.
  rewrite fmap_cons, ncalls_cons, decide_True by done.
  rewrite (ncalls_absent (fid f) c (forwards f) Hid). lia.
Qed.

Lemma node_at_app h r π k :
  node_at h r (π ++ [k])
    = node_at h r π ≫= λ n,
        match mget h n k with Some (MObj r') => Some r' | _ => None end.
Proof.
  revert r. induction π as [|k' π IH]; simpl; intros r.
  - by destruct (mget h r k) as [[|]|].
  - destruct (mget h r k') as [[|r']|]; [done| |done]. apply IH.
Qed.

Lemma node_at_app_inv h r π π' n :
  node_at h r (π ++ π') = Some n →
  ∃ n', node_at h r π = Some n' ∧ node_at h n' π' = Some n.
Proof.
  revert r. induction π as [|k π IH]; simpl; intros r; [eauto|].
  destruct (mget h r k) as [[|r']|]; [done| |done]. apply IH.
Qed.

Lemma tracked_path h rootm paths s p px :
  tracked h rootm paths s → proxies s !! p = Some px → is_Some (paths !! p).
Proof.
  intros Ht Hp. apply lookup_lt_is_Some. rewrite (tr_length _ _ _ _ Ht).
  by eapply lookup_lt_Some.
Qed.

Lemma tracked_proxy h rootm paths s p π :
  tracked h rootm paths s → paths !! p = Some π → is_Some (proxies s !! p).
Proof.
  intros Ht Hp. apply lookup_lt_is_Some. rewrite <- (tr_length _ _ _ _ Ht).
  by eapply lookup_lt_Some.
Qed.

Lemma tracked_value_at h rootm paths s p px π k :
  tracked h rootm paths s → proxies s !! p = Some px → paths !! p = Some π →
  value_at h rootm π k = mget h (pmodule px) k.
Proof.
  intros Ht Hp Hπ. unfold value_at. by rewrite (tr_node _ _ _ _ Ht _ _ _ Hp Hπ).
Qed.

Lemma tracked_same_path h rootm paths s p q π :
  tracked h rootm paths s → paths !! p = Some π → paths !! q = Some π → p = q.
Proof. intros Ht Hp Hq. eapply NoDup_lookup; [by eapply tr_nodup|done..]. Qed.

Lemma tracked_record_call h rootm paths f c s :
  tracked h rootm paths s → tracked h rootm paths (record_call f c s).
Proof. intros [? ? ? ? ? ?]. by split. Qed.

(** Writing a cell at a key of the module that holds a factory. *)
Lemma tracked_tset_factory h rootm paths s self px prop f c :
  tracked h rootm paths s → proxies s !! self = Some px →
  mget h (pmodule px) prop = Some (MFn f) →
  tracked h rootm paths (tset self prop c s).
Proof.
  intros Ht Hself Hm. split.
  - rewrite modules_tset. by eapply tr_modules.
  - rewrite length_proxies_tset. by eapply tr_length.
  - intros p px' π Hp Hπ.
    destruct (proxies_tset_inv _ _ _ _ _ _ Hp) as (px0 & Hp0 & Hcl & _).
    rewrite Hcl. by eapply tr_node.
  - by eapply tr_nodup.
  - intros q πq Hq. destruct (tr_parent _ _ _ _ Ht _ _ Hq) as [->|(p & π & k & -> & Hp & Hc)];
      [by left|right]. exists p, π, k. split; [done|]. split; [done|].
    by apply tget_tset_is_Some.
  - intros p px' π k m c' Hp Hπ Hmk Hc.
    destruct (proxies_tset_inv _ _ _ _ _ _ Hp) as (px0 & Hp0 & Hcl & _).
    rewrite Hcl in Hmk.
    destruct (decide ((self, prop) = (p, k))) as [[= <- <-]|Hne].
    + rewrite Hself in Hp0. inversion Hp0; subst px0. congruence.
    + rewrite tget_tset_ne in Hc; [|done]. by eapply tr_group.
Qed.

Lemma counted_record_other paths π0 k0 id f c s :
  id ∉ invoked f → counted paths π0 k0 id s → counted paths π0 k0 id (record_call f c s).
Proof.
  intros Hne [H0 H1]. split.
  - intros Hnone. rewrite ncalls_record_other by done. apply H0. exact Hnone.
  - intros p Hp Hsome. rewrite ncalls_record_other by done. by apply (H1 p).
Qed.

Lemma counted_tset_present paths π0 k0 id self prop c s :
  is_Some (tget s self prop) → counted paths π0 k0 id s →
  counted paths π0 k0 id (tset self prop c s).
Proof.
  intros Hpresent [H0 H1]. unfold counted. rewrite calls_tset. split.
  - intros Hnone. apply H0. intros p Hp. eapply tget_tset_None. by apply Hnone.
  - intros p Hp Hsome. apply (H1 p); [done|].
    destruct (decide ((self, prop) = (p, k0))) as [[= <- <-]|Hne]; [done|].
    by rewrite tget_tset_ne in Hsome.
Qed.

(** The store after a first read of a group key. *)
Lemma proxies_group_inv s self prop m c path c' p px' :
  proxies (tset self prop c'
            (proxify m c path (tset self prop Requested s)).2) !! p = Some px' →
  (∃ px, proxies s !! p = Some px ∧ same_closure px px') ∨
  (p = List.length (proxies s) ∧ pmodule px' = m).
Proof.
  intros Hp. destruct (proxies_tset_inv _ _ _ _ _ _ Hp) as (px2 & Hp2 & Hcl2).
  simpl in Hp2. apply lookup_app_Some in Hp2 as [Hp1|[Hge Hp1]].
  - left. destruct (proxies_tset_inv _ _ _ _ _ _ Hp1) as (px & Hpx & Hcl).
    exists px. split; [done|]. by eapply same_closure_trans.
  - right. rewrite length_proxies_tset in Hge, Hp1.
    destruct (p - List.length (proxies s)) as [|n] eqn:E; [|done].
    split; [lia|]. inversion Hp1; subst px2. by destruct Hcl2 as [-> _].
Qed.

Lemma tget_group s self prop m c path q p k :
  is_Some (proxies s !! self) →
  tget (tset self prop (Stored (VProxy q))
          (proxify m c path (tset self prop Requested s)).2) p k
  = if decide ((self, prop) = (p, k)) then Some (Stored (VProxy q)) else tget s p k.
Proof.
  intros [px Hself]. destruct (decide ((self, prop) = (p, k))) as [[= <- <-]|Hne].
  - apply tget_tset_eq. simpl.
    destruct (proxies_tset self prop Requested _ _ _ Hself) as (px1 & Hp1 & _).
    rewrite (lookup_app_l_Some _ _ _ _ Hp1). eauto.
  - rewrite tget_tset_ne; [|done]. rewrite tget_proxify. by rewrite tget_tset_ne.
Qed.

Lemma tracked_group h rootm paths s self px π prop m c path :
  tracked h rootm paths s → proxies s !! self = Some px → paths !! self = Some π →
  tget s self prop = None → mget h (pmodule px) prop = Some (MObj m) →
  tracked h rootm (paths ++ [π ++ [prop]])
          (tset self prop (Stored (VProxy (List.length (proxies s))))
             (proxify m c path (tset self prop Requested s)).2).
Proof.
  intros Ht Hself Hπ Hnone Hm.
  set (q := List.length (proxies s)).
  set (s3 := tset self prop (Stored (VProxy q)) _).
  assert (Hlen : List.length paths = q) by by eapply tr_length.
  assert (Hget : ∀ p k, tget s3 p k
            = if decide ((self, prop) = (p, k)) then Some (Stored (VProxy q))
              else tget s p k).
  { intros p k. apply tget_group. eauto. }
  assert (Hnew : (paths ++ [π ++ [prop]]) !! q = Some (π ++ [prop])).
  { rewrite lookup_app_r; [|lia]. by replace (q - List.length paths) with 0 by lia. }
  assert (Hold : ∀ p π', paths !! p = Some π' → (paths ++ [π ++ [prop]]) !! p = Some π').
  { intros p π' Hp. by apply lookup_app_l_Some. }
  assert (Hfresh : π ++ [prop] ∉ paths).
  { intros Hin. apply list_elem_of_lookup in Hin as [q' Hq'].
    destruct (tr_parent _ _ _ _ Ht _ _ Hq') as [Hnil|(p & π' & k & Heq & Hp & Hc)].
    - by destruct π.
    - apply app_inj_tail in Heq as [<- <-].
      rewrite (tracked_same_path _ _ _ _ _ _ _ Ht Hp Hπ) in Hc.
      rewrite Hnone in Hc. by destruct Hc. }
  assert (Hlook : ∀ p π', (paths ++ [π ++ [prop]]) !! p = Some π' →
            paths !! p = Some π' ∨ (p = q ∧ π' = π ++ [prop])).
  { intros p π' Hp. apply lookup_app_Some in Hp as [Hp|[Hge Hp]]; [by left|right].
    destruct (p - List.length paths) as [|n] eqn:E; [|done].
    inversion Hp. split; [lia|done]. }
  assert (Hqnone : ∀ k, tget s q k = None).
  { intros k. unfold tget. rewrite (lookup_ge_None_2 (proxies s) q); [done|]. unfold q. lia. }
  split.
  - unfold s3. rewrite modules_tset. simpl. rewrite modules_tset. by eapply tr_modules.
  - unfold s3. rewrite length_proxies_tset. simpl.
    rewrite !length_app, length_proxies_tset. simpl. fold q. lia.
  - intros p px' π' Hp Hπ'.
    destruct (proxies_group_inv _ _ _ _ _ _ _ _ _ Hp) as [(px0 & Hp0 & Hcl & _)|[-> Hmod]].
    + rewrite Hcl. eapply tr_node; [done..|].
      destruct (Hlook _ _ Hπ') as [?|[-> _]]; [done|].
      apply lookup_lt_Some in Hp0. unfold q in Hp0. lia.
    + fold q in Hπ'. rewrite Hnew in Hπ'. inversion Hπ'; subst π'.
      rewrite node_at_app, (tr_node _ _ _ _ Ht _ _ _ Hself Hπ). simpl.
      by rewrite Hm, Hmod.
  - apply NoDup_app. split; [by eapply tr_nodup|]. split.
    + intros x Hx Hx'. apply list_elem_of_singleton in Hx' as ->. done.
    + apply NoDup_singleton.
  - intros q' πq Hq'. destruct (Hlook _ _ Hq') as [Hq0|[-> ->]].
    + destruct (tr_parent _ _ _ _ Ht _ _ Hq0) as [->|(p & π' & k & -> & Hp & Hc)];
        [by left|right]. exists p, π', k. split; [done|]. split; [by apply Hold|].
      rewrite Hget. by destruct (decide _).
    + right. exists self, π, prop. split; [done|]. split; [by apply Hold|].
      rewrite Hget, decide_True; eauto.
  - intros p px' π' k m' c' Hp Hπ' Hmk Hc. rewrite Hget in Hc.
    destruct (decide ((self, prop) = (p, k))) as [[= <- <-]|Hne].
    + inversion Hc; subst c'. exists q. split; [done|].
      destruct (Hlook _ _ Hπ') as [Hs|[-> _]].
      * rewrite Hπ in Hs. inversion Hs; subst π'. exact Hnew.
      * apply lookup_lt_Some in Hself. unfold q in Hself. lia.
    + assert (Hpold : is_Some (proxies s !! p)).
      { eapply tget_is_Some_proxy. eauto. }
      destruct Hpold as [px0 Hp0].
      destruct (proxies_group_inv _ _ _ _ _ _ _ _ _ Hp) as [(px1 & Hp1 & Hcl & _)|[-> _]].
      * rewrite Hp0 in Hp1. inversion Hp1; subst px1. rewrite Hcl in Hmk.
        destruct (Hlook _ _ Hπ') as [Hs|[-> _]].
        -- destruct (tr_group _ _ _ _ Ht _ _ _ _ _ _ Hp0 Hs Hmk Hc) as (q' & -> & Hq').
           exists q'. split; [done|]. by apply Hold.
        -- by rewrite Hqnone in Hc.
      * by rewrite Hqnone in Hc.
Qed.

Lemma tracked_fresh h rootm paths s :
  tracked h rootm paths s →
  tracked h rootm paths (mkState (modules s) (proxies s) (calls s) (S (nextobj s))).
Proof. intros [? ? ? ? ? ?]. by split. Qed.

(** *** What every read keeps true *)

(** An invariant of the store, with the paths of the proxies, that the
    steps of [resolve] and of [initializeEagerServices] keep is kept by
    every read, with more paths for the proxies the read creates. *)
Section Preservation.
Variables (h : heap) (rootm : nat) (Inv : list (list string) → state → Prop).
Hypothesis Inv_tracked : ∀ paths s, Inv paths s → tracked h rootm paths s.
Hypothesis Inv_start : ∀ paths s self px prop f c,
  Inv paths s → proxies s !! self = Some px → tget s self prop = None →
  mget h (pmodule px) prop = Some (MFn f) →
  Inv paths (record_call f c (tset self prop Requested s)).
Hypothesis Inv_end : ∀ paths s self px prop f c,
  Inv paths s → proxies s !! self = Some px → is_Some (tget s self prop) →
  mget h (pmodule px) prop = Some (MFn f) →
  Inv paths (tset self prop c s).
Hypothesis Inv_group : ∀ paths s self px π prop m c path,
  Inv paths s → proxies s !! self = Some px → paths !! self = Some π →
  tget s self prop = None → mget h (pmodule px) prop = Some (MObj m) →
  Inv (paths ++ [π ++ [prop]])
      (tset self prop (Stored (VProxy (List.length (proxies s))))
         (proxify m c path (tset self prop Requested s)).2).
Hypothesis Inv_fresh : ∀ paths s,
  Inv paths s → Inv paths (mkState (modules s) (proxies s) (calls s) (S (nextobj s))).

Lemma inv_nil paths s : Inv paths s → ∃ l, Inv (paths ++ l) s.
Proof. intros H. exists []. by rewrite app_nil_r. Qed.

Lemma inv_app paths l s :
  (∃ l', Inv ((paths ++ l) ++ l') s) → ∃ l', Inv (paths ++ l') s.
Proof. intros [l' H]. exists (l ++ l'). by rewrite app_assoc. Qed.

Section RunInv.
Variable get : nat → string → state → option (outcome * state).
Hypothesis get_inv : ∀ p k s r s' paths,
  get p k s = Some (r, s') → Inv paths s → ∃ l, Inv (paths ++ l) s'.

Lemma run_inv c : ∀ s r s' paths,
  run get c s = Some (r, s') → Inv paths s → ∃ l, Inv (paths ++ l) s'.
Proof.
  induction c as [v|v|o k| |c IHc k IHk|c IHc hd IHh]; simpl; intros s r s' paths.
  - intros [= <- <-]. apply inv_nil.
  - intros [= <- <-]. apply inv_nil.
  - destruct o; simpl; try (intros [= <- <-]; apply inv_nil). apply get_inv.
  - intros [= <- <-] Hg. apply inv_nil. by apply Inv_fresh.
  - destruct (run get c s) as [[[v|e] s1]|] eqn:E; [| |done].
    + intros H Hg. destruct (IHc _ _ _ _ E Hg) as [l Hl].
      apply (inv_app paths l s'). by eapply IHk.
    + intros [= <- <-]. by eapply IHc.
  - destruct (run get c s) as [[[v|e] s1]|] eqn:E; [| |done].
    + intros [= <- <-]. by eapply IHc.
    + intros H Hg. destruct (IHc _ _ _ _ E Hg) as [l Hl].
      apply (inv_app paths l s'). by eapply IHh.
Qed.
End RunInv.

Lemma proxy_get_inv fuel : ∀ p k s r s' paths,
  proxy_get fuel p k s = Some (r, s') → Inv paths s → ∃ l, Inv (paths ++ l) s'.
Proof.
  induction fuel as [|fuel IH]; intros p k s r s' paths; unfold proxy_get.
  { destruct (proxies s !! p); [done|]. intros [= <- <-]. apply inv_nil. }
  destruct (proxies s !! p) as [px|] eqn:Hp; [|intros [= <- <-]; apply inv_nil].
  rewrite resolve_S. simpl.
  destruct (tget s p k) as [[|v]|] eqn:Ht.
  { intros [= <- <-]. apply inv_nil. }
  { destruct (instanceofError v); intros [= <- <-]; apply inv_nil. }
  destruct (inherited k) eqn:Hin; [intros [= <- <-]; apply inv_nil|].
  intros H Hg. pose proof (tr_modules _ _ _ _ (Inv_tracked _ _ Hg)) as Hmod.
  rewrite Hmod in H.
  destruct (mget h (pmodule px) k) as [[f|m]|] eqn:Hm; [| |].
  - assert (Hend : ∀ s2 c, call (proxy_get fuel) f (default p (pcontainer px))
                        (tset p k Requested s) = Some (c, s2) →
                      ∀ w, ∃ l, Inv (paths ++ l) (tset p k w s2)).
    { intros s2 c Hcall w.
      pose proof (call_ext _ (proxy_get_ext fuel) _ _ _ _ _ Hcall) as Hext.
      unfold call in Hcall. eapply run_inv in Hcall; [|exact IH|].
      2:{ by eapply Inv_start. }
      destruct Hcall as [l Hl]. exists l.
      destruct (proxies_tset p k Requested _ _ _ Hp) as (px1 & Hp1 & Hcl1 & _).
      destruct (ext_proxies _ _ Hext _ _ Hp1) as (px2 & Hp2 & Hcl2 & _).
      eapply Inv_end; [done|exact Hp2| |].
      - rewrite (ext_frozen _ _ Hext p k Requested); [eauto|].
        apply tget_tset_eq. eauto.
      - rewrite Hcl2, Hcl1. exact Hm. }
    destruct (call _ f _ _) as [[[v|e] s2]|] eqn:E; [| |done].
    + injection H as <- <-. by eapply Hend.
    + injection H as <- <-. by eapply Hend.
  - injection H as <- <-.
    destruct (tracked_path _ _ _ _ _ _ (Inv_tracked _ _ Hg) Hp) as [π Hπ].
    exists [π ++ [k]]. rewrite length_proxies_tset. by eapply Inv_group.
  - injection H as <- <-. by apply inv_nil.
Qed.

Lemma reads_inv s s' : reads s s' →
  ∀ paths, Inv paths s → ∃ l, Inv (paths ++ l) s'.
Proof.
  induction 1 as [s|s fuel p k r s1 s2 Hget _ IH]; intros paths Hg.
  - by apply inv_nil.
  - destruct (proxy_get_inv _ _ _ _ _ _ _ Hget Hg) as [l Hl].
    apply (inv_app paths l s2). by apply IH.
Qed.

Hypothesis Inv_eager : ∀ paths s π module key f c,
  Inv paths s → node_at h rootm π = Some module →
  mget h module key = Some (MFn f) → isEager f = true →
  Inv paths (record_call f c s).

Lemma initializeEagerServices_inv fuel : ∀ module π container s r s' paths,
  initializeEagerServices fuel module container s = Some (r, s') →
  node_at h rootm π = Some module → Inv paths s →
  ∃ l, Inv (paths ++ l) s'.
Proof.
  induction fuel as [|fuel IH]; [done|].
  intros module π container s r s' paths. simpl.
  generalize (default [] (keys <$> modules s !! module)). intros ks Hfold Hnode.
  assert (Hacc : ∀ acc, foldl (eager_key (initializeEagerServices fuel)
                                 (proxy_get fuel) module container) acc ks
                          = Some (r, s') →
                 ∀ r0 s0 paths, acc = Some (r0, s0) → Inv paths s0 →
                 ∃ l, Inv (paths ++ l) s').
  { clear Hfold. induction ks as [|key ks IHks]; simpl.
    - intros acc -> r0 s0 paths0 [= <- <-]. apply inv_nil.
    - intros acc Hfold r0 s0 paths0 -> Hg.
      destruct (eager_key _ _ module container (Some (r0, s0)) key)
        as [[r1 s1]|] eqn:Hstep.
      2:{ exfalso. clear -Hfold. induction ks; simpl in *; [done|auto]. }
      assert (Hs1 : ∃ l, Inv (paths0 ++ l) s1).
      { revert Hstep. simpl.
        destruct r0 as [v0|e0]; [|intros [= <- <-]; by apply inv_nil].
        rewrite (tr_modules _ _ _ _ (Inv_tracked _ _ Hg)).
        destruct (mget h module key) as [[f|m]|] eqn:Hm;
          [| |intros [= <- <-]; by apply inv_nil].
        - destruct (isEager f) eqn:Hf; [|intros [= <- <-]; by apply inv_nil].
          assert (Hstart : Inv paths0 (record_call f (VProxy container) s0))
            by by eapply Inv_eager.
          unfold call.
          destruct (run _ _ _) as [[[v|e] s2]|] eqn:E; [| |done];
            intros [= <- <-]; (eapply run_inv; [apply proxy_get_inv|exact E|done]).
        - intros H. eapply (IH m (π ++ [key])); [exact H| |done].
          rewrite node_at_app, Hnode. simpl. by rewrite Hm. }
      destruct Hs1 as [l Hl]. apply (inv_app paths0 l s'). by eapply IHks. }
  intros Hg. by eapply Hacc.
Qed.

(** The store [inject] returns, from what holds when the root proxy has
    been created. *)
Lemma inject_inv fuel ms r s :
  merged_module fuel ms = Some (rootm, h) →
  inject fuel ms = Some (r, s) →
  Inv [[]] (mkState h [mkProxy [] rootm None None] [] 0) →
  ∃ l, Inv ([[]] ++ l) s.
Proof.
  unfold merged_module, inject, inject_refs.
  destruct (alloc_modules ms []) as [rs h0]. simpl. intros ->. simpl.
  destruct (initializeEagerServices fuel rootm 0 _) as [[r' s2]|] eqn:E; [|done].
  intros Hr. assert (s2 = s) as <- by (destruct r'; by inversion Hr).
  apply (initializeEagerServices_inv _ _ [] _ _ _ _ [[]] E). done.
Qed.
End Preservation.

Lemma tracked_initial h rootm :
  tracked h rootm [[]] (mkState h [mkProxy [] rootm None None] [] 0).
Proof.
  split; simpl; try done.
  - intros [|p] px π; [|done]. by intros [= <-] [= <-].
  - apply NoDup_singleton.
  - intros [|q] πq; [|done]. intros [= <-]. by left.
  - intros [|p] px π k m c; [|done]. done.
Qed.

Section LazyOnce.
Variables (h : heap) (rootm : nat) (π0 : list string) (k0 : string) (f0 : Factory).
Hypothesis Hpos : value_at h rootm π0 k0 = Some (MFn f0).
Hypothesis Huniq : unique_at h rootm π0 k0 f0.

Local Abbreviation good paths s :=
  (tracked h rootm paths s ∧ counted paths π0 k0 (fid f0) s).

(** The key of another factory, or of a group, is not the tracked one. *)
Lemma other_position paths s self px π prop v :
  tracked h rootm paths s → proxies s !! self = Some px → paths !! self = Some π →
  mget h (pmodule px) prop = Some v → v ≠ MFn f0 →
  ∀ p, paths !! p = Some π0 → (self, prop) ≠ (p, k0).
Proof.
  intros Ht Hself Hπ Hm Hv p Hp [= -> ->].
  rewrite Hπ in Hp. inversion Hp; subst π.
  rewrite (tracked_value_at _ _ _ _ _ _ _ k0 Ht Hself Hπ) in Hpos. congruence.
Qed.

Lemma good_factory_start paths s self px prop f c :
  good paths s → proxies s !! self = Some px → tget s self prop = None →
  mget h (pmodule px) prop = Some (MFn f) →
  good paths (record_call f c (tset self prop Requested s)).
Proof.
  intros [Ht [H0 H1]] Hself Hnone Hm.
  destruct (tracked_path _ _ _ _ _ _ Ht Hself) as [π Hπ].
  split.
  { apply tracked_record_call. by eapply tracked_tset_factory. }
  destruct (decide (fid f0 ∈ invoked f)) as [Hfid|Hfid].
  - (* the tracked factory itself *)
    destruct (proj2 Huniq π prop f) as [-> ->]; [|done|].
    { by rewrite (tracked_value_at _ _ _ _ _ _ _ prop Ht Hself Hπ). }
    assert (f = f0) as ->.
    { rewrite (tracked_value_at _ _ _ _ _ _ _ k0 Ht Hself Hπ), Hm in Hpos.
      by injection Hpos. }
    assert (Hzero : ncalls (fid f0) (calls s) = 0).
    { apply H0. intros p Hp. by rewrite <- (tracked_same_path _ _ _ _ _ _ _ Ht Hπ Hp). }
    split.
    + intros Hn. specialize (Hn self Hπ). rewrite tget_record_call in Hn.
      rewrite tget_tset_eq in Hn; [done|eauto].
    + intros p Hp _. rewrite ncalls_record_self by apply Huniq.
      by rewrite calls_tset, Hzero.
  - apply counted_record_other; [done|].
    assert (Hother : ∀ p, paths !! p = Some π0 → (self, prop) ≠ (p, k0)).
    { eapply other_position; [done..|]. intros [= ->]. apply Hfid. by left. }
    unfold counted. rewrite calls_tset. split.
    + intros Hn. apply H0. intros p Hp. eapply tget_tset_None. by apply Hn.
    + intros p Hp Hsome. apply (H1 p); [done|].
      rewrite tget_tset_ne in Hsome; [done|by apply Hother].
Qed.

Lemma good_factory_end paths s self px prop f c :
  good paths s → proxies s !! self = Some px → is_Some (tget s self prop) →
  mget h (pmodule px) prop = Some (MFn f) →
  good paths (tset self prop c s).
Proof.
  intros [Ht Hc] Hself Hsome Hm. split.
  - by eapply tracked_tset_factory.
  - by apply counted_tset_present.
Qed.

Lemma good_group paths s self px π prop m c path :
  good paths s → proxies s !! self = Some px → paths !! self = Some π →
  tget s self prop = None → mget h (pmodule px) prop = Some (MObj m) →
  good (paths ++ [π ++ [prop]])
       (tset self prop (Stored (VProxy (List.length (proxies s))))
          (proxify m c path (tset self prop Requested s)).2).
Proof.
  intros [Ht [H0 H1]] Hself Hπ Hnone Hm. split; [by eapply tracked_group|].
  set (q := List.length (proxies s)).
  set (s3 := tset self prop (Stored (VProxy q)) _).
  assert (Hlen : List.length paths = q) by by eapply tr_length.
  assert (Hget : ∀ p k, tget s3 p k
            = if decide ((self, prop) = (p, k)) then Some (Stored (VProxy q))
              else tget s p k).
  { intros p k. apply tget_group. eauto. }
  assert (Hold : ∀ p π', paths !! p = Some π' → (paths ++ [π ++ [prop]]) !! p = Some π').
  { intros p π' Hp. by apply lookup_app_l_Some. }
  assert (Hlook : ∀ p π', (paths ++ [π ++ [prop]]) !! p = Some π' →
            paths !! p = Some π' ∨ (p = q ∧ π' = π ++ [prop])).
  { intros p π' Hp. apply lookup_app_Some in Hp as [Hp|[Hge Hp]]; [by left|right].
    destruct (p - List.length paths) as [|n] eqn:E; [|done].
    inversion Hp. split; [lia|done]. }
  assert (Hqnone : ∀ k, tget s q k = None).
  { intros k. unfold tget. rewrite (lookup_ge_None_2 (proxies s) q); [done|]. unfold q. lia. }
  split.
  - intros Hn. unfold s3. rewrite calls_tset. simpl. rewrite calls_tset.
    apply H0. intros p Hp. specialize (Hn p (Hold _ _ Hp)). rewrite Hget in Hn.
    by destruct (decide _).
  - intros p Hp Hsome. rewrite Hget in Hsome.
    unfold s3. rewrite calls_tset. simpl. rewrite calls_tset.
    destruct (Hlook _ _ Hp) as [Hp0|[-> _]].
    + apply (H1 p Hp0). destruct (decide _) as [Heq|]; [|done]. exfalso.
      eapply (other_position paths s self px π prop (MObj m)); eauto.
    + rewrite decide_False in Hsome.
      * rewrite Hqnone in Hsome. by destruct Hsome.
      * intros [= Heq _]. apply lookup_lt_Some in Hself. unfold q in Heq. lia.
Qed.

Lemma good_fresh paths s :
  good paths s →
  good paths (mkState (modules s) (proxies s) (calls s) (S (nextobj s))).
Proof. intros [[? ? ? ? ? ?] [? ?]]. by repeat split. Qed.

Lemma proxy_get_good fuel p k s r s' paths :
  proxy_get fuel p k s = Some (r, s') → good paths s → ∃ l, good (paths ++ l) s'.
Proof.
  apply (proxy_get_inv h rootm (λ paths s, good paths s)).
  - by intros ?? [? _].
  - intros. by eapply good_factory_start.
  - intros. by eapply good_factory_end.
  - intros. by eapply good_group.
  - intros. by apply good_fresh.
Qed.

Lemma reads_good s s' paths :
  reads s s' → good paths s → ∃ l, good (paths ++ l) s'.
Proof.
  intros Hreads. revert paths.
  apply (reads_inv h rootm (λ paths s, good paths s)); [| | | | |done].
  - by intros ?? [? _].
  - intros. by eapply good_factory_start.
  - intros. by eapply good_factory_end.
  - intros. by eapply good_group.
  - intros. by apply good_fresh.
Qed.

Hypothesis Hlazy : isEager f0 = false.

Lemma good_eager paths s π module key f c :
  good paths s → node_at h rootm π = Some module →
  mget h module key = Some (MFn f) → isEager f = true →
  good paths (record_call f c s).
Proof.
  intros [Ht Hc] Hnode Hm Hf. split; [by apply tracked_record_call|].
  apply counted_record_other; [|done]. intros Hfid.
  destruct (proj2 Huniq π key f) as [-> ->]; [|done|].
  { unfold value_at. by rewrite Hnode. }
  unfold value_at in Hpos. rewrite Hnode in Hpos. simpl in Hpos. congruence.
Qed.

Lemma inject_good fuel ms r s :
  merged_module fuel ms = Some (rootm, h) →
  inject fuel ms = Some (r, s) →
  ∃ l, good ([[]] ++ l) s.
Proof.
  intros Hmerged Hinj.
  apply (inject_inv h rootm (λ paths s, good paths s)) with (fuel := fuel) (ms := ms) (r := r);
    try done.
  - by intros ?? [? _].
  - intros. by eapply good_factory_start.
  - intros. by eapply good_factory_end.
  - intros. by eapply good_group.
  - intros. by apply good_fresh.
  - intros. by eapply good_eager.
  - split; [apply tracked_initial|]. split; simpl; [done|].
    intros [|p]; [|done]. intros _ [? ?]. done.
Qed.
End LazyOnce.

Lemma proxy_get_tracked h rootm fuel p k s r s' paths :
  proxy_get fuel p k s = Some (r, s') → tracked h rootm paths s →
  ∃ l, tracked h rootm (paths ++ l) s'.
Proof.
  apply (proxy_get_inv h rootm (tracked h rootm)); try done.
  - intros. apply tracked_record_call. by eapply tracked_tset_factory.
  - intros. by eapply tracked_tset_factory.
  - intros. by eapply tracked_group.
  - intros. by apply tracked_fresh.
Qed.

Lemma reads_tracked h rootm s s' paths :
  reads s s' → tracked h rootm paths s → ∃ l, tracked h rootm (paths ++ l) s'.
Proof.
  intros Hreads. revert paths.
  apply (reads_inv h rootm (tracked h rootm)); try done.
  - intros. apply tracked_record_call. by eapply tracked_tset_factory.
  - intros. by eapply tracked_tset_factory.
  - intros. by eapply tracked_group.
  - intros. by apply tracked_fresh.
Qed.

Lemma inject_tracked h rootm fuel ms r s :
  merged_module fuel ms = Some (rootm, h) → inject fuel ms = Some (r, s) →
  ∃ l, tracked h rootm ([[]] ++ l) s.
Proof.
  intros Hmerged Hinj.
  apply (inject_inv h rootm (tracked h rootm)) with (fuel := fuel) (ms := ms) (r := r);
    try done.
  - intros. apply tracked_record_call. by eapply tracked_tset_factory.
  - intros. by eapply tracked_tset_factory.
  - intros. by eapply tracked_group.
  - intros. by apply tracked_fresh.
  - intros. by apply tracked_record_call.
  - apply tracked_initial.
Qed.

(** Without an eager factory, [initializeEagerServices] does nothing. *)
Lemma no_eager_group h r k m : no_eager h r → mget h r k = Some (MObj m) → no_eager h m.
Proof.
  intros Hno Hm π k' g Hv. apply (Hno (k :: π) k' g).
  unfold value_at in *. simpl. by rewrite Hm.
Qed.

Lemma initializeEagerServices_no_eager fuel : ∀ module container s r s',
  initializeEagerServices fuel module container s = Some (r, s') →
  no_eager (modules s) module → r = Ok VUndef ∧ s' = s.
Proof.
  induction fuel as [|fuel IH]; [done|]. intros module container s r s'. simpl.
  generalize (default [] (keys <$> modules s !! module)). intros ks Hfold Hno.
  assert (Hacc : ∀ acc, foldl (eager_key (initializeEagerServices fuel)
                                 (proxy_get fuel) module container) acc ks
                          = Some (r, s') →
                 acc = Some (Ok VUndef, s) → r = Ok VUndef ∧ s' = s).
  { clear Hfold. induction ks as [|key ks IHks]; simpl.
    - by intros acc -> [= <- <-].
    - intros acc Hfold ->.
      destruct (eager_key _ _ module container (Some (Ok VUndef, s)) key)
        as [[r1 s1]|] eqn:Hstep.
      2:{ exfalso. clear -Hfold. induction ks; simpl in *; [done|auto]. }
      eapply IHks; [exact Hfold|]. revert Hstep. simpl.
      destruct (mget (modules s) module key) as [[f|m]|] eqn:Hm; [| |done].
      + rewrite (Hno [] key f); [done|]. unfold value_at. simpl. exact Hm.
      + intros E. destruct (IH _ _ _ _ _ E) as [-> ->];
          [by eapply no_eager_group|done]. }
  by eapply Hacc.
Qed.

(** What a read leaves in the target. *)
Lemma proxy_get_cell fuel p px k s r s' :
  proxy_get fuel p k s = Some (r, s') → proxies s !! p = Some px →
  is_Some (mget (modules s) (pmodule px) k) → inherited k = false →
  is_Some (tget s' p k) ∧ ∀ v, r = Ok v → tget s' p k = Some (Stored v).
Proof.
  intros Hget Hp [value Hm] Hinh. revert Hget. unfold proxy_get. rewrite Hp.
  destruct fuel as [|fuel]; [done|]. rewrite resolve_S. simpl.
  destruct (tget s p k) as [[|v]|] eqn:Ht.
  { intros [= <- <-]. rewrite Ht. split; [eauto|done]. }
  { destruct (instanceofError v); intros [= <- <-]; rewrite Ht; split; eauto.
    - done.
    - by intros ? [= <-]. }
  rewrite Hinh, Hm.
  assert (Hset : ∀ s2 c, ext (tset p k Requested s) s2 →
            tget (tset p k c s2) p k = Some c).
  { intros s2 c Hext. apply tget_tset_eq.
    destruct (proxies_tset p k Requested _ _ _ Hp) as (px1 & Hp1 & _).
    destruct (ext_proxies _ _ Hext _ _ Hp1) as (px2 & Hp2 & _). eauto. }
  destruct value as [f|m].
  - destruct (call _ f _ _) as [[[v|e] s2]|] eqn:E; [| |done];
      intros [= <- <-]; (rewrite Hset; [|by eapply call_ext, E; apply proxy_get_ext]).
    + split; [eauto|]. by intros ? [= <-].
    + split; [eauto|done].
  - intros [= <- <-]. rewrite Hset; [|apply ext_proxify].
    split; [eauto|]. by intros ? [= <-].
Qed.

Lemma chain_ext s s2 p π k v : ext s s2 → chain s p π k v → chain s2 p π k v.
Proof.
  intros Hext. revert p. induction π as [|k' π IH]; simpl; intros p.
  - by apply ext_frozen.
  - intros (q & Hq & Hc). exists q. split; [by eapply ext_frozen|auto].
Qed.

Lemma chain_read s π k v fuel : instanceofError v = false →
  ∀ p, chain s p π k v → read_path (S fuel) (VProxy p) (π ++ [k]) s = Some (Ok v, s).
Proof.
  intros Hv. induction π as [|k' π IH]; simpl; intros p.
  - intros Ht. destruct (tget_is_Some_proxy s p k) as [px Hp]; [eauto|].
    rewrite (proxy_get_cached _ _ _ _ _ _ Hp Ht). simpl. by rewrite Hv.
  - intros (q & Ht & Hc). destruct (tget_is_Some_proxy s p k') as [px Hp]; [eauto|].
    rewrite (proxy_get_cached _ _ _ _ _ _ Hp Ht). simpl. by apply IH.
Qed.

Section LazyReads.
Variables (h : heap) (rootm : nat) (π0 : list string) (k0 : string) (f0 : Factory).
Hypothesis Hpos : value_at h rootm π0 k0 = Some (MFn f0).
Hypothesis Huniq : unique_at h rootm π0 k0 f0.

Local Abbreviation good paths s :=
  (tracked h rootm paths s ∧ counted paths π0 k0 (fid f0) s).

(** A read of a group key returns the proxy of the group. *)
Lemma proxy_get_group fuel paths p px π k m s r s' :
  good paths s → paths !! p = Some π → proxies s !! p = Some px →
  mget h (pmodule px) k = Some (MObj m) → inherited k = false →
  proxy_get fuel p k s = Some (r, s') →
  ∃ q l, r = Ok (VProxy q) ∧ (paths ++ l) !! q = Some (π ++ [k]) ∧
         good (paths ++ l) s' ∧ tget s' p k = Some (Stored (VProxy q)).
Proof.
  intros Hg Hπ Hp Hm Hinh. unfold proxy_get. rewrite Hp.
  destruct fuel as [|fuel]; [done|]. rewrite resolve_S. simpl.
  destruct (tget s p k) as [c|] eqn:Ht.
  - destruct (tr_group _ _ _ _ (proj1 Hg) _ _ _ _ _ _ Hp Hπ Hm Ht) as (q & -> & Hq).
    simpl. intros [= <- <-]. exists q, []. rewrite app_nil_r. done.
  - rewrite Hinh, (tr_modules _ _ _ _ (proj1 Hg)), Hm. intros [= <- <-].
    rewrite length_proxies_tset.
    exists (List.length (proxies s)), [π ++ [k]]. split; [done|]. split; [|split].
    + rewrite lookup_app_r; rewrite (tr_length _ _ _ _ (proj1 Hg)); [|done].
      by rewrite Nat.sub_diag.
    + by eapply good_group.
    + etrans; [apply (tget_group s p k m (Some (default p (pcontainer px)))); eauto|].
      by rewrite decide_True.
Qed.

Lemma read_path_factory fuel : ∀ π' p π paths s r s',
  good paths s → paths !! p = Some π → π ++ π' = π0 →
  Forall (λ k, inherited k = false) (π' ++ [k0]) →
  read_path fuel (VProxy p) (π' ++ [k0]) s = Some (r, s') →
  ∃ l, good (paths ++ l) s' ∧
       (∃ p0, (paths ++ l) !! p0 = Some π0 ∧ is_Some (tget s' p0 k0)) ∧
       ∀ v, r = Ok v → chain s' p π' k0 v.
Proof.
  induction π' as [|k π' IH]; intros p π paths s r s' Hg Hπ Hπ0 Hnames.
  - rewrite app_nil_r in Hπ0. subst π. simpl. intros Hread.
    apply Forall_cons in Hnames as [Hk0 _].
    assert (Hget : proxy_get fuel p k0 s = Some (r, s')).
    { destruct (proxy_get fuel p k0 s) as [[[v|e] s1]|]; by inversion Hread. }
    clear Hread. destruct (tracked_proxy _ _ _ _ _ _ (proj1 Hg) Hπ) as [px Hp].
    destruct (proxy_get_good _ _ _ _ _ Hpos Huniq _ _ _ _ _ _ _ Hget Hg) as [l Hl].
    destruct (proxy_get_cell _ _ _ _ _ _ _ Hget Hp) as [Hsome Hok].
    { rewrite (tr_modules _ _ _ _ (proj1 Hg)).
      rewrite <- (tracked_value_at _ _ _ _ _ _ _ k0 (proj1 Hg) Hp Hπ), Hpos. eauto. }
    { done. }
    exists l. split; [done|]. split; [|done].
    exists p. split; [by apply lookup_app_l_Some|done].
  - simpl. intros Hread.
    change (Forall (λ k, inherited k = false) (k :: (π' ++ [k0]))) in Hnames.
    apply Forall_cons in Hnames as [Hkinh Hnames].
    destruct (tracked_proxy _ _ _ _ _ _ (proj1 Hg) Hπ) as [px Hp].
    assert (Hm : ∃ m, mget h (pmodule px) k = Some (MObj m)).
    { unfold value_at in Hpos. rewrite <- Hπ0 in Hpos.
      destruct (node_at h rootm (π ++ k :: π')) as [n|] eqn:Hn; [|done].
      apply node_at_app_inv in Hn as (n' & Hn' & Hk).
      rewrite (tr_node _ _ _ _ (proj1 Hg) _ _ _ Hp Hπ) in Hn'. inversion Hn'; subst n'.
      simpl in Hk. destruct (mget h (pmodule px) k) as [[|m]|]; [done| |done]. eauto. }
    destruct Hm as [m Hm].
    destruct (proxy_get fuel p k s) as [[r1 s1]|] eqn:Hget; [|done].
    destruct (proxy_get_group _ _ _ _ _ _ _ _ _ _ Hg Hπ Hp Hm Hkinh Hget)
      as (q & l1 & -> & Hq & Hg1 & Hcell).
    assert (Hπ1 : (π ++ [k]) ++ π' = π0) by by rewrite <- app_assoc.
    destruct (IH q (π ++ [k]) _ _ _ _ Hg1 Hq Hπ1 Hnames Hread)
      as (l2 & Hg2 & (p0 & Hp0 & Hsome) & Hchain).
    exists (l1 ++ l2). rewrite app_assoc. split; [done|]. split; [eauto|].
    intros v Hv. exists q. split; [|auto].
    eapply ext_frozen; [|exact Hcell]. eapply reads_ext, read_path_reads, Hread.
Qed.

Lemma counted_le_1 paths s : good paths s → (ncalls (fid f0) (calls s) ≤ 1)%nat.
Proof.
  intros [Ht [H0 H1]].
  destruct (decide (π0 ∈ paths)) as [Hin|Hnin].
  - apply list_elem_of_lookup in Hin as [p Hp].
    destruct (tget s p k0) as [c|] eqn:Hc.
    + rewrite (H1 p); eauto.
    + rewrite H0; [lia|]. intros p' Hp'.
      by rewrite <- (tracked_same_path _ _ _ _ _ _ _ Ht Hp Hp').
  - rewrite H0; [lia|]. intros p Hp. exfalso. apply Hnin.
    apply list_elem_of_lookup. eauto.
Qed.
End LazyReads.

Lemma inject_no_eager fuel ms rootm h r s :
  merged_module fuel ms = Some (rootm, h) → inject fuel ms = Some (r, s) →
  no_eager h rootm →
  r = Ok (VProxy 0) ∧ s = mkState h [mkProxy [] rootm None None] [] 0.
Proof.
  unfold merged_module, inject, inject_refs.
  destruct (alloc_modules ms []) as [rs h0]. simpl. intros ->. simpl.
  destruct (initializeEagerServices fuel rootm 0 _) as [[r' s2]|] eqn:E; [|done].
  intros Hr Hno. apply initializeEagerServices_no_eager in E as [-> ->]; [|done].
  by inversion Hr.
Qed.

(** ** merge and the merge rule of the specification *)

Section DictMap.
Context {A B : Type} (f : A → B).
Implicit Types (o : list (string * A)) (k : string).

Lemma lookup_key_fmap o k :
  lookup_key k (prod_map id f <$> o) = f <$> lookup_key k o.
Proof.
  induction o as [|[k' v] o IH]; simpl; [done|].
  by destruct (decide (k' = k)).
Qed.

Lemma set_key_fmap o k v :
  set_key k (f v) (prod_map id f <$> o) = prod_map id f <$> set_key k v o.
Proof.
  induction o as [|[k' w] o IH]; simpl; [done|].
  destruct (decide (k' = k)); simpl; [done|]. f_equal. apply IH.
Qed.

Lemma keys_fmap o : keys (prod_map id f <$> o) = keys o.
Proof. unfold keys. induction o as [|[k' v] o IH]; simpl; [done|]. f_equal. apply IH. Qed.
End DictMap.

Section DictSplit.
Context {A : Type}.
Implicit Types (o : list (string * A)) (k : string).

Lemma set_key_split o k v :
  lookup_key k o = Some v →
  ∃ o1 o2, o = o1 ++ (k, v) :: o2 ∧ ∀ w, set_key k w o = o1 ++ (k, w) :: o2.
Proof.
  induction o as [|[k' v'] o IH]; simpl; [done|].
  destruct (decide (k' = k)) as [->|Hne].
  - intros [= ->]. exists [], o. split; [done|]. intros w. simpl. done.
  - intros Hl. destruct (IH Hl) as (o1 & o2 & -> & Hset).
    exists ((k', v') :: o1), o2. split; [done|]. intros w. simpl. by rewrite Hset.
Qed.

Lemma set_key_absent o k w : lookup_key k o = None → set_key k w o = o ++ [(k, w)].
Proof.
  induction o as [|[k' v'] o IH]; simpl; [done|].
  destruct (decide (k' = k)); [done|]. intros Hl. by rewrite IH.
Qed.

Lemma NoDup_keys_set_key o k v : NoDup (keys o) → NoDup (keys (set_key k v o)).
Proof.
  intros Hnd. destruct (lookup_key k o) as [w|] eqn:Hl.
  - rewrite keys_set_key_present; eauto.
  - rewrite keys_set_key_absent; [|done]. apply NoDup_app. split; [done|].
    split; [|apply NoDup_singleton].
    intros x Hx Hx'. apply list_elem_of_singleton in Hx' as ->.
    by apply lookup_key_None_keys in Hl.
Qed.

Lemma lookup_key_elem_of o k v : NoDup (keys o) → (k, v) ∈ o → lookup_key k o = Some v.
Proof.
  unfold keys. induction o as [|[k' v'] o IH]; simpl.
  - intros _ H. by apply not_elem_of_nil in H.
  - intros [Hk Hnd]%NoDup_cons [Heq|Hin]%elem_of_cons.
    + inversion Heq; subst. by rewrite decide_True.
    + destruct (decide (k' = k)) as [->|]; [|auto].
      exfalso. apply Hk. apply list_elem_of_fmap. by exists (k, v).
Qed.

Lemma lookup_key_Some_elem_of o k v : lookup_key k o = Some v → (k, v) ∈ o.
Proof.
  induction o as [|[k' v'] o IH]; simpl; [done|].
  destruct (decide (k' = k)) as [->|]; [intros [= ->]; left|right; auto].
Qed.
End DictSplit.

(** Induction over a tree and the children of its groups. *)
Lemma atree_ind' (P : atree → Prop) :
  (∀ f, P (ALeaf f)) →
  (∀ r kids, Forall (λ ka, P ka.2) kids → P (ANode r kids)) →
  ∀ a, P a.
Proof.
  intros Hleaf Hnode. fix IH 1. intros [f|r kids]; [apply Hleaf|].
  apply Hnode. induction kids as [|[k a] kids IHk]; constructor; [apply IH|apply IHk].
Qed.

Lemma ModuleTree_ind' (P : ModuleTree → Prop) :
  (∀ f, P (Service f)) →
  (∀ es, Forall (λ e, P e.2) es → P (Group es)) →
  ∀ m, P m.
Proof.
  intros Hleaf Hnode. fix IH 1. intros [f|es]; [apply Hleaf|].
  apply Hnode. induction es as [|[k a] es IHk]; constructor; [apply IH|apply IHk].
Qed.

Lemma foldr_and_Forall {A : Type} (P : A → Prop) (l : list A) :
  foldr (λ x Q, P x ∧ Q) True l ↔ Forall P l.
Proof.
  induction l as [|x l IH]; simpl; [by split; [constructor|]|].
  rewrite Forall_cons. by rewrite IH.
Qed.

Lemma awf_node h r kids :
  awf h (ANode r kids) ↔
  h !! r = Some (kobj kids) ∧ NoDup (keys kids) ∧ Forall (λ ka, awf h ka.2) kids.
Proof. simpl. by rewrite (foldr_and_Forall (λ ka, awf h ka.2)). Qed.

Lemma kaddrs_app kids1 kids2 : kaddrs (kids1 ++ kids2) = kaddrs kids1 ++ kaddrs kids2.
Proof. unfold kaddrs. apply flat_map_app. Qed.

Lemma kaddrs_cons k a kids : kaddrs ((k, a) :: kids) = addrs a ++ kaddrs kids.
Proof. done. Qed.

Lemma kaddrs_elem_of kids k a r : (k, a) ∈ kids → r ∈ addrs a → r ∈ kaddrs kids.
Proof.
  intros Hin Hr. unfold kaddrs. apply list_elem_of_In, in_flat_map.
  exists (k, a). split; by apply list_elem_of_In.
Qed.

(** A tree the heap holds is still held when the objects at its addresses
    are left alone. *)
Lemma awf_stable h h' a :
  awf h a → (∀ r, r ∈ addrs a → h' !! r = h !! r) → awf h' a.
Proof.
  induction a as [f|r kids IH] using atree_ind'; [done|].
  rewrite !awf_node. intros (Hr & Hnd & Hkids) Hsame. split; [|split; [done|]].
  - rewrite Hsame; [done|]. simpl. left.
  - rewrite Forall_forall in IH, Hkids. apply Forall_forall. intros [k a] Hin.
    apply (IH (k, a) Hin); [by apply (Hkids (k, a))|].
    intros r' Hr'. apply Hsame. simpl. right. by eapply kaddrs_elem_of.
Qed.

Lemma NoDup_submseteq_down {A : Type} (l k : list A) : l ⊆+ k → NoDup k → NoDup l.
Proof.
  intros [k' Hk]%submseteq_Permutation Hnd. rewrite Hk in Hnd.
  by apply NoDup_app in Hnd as [? _].
Qed.

Lemma kaddrs_set_key_sub tk k x sv :
  addrs x ⊆+ oaddrs (lookup_key k tk) ++ addrs sv →
  kaddrs (set_key k x tk) ⊆+ kaddrs tk ++ addrs sv.
Proof.
  intros Hx. destruct (lookup_key k tk) as [tv|] eqn:Hl; simpl in Hx.
  - destruct (set_key_split _ _ _ Hl) as (o1 & o2 & -> & Hset). rewrite Hset.
    rewrite !kaddrs_app, !kaddrs_cons.
    trans (kaddrs o1 ++ (addrs tv ++ addrs sv) ++ kaddrs o2).
    + by apply submseteq_skips_l, submseteq_skips_r.
    + solve_submseteq.
  - rewrite set_key_absent; [|done]. rewrite kaddrs_app, kaddrs_cons, app_nil_r.
    by apply submseteq_skips_l.
Qed.

Lemma amerge_kids_cons tk k sv sk :
  amerge_kids tk ((k, sv) :: sk)
    = amerge_kids (set_key k (amerge_value sv (lookup_key k tk)) tk) sk.
Proof. done. Qed.

Lemma kaddrs_amerge_kids sk :
  Forall (λ ka, ∀ tv, addrs (amerge_value ka.2 tv) ⊆+ oaddrs tv ++ addrs ka.2) sk →
  ∀ tk, kaddrs (amerge_kids tk sk) ⊆+ kaddrs tk ++ kaddrs sk.
Proof.
  induction 1 as [|[k sv] sk Hsv _ IH]; intros tk.
  - unfold amerge_kids. simpl. by rewrite app_nil_r.
  - rewrite amerge_kids_cons, kaddrs_cons. etrans; [apply IH|].
    rewrite (assoc_L (++)). apply submseteq_skips_r.
    apply kaddrs_set_key_sub, Hsv.
Qed.

Lemma addrs_amerge_value sv : ∀ tv, addrs (amerge_value sv tv) ⊆+ oaddrs tv ++ addrs sv.
Proof.
  induction sv as [f|sr sk IH] using atree_ind'; intros tv.
  - destruct tv as [[|]|]; apply submseteq_nil_l.
  - destruct tv as [[f|tr tk]|]; [simpl; done|simpl|simpl; done].
    fold (amerge_kids tk sk). fold (kaddrs (amerge_kids tk sk)).
    fold (kaddrs tk). fold (kaddrs sk).
    constructor. etrans; [by apply kaddrs_amerge_kids|]. solve_submseteq.
Qed.

Lemma merge_S fuel target source h :
  merge (S fuel) target source h
    = foldl (merge_key (merge fuel) target source) (Some h)
            (default [] (keys <$> h !! source)).
Proof. done. Qed.

Lemma mset_lookup (h : heap) r o k v :
  h !! r = Some o → mset h r k v = <[r := set_key k v o]> h.
Proof. intros Hr. unfold mset. by rewrite Hr. Qed.

Lemma mget_kobj (h : heap) r kids k :
  h !! r = Some (kobj kids) → mget h r k = aval <$> lookup_key k kids.
Proof. intros Hr. unfold mget. rewrite Hr. simpl. apply lookup_key_fmap. Qed.

(** The value [merge] stores at a key, and the heap it stores it in. *)
Lemma merge_key_value fuel sr tr (h : heap) k sv tk
    (IHmerge : ∀ sr' sk' tr' tk' h,
       adepth (ANode sr' sk') ≤ fuel →
       awf h (ANode tr' tk') → awf h (ANode sr' sk') →
       NoDup (addrs (ANode tr' tk') ++ addrs (ANode sr' sk')) →
       ∃ h', merge fuel tr' sr' h = Some h' ∧ List.length h' = List.length h ∧
             awf h' (ANode tr' (amerge_kids tk' sk')) ∧
             ∀ r, r ∉ addrs (ANode tr' tk') → h' !! r = h !! r) :
  mget h sr k = Some (aval sv) → h !! tr = Some (kobj tk) →
  adepth sv ≤ fuel → awf h sv →
  (∀ tv, lookup_key k tk = Some tv → awf h tv) →
  NoDup (oaddrs (lookup_key k tk) ++ addrs sv) →
  ∃ h0, merge_key (merge fuel) tr sr (Some h) k
          = Some (mset h0 tr k (aval (amerge_value sv (lookup_key k tk)))) ∧
        List.length h0 = List.length h ∧
        awf h0 (amerge_value sv (lookup_key k tk)) ∧
        ∀ r, r ∉ oaddrs (lookup_key k tk) → h0 !! r = h !! r.
Proof.
  intros Hs Ht Hd Hsv Htv Hnd. unfold merge_key. simpl.
  rewrite Hs, (mget_kobj _ _ _ _ Ht).
  destruct sv as [f|sr' sk'].
  { exists h. simpl. destruct (lookup_key k tk) as [[|]|]; simpl; done. }
  destruct (lookup_key k tk) as [[f|tr' tk']|] eqn:Hl; simpl.
  - by exists h.
  - destruct (IHmerge sr' sk' tr' tk' h Hd (Htv _ eq_refl) Hsv Hnd)
      as (h0 & -> & Hlen & Hwf & Hframe).
    simpl. by exists h0.
  - by exists h.
Qed.

(** Storing the merged value in the object of the target. *)
Lemma awf_store (h h0 : heap) tr tk k x :
  awf h (ANode tr tk) →
  List.length h0 = List.length h →
  (∀ r, r ∉ oaddrs (lookup_key k tk) → h0 !! r = h !! r) →
  awf h0 x →
  NoDup (tr :: kaddrs tk) →
  tr ∉ addrs x →
  awf (mset h0 tr k (aval x)) (ANode tr (set_key k x tk)).
Proof.
  intros (Htr & Hkeys & Hkids)%awf_node Hlen Hframe Hx Hnd Hxtr.
  apply NoDup_cons in Hnd as [Htr_kids Hnd].
  assert (Htr0 : h0 !! tr = Some (kobj tk)).
  { rewrite Hframe; [done|]. intros Hin. apply Htr_kids.
    destruct (lookup_key k tk) as [tv|] eqn:Hl; [|by apply not_elem_of_nil in Hin].
    eapply kaddrs_elem_of; [by apply lookup_key_Some_elem_of|done]. }
  rewrite (mset_lookup _ _ _ _ _ Htr0). unfold kobj. rewrite set_key_fmap.
  fold (kobj (set_key k x tk)).
  assert (Hother : ∀ k' a, (k', a) ∈ tk → lookup_key k tk ≠ Some a ∨ k' ≠ k →
            awf (<[tr := kobj (set_key k x tk)]> h0) a).
  { intros k' a Hin Hne. rewrite Forall_forall in Hkids.
    eapply awf_stable; [by apply (Hkids (k', a))|]. intros r Hr.
    assert (r ≠ tr).
    { intros ->. apply Htr_kids. by eapply kaddrs_elem_of. }
    rewrite list_lookup_insert_ne; [|done]. apply Hframe.
    destruct (lookup_key k tk) as [tv|] eqn:Hl; [|apply not_elem_of_nil].
    simpl. intros Hrtv.
    destruct (set_key_split _ _ _ Hl) as (o1 & o2 & -> & _).
    rewrite kaddrs_app, kaddrs_cons in Hnd.
    apply NoDup_app in Hnd as (_ & Hd1 & Hnd2).
    apply NoDup_app in Hnd2 as (_ & Hd2 & _).
    apply elem_of_app in Hin as [Hin|Hin].
    - apply (Hd1 r); [by eapply kaddrs_elem_of|]. apply elem_of_app. by left.
    - apply elem_of_cons in Hin as [[= -> ->]|Hin].
      + by destruct Hne as [Hne|Hne].
      + apply (Hd2 r); [done|]. by eapply kaddrs_elem_of. }
  apply awf_node. split; [|split].
  - apply list_lookup_insert_eq. rewrite Hlen. by eapply lookup_lt_Some.
  - by apply NoDup_keys_set_key.
  - assert (Hxnew : awf (<[tr := kobj (set_key k x tk)]> h0) x).
    { eapply awf_stable; [exact Hx|]. intros r Hr.
      rewrite list_lookup_insert_ne; [done|]. by intros ->. }
    destruct (lookup_key k tk) as [tv|] eqn:Hl.
    + destruct (set_key_split _ _ _ Hl) as (o1 & o2 & -> & Hset).
      rewrite Hset in Hother, Hxnew |- *.
      apply Forall_app. split; [|apply Forall_cons; split; [exact Hxnew|]].
      * apply Forall_forall. intros [k' a] Hin.
        apply (Hother k' a); [apply elem_of_app; by left|]. right. intros ->.
        unfold keys in Hkeys. rewrite fmap_app in Hkeys.
        apply NoDup_app in Hkeys as (_ & Hd & _).
        apply (Hd k); [apply list_elem_of_fmap; by exists (k, a)|]. simpl. left.
      * apply Forall_forall. intros [k' a] Hin.
        apply (Hother k' a); [apply elem_of_app; right; by right|]. right. intros ->.
        unfold keys in Hkeys. rewrite fmap_app in Hkeys.
        apply NoDup_app in Hkeys as (_ & _ & Hd). simpl in Hd.
        apply NoDup_cons in Hd as [Hd _]. apply Hd.
        apply list_elem_of_fmap. by exists (k, a).
    + rewrite (set_key_absent _ _ x Hl) in Hother, Hxnew |- *.
      apply Forall_app. split.
      * apply Forall_forall. intros [k' a] Hin. apply (Hother k' a Hin). by left.
      * apply Forall_cons. split; [exact Hxnew|constructor].
Qed.

Lemma foldl_merge_key_None rec tr sr ks : foldl (merge_key rec tr sr) None ks = None.
Proof. by induction ks. Qed.

Section MergeLoop.
Variables (fuel sr tr : nat) (skids : list (string * atree)) (F : list nat).
Hypothesis IHmerge : ∀ sr' sk' tr' tk' (h : heap),
  adepth (ANode sr' sk') ≤ fuel →
  awf h (ANode tr' tk') → awf h (ANode sr' sk') →
  NoDup (addrs (ANode tr' tk') ++ addrs (ANode sr' sk')) →
  ∃ h', merge fuel tr' sr' h = Some h' ∧ List.length h' = List.length h ∧
        awf h' (ANode tr' (amerge_kids tk' sk')) ∧
        ∀ r, r ∉ addrs (ANode tr' tk') → h' !! r = h !! r.
Hypothesis Hkeys : NoDup (keys skids).
Hypothesis HF : tr ∈ F.

Lemma merge_loop : ∀ todo tk (h : heap),
  h !! sr = Some (kobj skids) →
  (∀ k sv, (k, sv) ∈ todo → (k, sv) ∈ skids) →
  NoDup (keys todo) →
  Forall (λ ka, adepth ka.2 ≤ fuel) todo →
  awf h (ANode tr tk) →
  Forall (λ ka, awf h ka.2) todo →
  NoDup (sr :: tr :: kaddrs tk ++ kaddrs todo) →
  (∀ k tv, k ∈ keys todo → lookup_key k tk = Some tv → ∀ r, r ∈ addrs tv → r ∈ F) →
  ∃ h', foldl (merge_key (merge fuel) tr sr) (Some h) (keys todo) = Some h' ∧
        List.length h' = List.length h ∧
        awf h' (ANode tr (amerge_kids tk todo)) ∧
        ∀ r, r ∉ F → h' !! r = h !! r.
Proof.
  induction todo as [|[k sv] todo IH]; intros tk h Hsr Hsub Hnk Hdepth Ht Htodo Hnd HFk.
  { exists h. split; [done|]. split; [done|]. split; [exact Ht|done]. }
  apply Forall_cons in Hdepth as [Hd Hdepth]. apply Forall_cons in Htodo as [Hsv Htodo].
  simpl in Hd, Hsv. unfold keys in Hnk. simpl in Hnk.
  apply NoDup_cons in Hnk as [Hk Hnk].
  pose proof Ht as (Htr & Htkeys & Htkids)%awf_node.
  apply NoDup_cons in Hnd as [Hsr_notin Hnd].
  pose proof Hnd as [Htr_notin Hnd']%NoDup_cons.
  rewrite kaddrs_cons in Hnd', Htr_notin, Hsr_notin.
  assert (Htvsub : ∀ tv, lookup_key k tk = Some tv → addrs tv ⊆+ kaddrs tk).
  { intros tv Hl. destruct (set_key_split _ _ _ Hl) as (o1 & o2 & -> & _).
    rewrite kaddrs_app, kaddrs_cons. solve_submseteq. }
  assert (Hosub : oaddrs (lookup_key k tk) ⊆+ kaddrs tk).
  { destruct (lookup_key k tk) as [tv|]; [by apply Htvsub|apply submseteq_nil_l]. }
  destruct (merge_key_value fuel sr tr h k sv tk IHmerge) as (h0 & Hstep & Hlen0 & Hx & Hframe0).
  { rewrite (mget_kobj _ _ _ _ Hsr).
    rewrite (lookup_key_elem_of skids k sv Hkeys); [done|]. apply Hsub. left. }
  { done. } { done. } { done. }
  { intros tv Hl. rewrite Forall_forall in Htkids.
    by apply (Htkids (k, tv)), lookup_key_Some_elem_of. }
  { eapply NoDup_submseteq_down; [|exact Hnd'].
    trans (kaddrs tk ++ addrs sv); [by apply submseteq_skips_r|]. solve_submseteq. }
  set (x := amerge_value sv (lookup_key k tk)) in *.
  assert (Hxsub : addrs x ⊆+ kaddrs tk ++ addrs sv).
  { etrans; [apply addrs_amerge_value|]. by apply submseteq_skips_r. }
  assert (Hnotin : ∀ r, r ∈ kaddrs tk ++ addrs sv → r ≠ tr ∧ r ≠ sr).
  { intros r Hr. split; intros ->.
    - apply Htr_notin. apply elem_of_app in Hr as [?|?]; apply elem_of_app; [by left|].
      right. apply elem_of_app. by left.
    - apply Hsr_notin. right. apply elem_of_app in Hr as [?|?]; apply elem_of_app; [by left|].
      right. apply elem_of_app. by left. }
  assert (Hstore : awf (mset h0 tr k (aval x)) (ANode tr (set_key k x tk))).
  { eapply awf_store; [exact Ht|done|done|done| |].
    - apply NoDup_cons. split.
      + intros Hin. apply Htr_notin. apply elem_of_app. by left.
      + by apply NoDup_app in Hnd' as [? _].
    - intros Hin. eapply elem_of_submseteq in Hin; [|exact Hxsub].
      by destruct (Hnotin _ Hin). }
  assert (Htr0 : h0 !! tr = Some (kobj tk)).
  { rewrite Hframe0; [done|]. intros Hin. eapply elem_of_submseteq in Hin; [|exact Hosub].
    apply Htr_notin. apply elem_of_app. by left. }
  assert (Hsame : ∀ r, r ≠ tr → r ∉ oaddrs (lookup_key k tk) →
            mset h0 tr k (aval x) !! r = h !! r).
  { intros r Hr Hro. rewrite (mset_lookup _ _ _ _ _ Htr0).
    rewrite list_lookup_insert_ne; [|done]. by apply Hframe0. }
  destruct (IH (set_key k x tk) (mset h0 tr k (aval x))) as (h' & Hfold & Hlen & Hwf & Hframe).
  - rewrite Hsame; [done| |].
    + intros ->. apply Hsr_notin. left.
    + intros Hin. eapply elem_of_submseteq in Hin; [|exact Hosub].
      apply Hsr_notin. right. apply elem_of_app. by left.
  - intros k' sv' Hin. apply Hsub. by right.
  - done.
  - done.
  - done.
  - apply Forall_forall. intros [k' a] Hin. rewrite Forall_forall in Htodo.
    eapply awf_stable; [by apply (Htodo (k', a))|]. intros r Hr. simpl in Hr.
    assert (Hrt : r ∈ kaddrs todo) by by eapply kaddrs_elem_of.
    apply Hsame.
    + intros ->. apply Htr_notin. apply elem_of_app. right. apply elem_of_app. by right.
    + intros Hro. eapply elem_of_submseteq in Hro; [|exact Hosub].
      apply NoDup_app in Hnd' as (_ & Hdisj & _). apply (Hdisj r Hro).
      apply elem_of_app. by right.
  - eapply NoDup_submseteq_down;
      [|exact (proj2 (NoDup_cons _ _) (conj Hsr_notin Hnd))].
    rewrite ?kaddrs_cons. do 2 constructor.
    trans ((kaddrs tk ++ addrs sv) ++ kaddrs todo);
      [|solve_submseteq].
    apply submseteq_skips_r. by apply kaddrs_set_key_sub, addrs_amerge_value.
  - intros k' tv Hk' Hl. apply (HFk k' tv); [by right|].
    rewrite lookup_set_key_ne in Hl; [done|]. intros ->. done.
  - exists h'. split; [|split; [|split]].
    + change (foldl (merge_key (merge fuel) tr sr)
                (merge_key (merge fuel) tr sr (Some h) k) (keys todo) = Some h').
      rewrite Hstep. exact Hfold.
    + rewrite Hlen. unfold mset. destruct (h0 !! tr); [|done].
      by rewrite length_insert.
    + by rewrite amerge_kids_cons.
    + intros r Hr. rewrite Hframe; [|done]. apply Hsame.
      * by intros ->.
      * intros Hin. apply Hr.
        destruct (lookup_key k tk) as [tv|] eqn:Hl; [|by apply not_elem_of_nil in Hin].
        apply (HFk k tv); [left|done..].
Qed.
End MergeLoop.

Lemma adepth_kids r kids fuel :
  adepth (ANode r kids) ≤ S fuel → Forall (λ ka, adepth ka.2 ≤ fuel) kids.
Proof.
  simpl. intros H. apply le_S_n in H. revert H.
  induction kids as [|[k a] kids IH]; simpl; [constructor|].
  intros H. constructor; [simpl; lia|]. apply IH. lia.
Qed.

(** [merge] on a target and a source that lie apart in the heap: it
    returns, and the target then holds the merged tree; objects outside
    the target are left alone. *)
Lemma merge_correct fuel : ∀ sr sk tr tk (h : heap),
  adepth (ANode sr sk) ≤ fuel →
  awf h (ANode tr tk) → awf h (ANode sr sk) →
  NoDup (addrs (ANode tr tk) ++ addrs (ANode sr sk)) →
  ∃ h', merge fuel tr sr h = Some h' ∧ List.length h' = List.length h ∧
        awf h' (ANode tr (amerge_kids tk sk)) ∧
        ∀ r, r ∉ addrs (ANode tr tk) → h' !! r = h !! r.
Proof.
  induction fuel as [|fuel IH]; intros sr sk tr tk h Hd Ht Hs Hnd.
  { simpl in Hd. lia. }
  pose proof Hs as (Hsr & Hkeys & Hkids)%awf_node.
  rewrite merge_S, Hsr. simpl. unfold kobj at 1. rewrite keys_fmap.
  apply (merge_loop fuel sr tr sk (addrs (ANode tr tk)) IH Hkeys); try done.
  - simpl. left.
  - by eapply adepth_kids.
  - simpl in Hnd. fold (kaddrs tk) in Hnd. fold (kaddrs sk) in Hnd.
    assert (Hperm : sr :: tr :: kaddrs tk ++ kaddrs sk
                      ≡ₚ tr :: kaddrs tk ++ sr :: kaddrs sk) by solve_Permutation.
    by rewrite Hperm.
  - intros k tv _ Hl r Hr. simpl. right. fold (kaddrs tk).
    eapply kaddrs_elem_of; [by apply lookup_key_Some_elem_of|done].
Qed.

Lemma merge_spec_cons t k sv s :
  merge_spec t ((k, sv) :: s)
    = merge_spec (set_key k (merge_value sv (lookup_key k t)) t) s.
Proof. done. Qed.

(** The merged tree stands for the module the specification's rule gives. *)
Lemma erase_amerge_kids sk :
  Forall (λ ka, ∀ tv, erase (amerge_value ka.2 tv)
                      = merge_value (erase ka.2) (erase <$> tv)) sk →
  ∀ tk, prod_map id erase <$> amerge_kids tk sk
        = merge_spec (prod_map id erase <$> tk) (prod_map id erase <$> sk).
Proof.
  induction 1 as [|[k sv] sk Hsv _ IH]; intros tk; [done|].
  rewrite amerge_kids_cons, IH. simpl in Hsv.
  change (prod_map id erase <$> (k, sv) :: sk)
    with ((k, erase sv) :: (prod_map id erase <$> sk)).
  rewrite merge_spec_cons, <- set_key_fmap, Hsv. by rewrite lookup_key_fmap.
Qed.

Lemma erase_amerge_value sv :
  ∀ tv, erase (amerge_value sv tv) = merge_value (erase sv) (erase <$> tv).
Proof.
  induction sv as [f|sr sk IH] using atree_ind'; intros tv; [by destruct tv as [[|]|]|].
  destruct tv as [[f|tr tk]|]; [done| |done]. simpl.
  fold (amerge_kids tk sk). rewrite (erase_amerge_kids sk IH). done.
Qed.

Lemma lookup_merge_spec s : ∀ t k,
  NoDup (keys s) →
  lookup_key k (merge_spec t s)
    = match lookup_key k s with
      | Some sv => Some (merge_value sv (lookup_key k t))
      | None => lookup_key k t
      end.
Proof.
  induction s as [|[k1 sv1] s IH]; intros t k Hnd; [done|].
  unfold keys in Hnd. simpl in Hnd. apply NoDup_cons in Hnd as [Hk1 Hnd].
  rewrite merge_spec_cons, IH; [|done]. simpl.
  destruct (decide (k1 = k)) as [->|Hne].
  - assert (lookup_key k s = None) as -> by by apply lookup_key_None_keys.
    apply lookup_set_key_eq.
  - by rewrite lookup_set_key_ne.
Qed.

Lemma awf_repr h a : awf h a → repr h (erase a) (aval a).
Proof.
  induction a as [f|r kids IH] using atree_ind'; [done|].
  intros (Hr & Hkeys & Hkids)%awf_node. simpl.
  exists r, (kobj kids). split; [done|]. split; [done|]. split.
  { unfold kobj. by rewrite !keys_fmap. }
  apply (foldr_and_Forall (λ e, ∃ v', lookup_key e.1 (kobj kids) = Some v' ∧ repr h e.2 v')).
  apply Forall_fmap, Forall_forall. intros [k a] Hin. simpl.
  rewrite Forall_forall in IH, Hkids.
  exists (aval a). split; [|by apply (IH (k, a) Hin), (Hkids (k, a))].
  unfold kobj. rewrite lookup_key_fmap, (lookup_key_elem_of kids k a); done.
Qed.

(** ** Object literals in the heap *)

Lemma elem_of_set_key {A : Type} (o : list (string * A)) k v e :
  e ∈ set_key k v o → e = (k, v) ∨ e ∈ o.
Proof.
  induction o as [|[k' w] o IH]; simpl.
  - intros ->%list_elem_of_singleton. by left.
  - destruct (decide (k' = k)) as [->|Hne].
    + intros [->|Hin]%elem_of_cons; [by left|right; by right].
    + intros [->|Hin]%elem_of_cons; [right; left|].
      destruct (IH Hin) as [->|?]; [by left|right; by right].
Qed.

Lemma awf_addrs_lt (h : heap) a : awf h a → ∀ r, r ∈ addrs a → r < List.length h.
Proof.
  induction a as [f|r0 kids IH] using atree_ind'; simpl.
  - intros _ r Hr. by apply not_elem_of_nil in Hr.
  - fold (kaddrs kids). intros (Hr0 & _ & Hkids) r [->|Hr]%elem_of_cons.
    + by eapply lookup_lt_Some.
    + apply (foldr_and_Forall (λ ka, awf h ka.2)) in Hkids.
      unfold kaddrs in Hr. apply list_elem_of_In, in_flat_map in Hr as ([k a] & Hin & Hr).
      apply list_elem_of_In in Hin, Hr. rewrite Forall_forall in IH, Hkids.
      apply (IH (k, a) Hin); [by apply (Hkids (k, a))|done].
Qed.

Lemma awf_prefix (h e : heap) a : awf h a → awf (h ++ e) a.
Proof.
  intros Ha. eapply awf_stable; [exact Ha|]. intros r Hr.
  apply lookup_app_l. by eapply awf_addrs_lt.
Qed.

Lemma kdepth_set_key kids k a : kdepth (set_key k a kids) ≤ kdepth kids `max` adepth a.
Proof.
  induction kids as [|[k' a'] kids IH]; simpl; [lia|].
  destruct (decide (k' = k)); simpl; fold (kdepth kids) in *;
    fold (kdepth (set_key k a kids)) in *; lia.
Qed.

Lemma alloc_entries_correct (h : heap) es :
  Forall (λ e, ∀ h1 : heap, ∃ a ext,
            alloc e.2 h1 = (aval a, h1 ++ ext) ∧ awf (h1 ++ ext) a ∧
            erase a = norm e.2 ∧ NoDup (addrs a) ∧
            (∀ r, r ∈ addrs a → List.length h1 ≤ r) ∧ adepth a ≤ depth e.2) es →
  ∀ kids ext1, literal_inv h kids (h ++ ext1) →
  ∃ kids' ext2,
    foldl (alloc_entry alloc) (kobj kids, h ++ ext1) es = (kobj kids', h ++ ext2) ∧
    literal_inv h kids' (h ++ ext2) ∧
    prod_map id erase <$> kids'
      = foldl (λ o e, set_key e.1 (norm e.2) o) (prod_map id erase <$> kids) es ∧
    kdepth kids' ≤ kdepth kids `max` edepth es.
Proof.
  induction 1 as [|[k m] es Hm _ IH]; intros kids ext1 Hinv.
  { exists kids, ext1. simpl. repeat split; try apply Hinv. lia. }
  destruct (Hm (h ++ ext1)) as (a & e & Halloc & Ha & Herase & Hnd & Hlow & Hdepth).
  simpl in Halloc, Herase, Hdepth.
  destruct Hinv as (Hkids & Hkeys & Hkaddrs & Hklow).
  assert (Hsub : kaddrs (set_key k a kids) ⊆+ kaddrs kids ++ addrs a).
  { apply kaddrs_set_key_sub. apply submseteq_inserts_l. done. }
  assert (Hlt : ∀ r, r ∈ kaddrs kids → r < List.length (h ++ ext1)).
  { intros r Hr. unfold kaddrs in Hr.
    apply list_elem_of_In, in_flat_map in Hr as ([k' a'] & Hin & Hr).
    apply list_elem_of_In in Hin, Hr. rewrite Forall_forall in Hkids.
    eapply awf_addrs_lt; [by apply (Hkids (k', a'))|done]. }
  destruct (IH (set_key k a kids) (ext1 ++ e)) as (kids' & ext2 & Hfold & Hinv' & Her & Hd).
  { rewrite (assoc_L (++)). split; [|split; [|split]].
    - apply Forall_forall. intros [k' a'] [[= -> ->]|Hin]%elem_of_set_key; [done|].
      simpl. apply awf_prefix. rewrite Forall_forall in Hkids. by apply (Hkids (k', a')).
    - by apply NoDup_keys_set_key.
    - eapply NoDup_submseteq_down; [exact Hsub|]. apply NoDup_app. split; [done|].
      split; [|done]. intros r Hr Hr'. apply Hlt in Hr. apply Hlow in Hr'. lia.
    - intros r Hr. eapply elem_of_submseteq in Hr; [|exact Hsub].
      apply elem_of_app in Hr as [Hr|Hr]; [by apply Hklow|].
      apply Hlow in Hr. rewrite length_app in Hr. lia. }
  exists kids', ext2. split; [|split; [done|split]].
  - simpl. unfold alloc_entry at 2. simpl. rewrite Halloc.
    unfold kobj at 1. rewrite (set_key_fmap aval). fold (kobj (set_key k a kids)).
    by rewrite <- (assoc_L (++)).
  - rewrite Her. simpl. by rewrite <- set_key_fmap, Herase.
  - etrans; [exact Hd|]. pose proof (kdepth_set_key kids k a). simpl.
    fold (edepth es). lia.
Qed.

Lemma alloc_correct m : ∀ h : heap, ∃ a ext,
  alloc m h = (aval a, h ++ ext) ∧ awf (h ++ ext) a ∧ erase a = norm m ∧
  NoDup (addrs a) ∧ (∀ r, r ∈ addrs a → List.length h ≤ r) ∧ adepth a ≤ depth m.
Proof.
  induction m as [f|es IH] using ModuleTree_ind'; intros h.
  { exists (ALeaf f), []. simpl. rewrite app_nil_r. repeat split; try done.
    - apply NoDup_nil_2.
    - intros r Hr. by apply not_elem_of_nil in Hr. }
  destruct (alloc_entries_correct h es IH [] []) as (kids & ext & Hfold & Hinv & Her & Hd).
  { rewrite app_nil_r. repeat split; try constructor.
    intros r Hr. by apply not_elem_of_nil in Hr. }
  destruct Hinv as (Hkids & Hkeys & Hkaddrs & Hklow).
  rewrite app_nil_r in Hfold.
  assert (Hlt : ∀ r, r ∈ kaddrs kids → r < List.length (h ++ ext)).
  { intros r Hr. unfold kaddrs in Hr.
    apply list_elem_of_In, in_flat_map in Hr as ([k' a'] & Hin & Hr).
    apply list_elem_of_In in Hin, Hr. rewrite Forall_forall in Hkids.
    eapply awf_addrs_lt; [by apply (Hkids (k', a'))|done]. }
  exists (ANode (List.length (h ++ ext)) kids), (ext ++ [kobj kids]).
  split; [|split; [|split; [|split; [|split]]]].
  - simpl. change (foldl (alloc_entry alloc) ([], h) es)
      with (foldl (alloc_entry alloc) (kobj [], h) es).
    rewrite Hfold. by rewrite (assoc_L (++)).
  - apply awf_node. rewrite (assoc_L (++)). split; [|split; [done|]].
    + rewrite lookup_app_r; [|done]. by rewrite Nat.sub_diag.
    + eapply Forall_impl; [exact Hkids|]. intros [k a] Ha. by apply awf_prefix.
  - simpl. by rewrite Her.
  - simpl. fold (kaddrs kids). apply NoDup_cons. split; [|done].
    intros Hin. apply Hlt in Hin. lia.
  - simpl. fold (kaddrs kids). intros r [->|Hr]%elem_of_cons.
    + rewrite length_app. lia.
    + by apply Hklow.
  - simpl. fold (kdepth kids). fold (edepth es). simpl in Hd. lia.
Qed.

Lemma alloc_module_correct es (h : heap) : ∃ r kids ext,
  alloc_module es h = (r, h ++ ext) ∧ awf (h ++ ext) (ANode r kids) ∧
  prod_map id erase <$> kids = norm_entries es ∧
  NoDup (addrs (ANode r kids)) ∧
  (∀ x, x ∈ addrs (ANode r kids) → List.length h ≤ x) ∧
  adepth (ANode r kids) ≤ depth (Group es).
Proof.
  destruct (alloc_correct (Group es) h) as (a & ext & Halloc & Ha & Her & Hnd & Hlow & Hd).
  destruct a as [f|r kids]; [done|].
  exists r, kids, ext. unfold alloc_module. rewrite Halloc.
  split; [done|]. split; [exact Ha|]. split; [|by split].
  simpl in Her. by inversion Her.
Qed.

Lemma taddrs_elem_of trees r kids x :
  (r, kids) ∈ trees → x ∈ addrs (ANode r kids) → x ∈ taddrs trees.
Proof.
  intros Hin Hx. unfold taddrs. apply list_elem_of_In, in_flat_map.
  exists (r, kids). split; by apply list_elem_of_In.
Qed.

Lemma taddrs_cons r kids trees :
  taddrs ((r, kids) :: trees) = (r :: kaddrs kids) ++ taddrs trees.
Proof. done. Qed.

Lemma taddrs_lt (h : heap) trees :
  Forall (λ t, awf h (ANode t.1 t.2)) trees → ∀ x, x ∈ taddrs trees → x < List.length h.
Proof.
  intros Hall x Hx. unfold taddrs in Hx.
  apply list_elem_of_In, in_flat_map in Hx as ([r kids] & Hin & Hx).
  apply list_elem_of_In in Hin, Hx. rewrite Forall_forall in Hall.
  eapply awf_addrs_lt; [by apply (Hall (r, kids))|done].
Qed.

Lemma alloc_modules_correct fuel ms :
  Forall (λ m, depth (Group m) ≤ fuel) ms →
  ∀ h : heap, ∃ trees ext,
    alloc_modules ms h = (trees.*1, h ++ ext) ∧
    Forall (λ t, awf (h ++ ext) (ANode t.1 t.2)) trees ∧
    NoDup (taddrs trees) ∧ (∀ x, x ∈ taddrs trees → List.length h ≤ x) ∧
    (λ t, prod_map id erase <$> t.2) <$> trees = norm_entries <$> ms ∧
    Forall (λ t, adepth (ANode t.1 t.2) ≤ fuel) trees.
Proof.
  induction 1 as [|m ms Hm _ IH]; intros h.
  { exists [], []. simpl. rewrite app_nil_r. repeat split; try constructor.
    intros x Hx. by apply not_elem_of_nil in Hx. }
  destruct (alloc_module_correct m h) as (r & kids & e1 & Halloc & Ha & Her & Hnd & Hlow & Hd).
  destruct (IH (h ++ e1)) as (trees & e2 & Hallocs & Hall & Hnds & Hlows & Hers & Hds).
  exists ((r, kids) :: trees), (e1 ++ e2).
  split. { simpl. rewrite Halloc, Hallocs. by rewrite (assoc_L (++)). }
  rewrite (assoc_L (++)). split; [|split; [|split; [|split]]].
  - constructor; [|done]. exact (awf_prefix (h ++ e1) e2 (ANode r kids) Ha).
  - rewrite taddrs_cons. apply NoDup_app. split; [done|]. split; [|done].
    intros x Hx Hx'. apply Hlows in Hx'.
    apply (awf_addrs_lt _ _ Ha) in Hx. lia.
  - rewrite taddrs_cons. intros x [Hx|Hx]%elem_of_app.
    + by apply Hlow.
    + apply Hlows in Hx. rewrite length_app in Hx. lia.
  - rewrite !fmap_cons. simpl. by rewrite Her, Hers.
  - constructor; [simpl in *; lia|done].
Qed.

Lemma merge_all_fold fuel acc : ∀ trees tk (h : heap),
  awf h (ANode acc tk) →
  Forall (λ t, awf h (ANode t.1 t.2)) trees →
  NoDup (acc :: kaddrs tk ++ taddrs trees) →
  Forall (λ t, adepth (ANode t.1 t.2) ≤ fuel) trees →
  ∃ h', foldl (λ (a : option heap) m, h ← a; merge fuel acc m h) (Some h) trees.*1
          = Some h' ∧
        awf h' (ANode acc (foldl amerge_kids tk trees.*2)).
Proof.
  induction trees as [|[r kids] trees IH]; intros tk h Ht Hall Hnd Hd.
  { by exists h. }
  apply Forall_cons in Hall as [Hs Hall]. apply Forall_cons in Hd as [Hds Hd].
  simpl in Hs, Hds. rewrite taddrs_cons in Hnd.
  destruct (merge_correct fuel r kids acc tk h Hds Ht Hs) as (h1 & Hm & Hlen & Hwf & Hframe).
  { simpl. fold (kaddrs tk). fold (kaddrs kids).
    eapply NoDup_submseteq_down; [|exact Hnd]. solve_submseteq. }
  destruct (IH (amerge_kids tk kids) h1) as (h' & Hfold & Hwf').
  - done.
  - apply Forall_forall. intros [r' kids'] Hin. rewrite Forall_forall in Hall.
    eapply awf_stable; [by apply (Hall (r', kids'))|]. intros x Hx. apply Hframe.
    simpl in Hx |- *. fold (kaddrs tk).
    assert (Hxt : x ∈ taddrs trees) by by eapply taddrs_elem_of.
    intros Hxa.
    assert (Hnd2 : NoDup ((acc :: kaddrs tk) ++ taddrs trees)).
    { eapply NoDup_submseteq_down; [|exact Hnd]. solve_submseteq. }
    apply NoDup_app in Hnd2 as (_ & Hdisj & _). by apply (Hdisj x).
  - eapply NoDup_submseteq_down; [|exact Hnd]. constructor.
    trans ((kaddrs tk ++ kaddrs kids) ++ taddrs trees); [|solve_submseteq].
    apply submseteq_skips_r, kaddrs_amerge_kids.
    apply Forall_forall. intros ? _. apply addrs_amerge_value.
  - done.
  - exists h'. split; [|done]. simpl. by rewrite Hm.
Qed.

Lemma erase_merge_all (trees : list (nat * list (string * atree))) :
  ∀ tk : list (string * atree),
  prod_map id erase <$> foldl amerge_kids tk trees.*2
    = foldl merge_spec (prod_map id erase <$> tk)
            ((λ t : nat * list (string * atree), prod_map id erase <$> t.2) <$> trees).
Proof.
  induction trees as [|[r kids] trees IH]; intros tk; [done|].
  simpl. rewrite IH. f_equal. apply erase_amerge_kids.
  apply Forall_forall. intros ? _. apply erase_amerge_value.
Qed.

(** The module [inject] merges its arguments to, as a tree in the heap. *)
Lemma merged_module_awf fuel ms :
  Forall (λ m, depth (Group m) ≤ fuel) ms →
  ∃ rootm h kids, merged_module fuel ms = Some (rootm, h) ∧
    awf h (ANode rootm kids) ∧
    prod_map id erase <$> kids = merge_all_spec (norm_entries <$> ms).
Proof.
  intros Hd. destruct (alloc_modules_correct fuel ms Hd [])
    as (trees & ext & Halloc & Hall & Hnd & _ & Her & Hds).
  simpl in Halloc, Hall. unfold merged_module. rewrite Halloc. unfold merge_all.
  destruct (merge_all_fold fuel (List.length ext) trees [] (ext ++ [[]]))
    as (h' & Hfold & Hwf).
  - apply awf_node. split; [|split; constructor].
    rewrite lookup_app_r; [|done]. by rewrite Nat.sub_diag.
  - eapply Forall_impl; [exact Hall|]. intros [r kids] Ha. by apply awf_prefix.
  - simpl. apply NoDup_cons. split; [|done]. intros Hin.
    apply (taddrs_lt _ _ Hall) in Hin. lia.
  - done.
  - exists (List.length ext), h', (foldl amerge_kids [] trees.*2).
    rewrite Hfold. simpl. split; [done|]. split; [done|].
    by rewrite erase_merge_all, Her.
Qed.

(** The module [inject] merges its arguments to. *)
Lemma merged_module_correct fuel ms :
  Forall (λ m, depth (Group m) ≤ fuel) ms →
  ∃ rootm h, merged_module fuel ms = Some (rootm, h) ∧
             repr h (Group (merge_all_spec (norm_entries <$> ms))) (MObj rootm).
Proof.
  intros Hd. destruct (merged_module_awf fuel ms Hd) as (rootm & h & kids & Hm & Hwf & Her).
  exists rootm, h. split; [done|].
  apply awf_repr in Hwf. simpl in Hwf. by rewrite Her in Hwf.
Qed.

(** [merge(target, source)] on two module literals. *)
Lemma merge_pair_correct t s fuel :
  depth (Group s) ≤ fuel →
  ∃ rt rs h h', alloc_modules [t; s] [] = ([rt; rs], h) ∧
    merge fuel rt rs h = Some h' ∧
    repr h' (Group (merge_spec (norm_entries t) (norm_entries s))) (MObj rt).
Proof.
  intros Hd.
  destruct (alloc_module_correct t []) as (rt & tk & e1 & Ht & Hat & Het & Hndt & _ & _).
  change ([] ++ e1) with e1 in *.
  destruct (alloc_module_correct s e1)
    as (rs & sk & e2 & Hs & Has & Hes & Hnds & Hlows & Hds).
  destruct (merge_correct fuel rs sk rt tk (e1 ++ e2)) as (h' & Hm & _ & Hwf & _).
  - lia.
  - by apply (awf_prefix e1 e2 (ANode rt tk)).
  - done.
  - apply NoDup_app. split; [done|]. split; [|done].
    intros x Hx Hx'. apply Hlows in Hx'. apply (awf_addrs_lt _ _ Hat) in Hx. lia.
  - exists rt, rs, (e1 ++ e2), h'. simpl. rewrite Ht, Hs. split; [done|]. split; [done|].
    apply awf_repr in Hwf. simpl in Hwf.
    rewrite erase_amerge_kids, Het, Hes in Hwf; [done|].
    apply Forall_forall. intros ? _. apply erase_amerge_value.
Qed.

(** C2: what the code does on the failing input. With
    [const g = {x: () => 1}], [m1 = {a: g, b: g}] and [m2 = {a: {x: () => 2}}],
    the rule gives the merged tree the factory of [g] at [b.x], since [m2]
    has no key [b]. [inject(m1, m2)] merges [m2.a] into the object [g] that
    [m1.a] holds, which is the object [m1.b] holds: the merged module has
    the factory of [m2] at [b.x], and the read [ctr.b.x] calls it and
    returns 2. *)
Theorem merge_rewrites_shared_group :
  repr Examples.shared_heap (Group Examples.shared_m1) (MObj 1) ∧
  repr Examples.shared_heap (Group Examples.shared_m2) (MObj 3) ∧
  tree_at (merge_all_spec [Examples.shared_m1; Examples.shared_m2]) ["b"] "x"
    = Some (Service Examples.shared_f1) ∧
  ∃ s s', inject_refs 2 [1; 3] (mkState Examples.shared_heap [] [] 0)
            = Some (Ok (VProxy 0), s) ∧
    proxies s !! 0 = Some (mkProxy [] 4 None None) ∧
    value_at (modules s) 4 ["b"] "x" = Some (MFn Examples.shared_f2) ∧
    read_path 1 (VProxy 0) ["b"; "x"] s = Some (Ok (VNum 2), s') ∧
    calls s' = [(2, VProxy 0)].
Proof.
  split; [|split; [|split]].
  - simpl. eexists _, _. repeat split; eexists; split; try reflexivity.
    all: simpl; eexists _, _; repeat split; eexists; split; reflexivity.
  - simpl. eexists _, _. repeat split. eexists; split; [reflexivity|].
    simpl. eexists _, _. repeat split. eexists. split; reflexivity.
  - vm_compute. reflexivity.
  - eexists _, _. repeat split; vm_compute; reflexivity.
Qed.

(** ** Enumeration *)

Lemma initializeEagerServices_ext fuel : ∀ module container s r s',
  initializeEagerServices fuel module container s = Some (r, s') → ext s s'.
Proof.
  induction fuel as [|fuel IH]; [done|]. intros module container s r s'. simpl.
  generalize (default [] (keys <$> modules s !! module)). intros ks.
  assert (Hacc : ∀ acc, foldl (eager_key (initializeEagerServices fuel)
                                 (proxy_get fuel) module container) acc ks
                          = Some (r, s') →
                 ∀ r0 s0, acc = Some (r0, s0) → ext s0 s').
  { induction ks as [|key ks IHks]; simpl.
    - intros acc -> r0 s0 [= <- <-]. apply ext_refl.
    - intros acc Hfold r0 s0 ->.
      destruct (eager_key _ _ module container (Some (r0, s0)) key)
        as [[r1 s1]|] eqn:Hstep.
      2:{ exfalso. clear -Hfold. induction ks; simpl in *; [done|auto]. }
      eapply ext_trans; [|by eapply IHks]. revert Hstep. simpl.
      destruct r0 as [v0|e0]; [|intros [= <- <-]; apply ext_refl].
      destruct (mget (modules s0) module key) as [[f|m]|];
        [| |intros [= <- <-]; apply ext_refl].
      + destruct (isEager f); [|intros [= <- <-]; apply ext_refl].
        destruct (call _ f container s0) as [[[v|e] s2]|] eqn:E; [| |done];
          intros [= <- <-]; (eapply call_ext; [apply proxy_get_ext|exact E]).
      + apply IH. }
  intros Hfold. by eapply Hacc.
Qed.

Lemma inject_ext fuel ms rootm h r s0 :
  merged_module fuel ms = Some (rootm, h) → inject fuel ms = Some (r, s0) →
  ext (mkState h [mkProxy [] rootm None None] [] 0) s0.
Proof.
  unfold merged_module, inject, inject_refs.
  destruct (alloc_modules ms []) as [rs h0]. simpl. intros ->. simpl.
  destruct (initializeEagerServices fuel rootm 0 _) as [[r' s2]|] eqn:E; [|done].
  intros Hr. assert (s2 = s0) as <- by (destruct r'; by inversion Hr).
  by eapply initializeEagerServices_ext.
Qed.

Lemma proxy_keys s p px o :
  proxies s !! p = Some px → modules s !! pmodule px = Some o →
  proxy_ownKeys p s = own_key_order (keys o) ∧
  ∀ k, proxy_has p k s = true ↔ k ∈ keys o ∨ k ∈ proto_names.
Proof.
  intros Hp Ho. unfold proxy_ownKeys, proxy_has, mget, inherited. rewrite Hp, Ho. simpl.
  split; [done|]. intros k. rewrite orb_true_iff, !bool_decide_eq_true.
  apply or_iff_compat_r. split.
  - intros [v Hv]. by eapply lookup_key_Some_keys.
  - apply keys_lookup_key.
Qed.

(** An enumeration that asks for the descriptors of the keys is a sequence
    of property reads. *)
Lemma enumerate_reads fuel p : ∀ ks s r s',
  enumerate fuel p ks s = Some (r, s') → reads s s'.
Proof.
  induction ks as [|key ks IH]; simpl; intros s r s'.
  - intros [= <- <-]. apply reads_refl.
  - unfold proxy_getOwnPropertyDescriptor.
    destruct (proxy_get fuel p key s) as [[[v|e] s1]|] eqn:Hget; [| |done].
    + destruct (enumerate fuel p ks s1) as [[[e|l] s2]|] eqn:E; [| |done];
        intros [= <- <-]; eapply reads_step; [exact Hget| |exact Hget|]; by eapply IH.
    + intros [= <- <-]. eapply reads_step; [exact Hget|apply reads_refl].
Qed.




(** ** Every read returns *)

Lemma cached_at_mono s s' paths l pos :
  ext s s' → cached_at s paths pos → cached_at s' (paths ++ l) pos.
Proof.
  intros Hext (p & Hp & [c Hc]). exists p. split; [by apply lookup_app_l_Some|].
  rewrite (ext_frozen _ _ Hext _ _ _ Hc). eauto.
Qed.

Lemma covers_mono U h rootm s s' paths l :
  ext s s' → covers U h rootm s paths → covers U h rootm s' (paths ++ l).
Proof.
  intros Hext Hc π k Hv Hn. apply Hc; [done|]. intros Hcached. apply Hn.
  by eapply cached_at_mono.
Qed.

Lemma length_filter_lt {A : Type} `{EqDecision A} (x : A) (l : list A) :
  x ∈ l → List.length (filter (λ y, y ≠ x) l) < List.length l.
Proof.
  induction l as [|y l IH]; [by intros ?%not_elem_of_nil|].
  rewrite filter_cons. intros Hin. destruct (decide (y ≠ x)) as [Hne|Heq]; simpl.
  - apply elem_of_cons in Hin as [Hx|Hin]; [by destruct Hne|].
    specialize (IH Hin). lia.
  - pose proof (length_filter (λ z, z ≠ x) l). lia.
Qed.

Section RunTotal.
Variables (h : heap) (rootm : nat) (U : list (list string * string)).
Variable get : nat → string → state → option (outcome * state).
Hypothesis get_total : ∀ s paths,
  tracked h rootm paths s → covers U h rootm s paths → ∀ p k, is_Some (get p k s).
Hypothesis get_tracked : ∀ p k s r s' paths,
  get p k s = Some (r, s') → tracked h rootm paths s →
  ∃ l, tracked h rootm (paths ++ l) s'.
Hypothesis get_ext : ∀ p k s r s', get p k s = Some (r, s') → ext s s'.

Lemma run_total c : ∀ s paths,
  tracked h rootm paths s → covers U h rootm s paths → is_Some (run get c s).
Proof.
  assert (Hrun : ∀ c s r s' paths, run get c s = Some (r, s') →
            tracked h rootm paths s → ∃ l, tracked h rootm (paths ++ l) s').
  { intros c0. apply (run_inv (tracked h rootm)); [|done].
    intros. by apply tracked_fresh. }
  induction c as [v|v|o k| |c IHc k IHk|c IHc hd IHh]; simpl; intros s paths Ht Hc.
  - eauto.
  - eauto.
  - destruct o; simpl; eauto.
  - eauto.
  - destruct (IHc s paths Ht Hc) as [[r s1] E]. rewrite E.
    destruct r as [v|e]; [|eauto].
    destruct (Hrun _ _ _ _ _ E Ht) as [l Hl].
    eapply IHk; [exact Hl|]. eapply covers_mono; [|exact Hc]. by eapply run_ext.
  - destruct (IHc s paths Ht Hc) as [[r s1] E]. rewrite E.
    destruct r as [v|e]; [eauto|].
    destruct (Hrun _ _ _ _ _ E Ht) as [l Hl].
    eapply IHh; [exact Hl|]. eapply covers_mono; [|exact Hc]. by eapply run_ext.
Qed.
End RunTotal.

(** With more fuel than there are positions no target holds yet, a read
    returns. *)
Lemma proxy_get_total h rootm fuel : ∀ U s paths,
  tracked h rootm paths s → covers U h rootm s paths → List.length U < fuel →
  ∀ p k, is_Some (proxy_get fuel p k s).
Proof.
  induction fuel as [|fuel IH]; intros U s paths Ht Hc Hlen p k; [lia|].
  unfold proxy_get. destruct (proxies s !! p) as [px|] eqn:Hp; [|eauto].
  rewrite resolve_S. simpl.
  destruct (tget s p k) as [[|v]|] eqn:Hcell; [eauto|by destruct (instanceofError v); eauto|].
  destruct (inherited k) eqn:Hinh; [eauto|].
  rewrite (tr_modules _ _ _ _ Ht).
  destruct (mget h (pmodule px) k) as [[f|m]|] eqn:Hm; [|eauto|eauto].
  destruct (tracked_path _ _ _ _ _ _ Ht Hp) as [π Hπ].
  assert (Hin : (π, k) ∈ U).
  { apply Hc.
    - rewrite (tracked_value_at _ _ _ _ _ _ _ k Ht Hp Hπ), Hm. eauto.
    - intros (p' & Hp' & Hsome). simpl in Hp', Hsome.
      rewrite <- (tracked_same_path _ _ _ _ _ _ _ Ht Hπ Hp') in Hsome.
      rewrite Hcell in Hsome. by destruct Hsome. }
  set (s1 := record_call f (VProxy (default p (pcontainer px))) (tset p k Requested s)).
  assert (Ht1 : tracked h rootm paths s1).
  { apply tracked_record_call. by eapply tracked_tset_factory. }
  assert (Hc1 : covers (filter (λ y, y ≠ (π, k)) U) h rootm s1 paths).
  { intros π' k' Hv Hn. apply list_elem_of_filter. split.
    - intros [= -> ->]. apply Hn. exists p. split; [done|]. simpl.
      unfold s1. rewrite tget_record_call, tget_tset_eq; eauto.
    - apply Hc; [done|]. intros (p' & Hp' & Hsome). apply Hn. exists p'.
      split; [done|]. unfold s1. rewrite tget_record_call. by apply tget_tset_is_Some. }
  assert (Hrun : is_Some (run (proxy_get fuel)
            (fbody f (VProxy (default p (pcontainer px)))) s1)).
  { apply (run_total h rootm (filter (λ y, y ≠ (π, k)) U) (proxy_get fuel))
      with (paths := paths); [| |apply proxy_get_ext|done|done].
    - intros s' paths' Ht' Hc'. eapply IH; [exact Ht'|exact Hc'|].
      pose proof (length_filter_lt (π, k) U Hin). lia.
    - intros. by eapply proxy_get_tracked. }
  destruct Hrun as [[r s2] E].
  unfold call. fold s1. rewrite E. destruct r; eauto.
Qed.

Lemma read_path_total h rootm U fuel :
  (∀ π k, is_Some (value_at h rootm π k) → (π, k) ∈ U) → List.length U < fuel →
  ∀ π o s paths, tracked h rootm paths s → is_Some (read_path fuel o π s).
Proof.
  intros HU Hlen. induction π as [|k π IH]; simpl; intros o s paths Ht; [eauto|].
  assert (Hread : is_Some (read (proxy_get fuel) o k s)).
  { destruct o; simpl; eauto. eapply proxy_get_total; [exact Ht| |exact Hlen].
    intros π' k' Hv _. by apply HU. }
  destruct Hread as [[r s1] E]. rewrite E. destruct r as [v|e]; [|eauto].
  assert (∃ l, tracked h rootm (paths ++ l) s1) as [l Hl].
  { destruct o; simpl in E; try discriminate;
      try (injection E as <- <-; exists []; rewrite app_nil_r; exact Ht).
    by eapply proxy_get_tracked. }
  by eapply IH.
Qed.

(** The positions of a tree are all the keys that can be reached. *)
Lemma apos_complete (h : heap) π : ∀ a r k,
  awf h a → aval a = MObj r → is_Some (value_at h r π k) → (π, k) ∈ apos a.
Proof.
  induction π as [|k1 π IH]; intros a r k Ha Hr Hv.
  - destruct a as [f|r0 kids]; [done|]. simpl in Hr. injection Hr as ->.
    apply awf_node in Ha as (Hobj & _ & _).
    unfold value_at in Hv. simpl in Hv. rewrite (mget_kobj _ _ _ _ Hobj) in Hv.
    destruct (lookup_key k kids) as [a'|] eqn:Hl; [|by destruct Hv].
    apply lookup_key_Some_elem_of in Hl. simpl.
    apply list_elem_of_In, in_flat_map. exists (k, a'). split; [by apply list_elem_of_In|].
    left. done.
  - destruct a as [f|r0 kids]; [done|]. simpl in Hr. injection Hr as ->.
    apply awf_node in Ha as (Hobj & _ & Hkids).
    unfold value_at in Hv. simpl in Hv. rewrite (mget_kobj _ _ _ _ Hobj) in Hv.
    destruct (lookup_key k1 kids) as [a'|] eqn:Hl; [|by destruct Hv].
    simpl in Hv. destruct (aval a') as [|r'] eqn:Ha'; [by destruct Hv|].
    apply lookup_key_Some_elem_of in Hl. rewrite Forall_forall in Hkids.
    assert (Hin : (π, k) ∈ apos a') by (eapply IH; [by apply (Hkids (k1, a'))|done|done]).
    simpl. apply list_elem_of_In, in_flat_map. exists (k1, a').
    split; [by apply list_elem_of_In|]. right. apply list_elem_of_In.
    apply list_elem_of_fmap. by exists (π, k).
Qed.

Lemma length_apos a : List.length (apos a) = nkeys (erase a).
Proof.
  induction a as [f|r kids IH] using atree_ind'; [done|].
  simpl. induction kids as [|[k a] kids IHk]; [done|].
  apply Forall_cons in IH as [Ha IH]. simpl in Ha |- *.
  rewrite length_app, length_fmap, Ha. f_equal. f_equal. by apply IHk.
Qed.

Lemma adepth_erase a : adepth a = depth (erase a).
Proof.
  induction a as [f|r kids IH] using atree_ind'; [done|].
  simpl. f_equal. induction kids as [|[k a] kids IHk]; [done|].
  apply Forall_cons in IH as [Ha IH]. simpl in Ha |- *.
  rewrite Ha. f_equal. by apply IHk.
Qed.

Lemma initializeEagerServices_tracked h rootm fuel module π container s r s' paths :
  initializeEagerServices fuel module container s = Some (r, s') →
  node_at h rootm π = Some module → tracked h rootm paths s →
  ∃ l, tracked h rootm (paths ++ l) s'.
Proof.
  apply (initializeEagerServices_inv h rootm (tracked h rootm)); try done.
  - intros. apply tracked_record_call. by eapply tracked_tset_factory.
  - intros. by eapply tracked_tset_factory.
  - intros. by eapply tracked_group.
  - intros. by apply tracked_fresh.
  - intros. by apply tracked_record_call.
Qed.

Section InjectTotal.
Variables (h : heap) (rootm : nat) (U : list (list string * string)).
Hypothesis HU : ∀ π k, is_Some (value_at h rootm π k) → (π, k) ∈ U.

Lemma call_total fuel f c s paths :
  List.length U < fuel → tracked h rootm paths s →
  ∃ r s1 l, call (proxy_get fuel) f c s = Some (r, s1) ∧ tracked h rootm (paths ++ l) s1.
Proof.
  intros Hlen Ht. unfold call.
  assert (Ht1 : tracked h rootm paths (record_call f (VProxy c) s))
    by by apply tracked_record_call.
  destruct (run_total h rootm U (proxy_get fuel)) with (c := fbody f (VProxy c))
    (s := record_call f (VProxy c) s) (paths := paths) as [[r s1] E].
  - intros s' paths' Ht' _. eapply proxy_get_total; [exact Ht'| |exact Hlen].
    intros π k Hv _. by apply HU.
  - intros. by eapply proxy_get_tracked.
  - apply proxy_get_ext.
  - done.
  - intros π k Hv _. by apply HU.
  - exists r, s1. rewrite E.
    destruct (run_inv (tracked h rootm)) with (get := proxy_get fuel)
      (c := fbody f (VProxy c)) (s := record_call f (VProxy c) s) (r := r) (s' := s1)
      (paths := paths) as [l Hl]; try done.
    + intros. by apply tracked_fresh.
    + intros. by eapply proxy_get_tracked.
    + by exists l.
Qed.

(** With fuel for the depth of the module and for its keys, the eager
    initialization returns. *)
Lemma initializeEagerServices_total fuel : ∀ a module π c s paths,
  awf h a → aval a = MObj module → node_at h rootm π = Some module →
  adepth a + List.length U < fuel → tracked h rootm paths s →
  is_Some (initializeEagerServices fuel module c s).
Proof.
  induction fuel as [|fuel IH]; intros a module π c s paths Ha Hv Hnode Hfuel Ht; [lia|].
  destruct a as [f|r kids]; [done|]. simpl in Hv. injection Hv as ->.
  pose proof Ha as (Hobj & _ & Hkids)%awf_node.
  assert (Hfuel' : kdepth kids + List.length U < fuel)
    by (change (S (kdepth kids) + List.length U < S fuel) in Hfuel; lia).
  assert (Hdk : Forall (λ ka, adepth ka.2 ≤ kdepth kids) kids).
  { apply (adepth_kids module). change (S (kdepth kids) ≤ S (kdepth kids)). lia. }
  clear Hfuel. simpl. generalize (default [] (keys <$> modules s !! module)). intros ks.
  assert (Hloop : ∀ acc,
    (∃ r0 s0, acc = Some (r0, s0) ∧ ∃ paths0, tracked h rootm paths0 s0) →
    is_Some (foldl (eager_key (initializeEagerServices fuel) (proxy_get fuel) module c)
                   acc ks)).
  { induction ks as [|key ks IHks]; intros acc (r0 & s0 & -> & paths0 & Ht0); [eauto|].
    simpl foldl. apply IHks. simpl.
    destruct r0 as [v0|e0]; [|eauto 6].
    rewrite (tr_modules _ _ _ _ Ht0), (mget_kobj _ _ _ _ Hobj).
    destruct (lookup_key key kids) as [a'|] eqn:Hl; simpl; [|eauto 6].
    pose proof (lookup_key_Some_elem_of _ _ _ Hl) as Hin.
    destruct a' as [f|r' kids'] eqn:Ea'; simpl.
    - destruct (isEager f); [|eauto 6].
      destruct (call_total fuel f c s0 paths0) as (r1 & s1 & l & -> & Ht1); [lia|done|].
      destruct r1; eauto 6.
    - rewrite Forall_forall in Hkids, Hdk.
      pose proof (Hkids _ Hin) as Ha'. pose proof (Hdk _ Hin) as Hd'.
      cbn [snd] in Ha', Hd'.
      destruct (IH (ANode r' kids') r' (π ++ [key]) c s0 paths0) as [[r1 s1] E]; try done.
      + rewrite node_at_app, Hnode. simpl.
        by rewrite (mget_kobj _ _ _ _ Hobj), Hl.
      + lia.
      + destruct (initializeEagerServices_tracked h rootm fuel r' (π ++ [key]) c s0 r1 s1 paths0)
          as [l Hl1]; try done.
        * rewrite node_at_app, Hnode. simpl.
          by rewrite (mget_kobj _ _ _ _ Hobj), Hl.
        * rewrite E. eauto 6. }
  apply Hloop. eauto 6.
Qed.
End InjectTotal.

(** [inject] returns: with fuel for the depth of every argument, and for the
    depth and the keys of the merged module. *)
Lemma inject_total fuel ms :
  Forall (λ m, depth (Group m) ≤ fuel) ms →
  depth (Group (merge_all_spec (norm_entries <$> ms)))
    + nkeys (Group (merge_all_spec (norm_entries <$> ms))) < fuel →
  is_Some (inject fuel ms).
Proof.
  intros Hd Hfuel.
  destruct (merged_module_awf fuel ms Hd) as (rootm & h & kids & Hm & Hwf & Her).
  revert Hm. unfold merged_module, inject, inject_refs.
  destruct (alloc_modules ms []) as [rs h0]. simpl. intros ->. simpl.
  destruct (initializeEagerServices_total h rootm (apos (ANode rootm kids)))
    with (fuel := fuel) (a := ANode rootm kids) (module := rootm) (π := @nil string)
         (c := 0) (s := mkState h [mkProxy [] rootm None None] [] 0) (paths := [@nil string])
    as [[r s] E]; try done.
  - intros π k Hv. by eapply apos_complete.
  - rewrite length_apos, adepth_erase. simpl erase. by rewrite Her.
  - apply tracked_initial.
  - unfold set_proxies. simpl. rewrite E. destruct r; eauto.
Qed.

(** After [inject], every chained read returns: with more fuel than the
    merged module has keys. *)
Lemma reads_total fuel ms r s0 s fuel' o π :
  Forall (λ m, depth (Group m) ≤ fuel) ms →
  inject fuel ms = Some (r, s0) → reads s0 s →
  nkeys (Group (merge_all_spec (norm_entries <$> ms))) < fuel' →
  is_Some (read_path fuel' o π s).
Proof.
  intros Hd Hinj Hreads Hfuel.
  destruct (merged_module_awf fuel ms Hd) as (rootm & h & kids & Hm & Hwf & Her).
  destruct (inject_tracked _ _ _ _ _ _ Hm Hinj) as [l Hl].
  destruct (reads_tracked _ _ _ _ _ Hreads Hl) as [l' Hl'].
  eapply (read_path_total h rootm (apos (ANode rootm kids))); [| |exact Hl'].
  - intros π' k Hv. by eapply apos_complete.
  - rewrite length_apos. simpl erase. by rewrite Her.
Qed.

(** ** A factory that is not eager is called once *)

(** The module and the root proxy of the container [inject] builds. *)
Lemma inject_module fuel ms r s0 :
  inject fuel ms = Some (r, s0) →
  ∃ rootm h px0, merged_module fuel ms = Some (rootm, h) ∧ modules s0 = h ∧
    proxies s0 !! 0 = Some px0 ∧ pmodule px0 = rootm.
Proof.
  intros Hinj.
  assert (∃ rootm h, merged_module fuel ms = Some (rootm, h)) as (rootm & h & Hm).
  { revert Hinj. unfold inject, merged_module, inject_refs.
    destruct (alloc_modules ms []) as [rs h0]. simpl.
    destruct (merge_all fuel rs h0) as [[module h]|]; [eauto|done]. }
  pose proof (inject_ext _ _ _ _ _ _ Hm Hinj) as Hext.
  destruct (ext_proxies _ _ Hext 0 _ eq_refl) as (px0 & Hp0 & Hmod & _).
  exists rootm, h, px0. split; [done|]. split; [apply (ext_modules _ _ Hext)|done].
Qed.

Section RunReadfree.
Variable get : nat → string → state → option (outcome * state).

Lemma run_readfree c : readfree c →
  ∀ s r s', run get c s = Some (r, s') → proxies s' = proxies s ∧ modules s' = modules s.
Proof.
  induction 1 as [v|v| |c k Hc IHc Hk IHk|c hd Hc IHc Hh IHh]; simpl; intros s r s'.
  - by intros [= <- <-].
  - by intros [= <- <-].
  - by intros [= <- <-].
  - destruct (run get c s) as [[[v|e] s1]|] eqn:E; [| |done].
    + intros H. destruct (IHc _ _ _ E) as [<- <-]. by eapply IHk.
    + intros [= <- <-]. by eapply IHc.
  - destruct (run get c s) as [[[v|e] s1]|] eqn:E; [| |done].
    + intros [= <- <-]. by eapply IHc.
    + intros H. destruct (IHc _ _ _ E) as [<- <-]. by eapply IHh.
Qed.
End RunReadfree.

Lemma eager_readfree_group h r k m :
  eager_readfree h r → mget h r k = Some (MObj m) → eager_readfree h m.
Proof.
  intros Hrf Hm π k' g ctx Hv. apply (Hrf (k :: π) k' g).
  unfold value_at in *. simpl. by rewrite Hm.
Qed.

(** Eager factories that read no property leave the targets as they are. *)
Lemma initializeEagerServices_readfree fuel : ∀ module container s r s',
  initializeEagerServices fuel module container s = Some (r, s') →
  eager_readfree (modules s) module →
  proxies s' = proxies s ∧ modules s' = modules s.
Proof.
  induction fuel as [|fuel IH]; [done|]. intros module container s r s'. simpl.
  generalize (default [] (keys <$> modules s !! module)). intros ks Hfold Hrf.
  assert (Hacc : ∀ acc, foldl (eager_key (initializeEagerServices fuel)
                                 (proxy_get fuel) module container) acc ks
                          = Some (r, s') →
                 ∀ r0 s1, acc = Some (r0, s1) →
                 proxies s1 = proxies s ∧ modules s1 = modules s →
                 proxies s' = proxies s ∧ modules s' = modules s).
  { clear Hfold. induction ks as [|key ks IHks]; simpl.
    - by intros acc -> r0 s1 [= <- <-].
    - intros acc Hfold r0 s1 -> [Hp1 Hm1].
      destruct (eager_key _ _ module container (Some (r0, s1)) key)
        as [[r2 s2]|] eqn:Hstep.
      2:{ exfalso. clear -Hfold. induction ks; simpl in *; [done|auto]. }
      eapply IHks; [exact Hfold|done|]. revert Hstep. simpl.
      destruct r0 as [v0|e0]; [|by intros [= <- <-]].
      rewrite Hm1.
      destruct (mget (modules s) module key) as [[f|m]|] eqn:Hm; [| |by intros [= <- <-]].
      + destruct (isEager f) eqn:Hf; [|by intros [= <- <-]].
        assert (Hrun : ∀ c s3, call (proxy_get fuel) f container s1 = Some (c, s3) →
                  proxies s3 = proxies s ∧ modules s3 = modules s).
        { intros c s3 Hcall. unfold call in Hcall.
          apply run_readfree in Hcall as [-> ->]; [done|].
          apply (Hrf [] key f); [|done]. unfold value_at. simpl. exact Hm. }
        destruct (call _ f _ _) as [[[v|e] s3]|] eqn:E; [| |done];
          intros [= <- <-]; by eapply Hrun.
      + intros E. destruct (IH _ _ _ _ _ E) as [-> ->]; [|done].
        rewrite Hm1. by eapply eager_readfree_group. }
  by eapply Hacc.
Qed.



Lemma group_value_unique :
  unique_at [[("value", MFn (mkFactory 0 false (λ _, Fresh)))]; [("group", MObj 0)];
             [("group", MObj 0)]] 2 ["group"] "value"
            (mkFactory 0 false (λ _, Fresh)).
Proof.
  split; [apply not_elem_of_nil|].
  intros π k g. unfold value_at, mget.
  destruct π as [|k1 π]; simpl.
  { destruct (decide ("group" = k)); [|done]. done. }
  unfold mget. simpl. destruct (decide ("group" = k1)) as [<-|]; [|done]. simpl.
  destruct π as [|k2 π]; simpl.
  - destruct (decide ("value" = k)) as [<-|]; [done|done].
  - unfold mget. simpl. destruct (decide ("value" = k2)); done.
Qed.

Lemma group_value_no_eager :
  no_eager [[("value", MFn (mkFactory 0 false (λ _, Fresh)))]; [("group", MObj 0)];
            [("group", MObj 0)]] 2.
Proof.
  intros π k g. unfold value_at, mget.
  destruct π as [|k1 π]; simpl.
  { destruct (decide ("group" = k)); [|done]. done. }
  unfold mget. simpl. destruct (decide ("group" = k1)) as [<-|]; [|done]. simpl.
  destruct π as [|k2 π]; simpl.
  - destruct (decide ("value" = k)) as [<-|]; [by intros [= <-]|done].
  - unfold mget. simpl. destruct (decide ("value" = k2)); done.
Qed.


(** * Further properties of the container *)

Lemma inject_merged fuel ms r s :
  inject fuel ms = Some (r, s) → ∃ rootm h, merged_module fuel ms = Some (rootm, h).
Proof.
  unfold inject, merged_module, inject_refs.
  destruct (alloc_modules ms []) as [rs h0]. simpl.
  destruct (merge_all fuel rs h0) as [[module h]|]; [eauto|done].
Qed.

(** ** Keys the module does not have *)

Lemma within_tset s p px k v :
  within s → proxies s !! p = Some px →
  is_Some (mget (modules s) (pmodule px) k) → within (tset p k v s).
Proof.
  intros Hw Hp Hm q qx k' Hq Hcell. rewrite modules_tset.
  destruct (proxies_tset_inv _ _ _ _ _ _ Hq) as (px0 & Hq0 & Hcl & _).
  rewrite Hcl. destruct (decide ((p, k) = (q, k'))) as [[= <- <-]|Hne].
  - rewrite Hp in Hq0. by injection Hq0 as <-.
  - rewrite tget_tset_ne in Hcell by done. by eapply Hw.
Qed.

Lemma within_record_call f c s : within s → within (record_call f c s).
Proof. intros Hw p px k. apply Hw. Qed.

Lemma within_group s self px prop m c path q :
  within s → proxies s !! self = Some px →
  mget (modules s) (pmodule px) prop = Some (MObj m) →
  within (tset self prop (Stored (VProxy q))
            (proxify m c path (tset self prop Requested s)).2).
Proof.
  intros Hw Hp Hm p px' k Hp' Hcell.
  rewrite modules_tset. change (modules (proxify m c path (tset self prop Requested s)).2)
    with (modules (tset self prop Requested s)). rewrite modules_tset.
  rewrite tget_group in Hcell by eauto.
  destruct (proxies_group_inv _ _ _ _ _ _ _ _ _ Hp') as [(px0 & Hp0 & Hcl & _)|[-> Hmod]].
  - rewrite Hcl. destruct (decide ((self, prop) = (p, k))) as [[= <- <-]|Hne].
    + rewrite Hp in Hp0. injection Hp0 as <-. rewrite Hm. eauto.
    + by eapply Hw.
  - destruct (decide ((self, prop) = (List.length (proxies s), k))) as [[= Hself _]|Hne].
    + apply lookup_lt_Some in Hp. lia.
    + apply tget_is_Some_proxy in Hcell as [? Hcell].
      apply lookup_lt_Some in Hcell. lia.
Qed.

Lemma inject_within fuel ms r s0 s :
  inject fuel ms = Some (r, s0) → reads s0 s → within s.
Proof.
  intros Hinj Hreads.
  destruct (inject_merged _ _ _ _ Hinj) as (rootm & h & Hm).
  pose (Inv := λ (paths : list (list string)) s, tracked h rootm paths s ∧ within s).
  assert (Hstart : ∀ paths s self px prop f c,
    Inv paths s → proxies s !! self = Some px → tget s self prop = None →
    mget h (pmodule px) prop = Some (MFn f) →
    Inv paths (record_call f c (tset self prop Requested s))).
  { intros paths s1 self px prop f c [Ht Hw] Hp Hcell Hf. split.
    - apply tracked_record_call. by eapply tracked_tset_factory.
    - apply within_record_call. eapply within_tset; [done|done|].
      rewrite (tr_modules _ _ _ _ Ht), Hf. eauto. }
  assert (Hend : ∀ paths s self px prop f c,
    Inv paths s → proxies s !! self = Some px → is_Some (tget s self prop) →
    mget h (pmodule px) prop = Some (MFn f) → Inv paths (tset self prop c s)).
  { intros paths s1 self px prop f c [Ht Hw] Hp Hcell Hf. split.
    - by eapply tracked_tset_factory.
    - eapply within_tset; [done|done|]. rewrite (tr_modules _ _ _ _ Ht), Hf. eauto. }
  assert (Hgroup : ∀ paths s self px π prop m c path,
    Inv paths s → proxies s !! self = Some px → paths !! self = Some π →
    tget s self prop = None → mget h (pmodule px) prop = Some (MObj m) →
    Inv (paths ++ [π ++ [prop]])
        (tset self prop (Stored (VProxy (List.length (proxies s))))
           (proxify m c path (tset self prop Requested s)).2)).
  { intros paths s1 self px π prop m c path [Ht Hw] Hp Hπ Hcell Hg. split.
    - by eapply tracked_group.
    - eapply within_group; [done|done|]. by rewrite (tr_modules _ _ _ _ Ht). }
  assert (Hfresh : ∀ paths s,
    Inv paths s → Inv paths (mkState (modules s) (proxies s) (calls s) (S (nextobj s)))).
  { intros paths s1 [Ht Hw]. split; [by apply tracked_fresh|]. intros p px k. apply Hw. }
  assert (Heager : ∀ paths s (π : list string) (module : nat) (key : string) f c,
    Inv paths s → node_at h rootm π = Some module →
    mget h module key = Some (MFn f) → isEager f = true →
    Inv paths (record_call f c s)).
  { intros paths s1 π module key f c [Ht Hw] _ _ _. split.
    - by apply tracked_record_call.
    - by apply within_record_call. }
  destruct (inject_inv h rootm Inv (λ _ _ H, proj1 H) Hstart Hend Hgroup Hfresh Heager
              fuel ms r s0 Hm Hinj) as [l0 Hl0].
  { split; [apply tracked_initial|]. intros [|p] px k; [|done].
    intros [= <-]. unfold tget. simpl. by intros [? ?]. }
  destruct (reads_inv h rootm Inv (λ _ _ H, proj1 H) Hstart Hend Hgroup Hfresh
              s0 s Hreads _ Hl0) as [l Hl].
  apply Hl.
Qed.

Lemma proxy_get_missing s p k fuel' :
  within s → proxy_has p k s = false →
  proxy_get (S fuel') p k s = Some (Ok VUndef, s).
Proof.
  intros Hw Hhas.
  unfold proxy_has in Hhas. unfold proxy_get.
  destruct (proxies s !! p) as [px|] eqn:Hp; [|done].
  apply orb_false_iff in Hhas as [Hhas Hin].
  apply bool_decide_eq_false in Hhas.
  rewrite resolve_S. simpl. rewrite Hin.
  destruct (tget s p k) as [c|] eqn:Hcell.
  { exfalso. apply Hhas. eapply Hw; eauto. }
  destruct (mget (modules s) (pmodule px) k) eqn:Hm; [|done].
  exfalso. apply Hhas. eauto.
Qed.

(** X1. In a state reached from the result of [inject] by property reads
    alone (nothing has been assigned to the container, which has no [set]
    trap), when [k in proxy] is false the read [proxy[k]] returns
    [undefined] and leaves the store as it is: the record of calls and
    every target are unchanged. *)
Theorem missing_key_reads_undefined fuel ms r s0 s p k fuel' :
  inject fuel ms = Some (r, s0) → reads s0 s →
  proxy_has p k s = false →
  proxy_get (S fuel') p k s = Some (Ok VUndef, s).
Proof.
  intros Hinj Hreads Hhas. apply proxy_get_missing; [|done].
  by eapply inject_within.
Qed.

Lemma missing_key_reads_undefined_witness :
  let s0 := Examples.state_of Examples.no_state (inject 1 [Examples.throwing_a]) in
  proxy_get 1 0 "c" s0 = Some (Ok VUndef, s0).
Proof.
  intros s0.
  apply (missing_key_reads_undefined 1 [Examples.throwing_a] (Ok (VProxy 0)) s0 s0 0 "c" 0).
  - reflexivity.
  - apply reads_refl.
  - reflexivity.
Defined.

(** ** The symbol [requested] does not outlive a read *)

Lemma marks_refl s : marks s s.
Proof. by intros p k. Qed.

Lemma marks_trans s1 s2 s3 : marks s1 s2 → marks s2 s3 → marks s1 s3.
Proof. intros H12 H23 p k H. by apply H12, H23. Qed.

Lemma marks_record_call f c s s' : marks (record_call f c s) s' → marks s s'.
Proof. intros H p k Hc. by apply H in Hc. Qed.

Lemma marks_overwrite s s2 p k v :
  marks (tset p k Requested s) s2 → marks s (tset p k (Stored v) s2).
Proof.
  intros H p' k' Hc. destruct (decide ((p, k) = (p', k'))) as [[= <- <-]|Hne].
  - exfalso. destruct (proxies s2 !! p) as [px|] eqn:Hp.
    + rewrite tget_tset_eq in Hc by eauto. done.
    + unfold tset in Hc. rewrite Hp in Hc. unfold tget in Hc. by rewrite Hp in Hc.
  - rewrite tget_tset_ne in Hc by done. apply H in Hc.
    by rewrite tget_tset_ne in Hc.
Qed.

Lemma marks_group s p k m c path q :
  is_Some (proxies s !! p) →
  marks s (tset p k (Stored (VProxy q)) (proxify m c path (tset p k Requested s)).2).
Proof.
  intros Hp p' k'. rewrite tget_group by done.
  by destruct (decide ((p, k) = (p', k'))).
Qed.

Section RunMarks.
Variable get : nat → string → state → option (outcome * state).
Hypothesis get_marks : ∀ p k s r s', get p k s = Some (r, s') → marks s s'.

Lemma run_marks c : ∀ s r s', run get c s = Some (r, s') → marks s s'.
Proof.
  induction c as [v|v|o k| |c IHc k IHk|c IHc hd IHh]; simpl; intros s r s'.
  - intros [= <- <-]. apply marks_refl.
  - intros [= <- <-]. apply marks_refl.
  - destruct o; simpl; try (intros [= <- <-]; apply marks_refl). apply get_marks.
  - intros [= <- <-]. by intros p k.
  - destruct (run get c s) as [[[v|e] s1]|] eqn:E; [| |done].
    + intros H. eapply marks_trans; [by eapply IHc|by eapply IHk].
    + intros [= <- <-]. by eapply IHc.
  - destruct (run get c s) as [[[v|e] s1]|] eqn:E; [| |done].
    + intros [= <- <-]. by eapply IHc.
    + intros H. eapply marks_trans; [by eapply IHc|by eapply IHh].
Qed.

Lemma call_marks f c s r s' : call get f c s = Some (r, s') → marks s s'.
Proof. unfold call. intros H. eapply marks_record_call, run_marks, H. Qed.
End RunMarks.

Lemma proxy_get_marks fuel : ∀ p k s r s',
  proxy_get fuel p k s = Some (r, s') → marks s s'.
Proof.
  induction fuel as [|fuel IH]; intros p k s r s'; unfold proxy_get.
  { destruct (proxies s !! p); [done|]. intros [= <- <-]. apply marks_refl. }
  destruct (proxies s !! p) as [px|] eqn:Hp; [|intros [= <- <-]; apply marks_refl].
  rewrite resolve_S. simpl.
  destruct (tget s p k) as [[|v]|] eqn:Ht.
  { intros [= <- <-]. apply marks_refl. }
  { destruct (instanceofError v); intros [= <- <-]; apply marks_refl. }
  destruct (inherited k); [intros [= <- <-]; apply marks_refl|].
  destruct (mget (modules s) (pmodule px) k) as [[f|m]|] eqn:Hm.
  - destruct (call _ f _ _) as [[[v|e] s2]|] eqn:E; [| |done];
      intros [= <- <-]; apply marks_overwrite; exact (call_marks _ IH _ _ _ _ _ E).
  - intros [= <- <-]. apply marks_group. eauto.
  - intros [= <- <-]. apply marks_refl.
Qed.

Lemma initializeEagerServices_marks fuel : ∀ module container s r s',
  initializeEagerServices fuel module container s = Some (r, s') → marks s s'.
Proof.
  induction fuel as [|fuel IH]; [done|].
  intros module container s r s'. simpl.
  generalize (default [] (keys <$> modules s !! module)). intros ks.
  assert (Hacc : ∀ acc, foldl (eager_key (initializeEagerServices fuel)
                                 (proxy_get fuel) module container) acc ks
                          = Some (r, s') →
                 ∀ r0 s0, acc = Some (r0, s0) → marks s0 s').
  { induction ks as [|key ks IHks]; simpl.
    - intros acc -> r0 s0 [= <- <-]. apply marks_refl.
    - intros acc Hfold r0 s0 ->.
      destruct (eager_key _ _ module container (Some (r0, s0)) key)
        as [[r1 s1]|] eqn:Hstep.
      2:{ exfalso. clear -Hfold. induction ks; simpl in *; [done|auto]. }
      eapply marks_trans; [|by eapply IHks].
      revert Hstep. simpl.
      destruct r0 as [v0|e0]; [|intros [= <- <-]; apply marks_refl].
      destruct (mget (modules s0) module key) as [[f|m]|] eqn:Hm;
        [| |intros [= <- <-]; apply marks_refl].
      + destruct (isEager f); [|intros [= <- <-]; apply marks_refl].
        destruct (call _ f _ _) as [[[v|e] s2]|] eqn:E; [| |done];
          intros [= <- <-]; exact (call_marks _ (proxy_get_marks fuel) _ _ _ _ _ E).
      + apply IH. }
  intros Hfold. by eapply Hacc.
Qed.

Lemma inject_settled fuel ms r s0 s :
  inject fuel ms = Some (r, s0) → reads s0 s → ∀ p k, tget s p k ≠ Some Requested.
Proof.
  intros Hinj Hreads.
  assert (H0 : ∀ p k, tget s0 p k ≠ Some Requested).
  { revert Hinj. unfold inject, inject_refs.
    destruct (alloc_modules ms []) as [rs h0]. simpl.
    destruct (merge_all fuel rs h0) as [[module h]|]; [|done]. simpl.
    destruct (initializeEagerServices fuel module 0 _) as [[r' s2]|] eqn:E; [|done].
    intros Hr. assert (s2 = s0) as -> by (destruct r'; by inversion Hr).
    intros p k Hc. apply initializeEagerServices_marks in E. apply E in Hc.
    unfold tget in Hc. simpl in Hc. destruct p as [|[|p]]; done. }
  clear Hinj. induction Hreads as [s|s fuel' p k r' s1 s2 Hget _ IH]; [done|].
  apply IH. intros p' k' Hc. apply (proxy_get_marks _ _ _ _ _ _ Hget) in Hc.
  by apply (H0 p' k').
Qed.

(** X2. At any time after [inject] (whether it returned or threw) and after
    any completed reads, no target holds the symbol [requested]; so a read
    of a property a target holds never reports a cycle: it returns the
    stored value, or throws the construction failure when that value is an
    [Error], and leaves the store as it is. *)
Theorem requested_does_not_outlive_read fuel ms r s0 s :
  inject fuel ms = Some (r, s0) → reads s0 s →
  (∀ p k, tget s p k ≠ Some Requested) ∧
  (∀ p px k c fuel', proxies s !! p = Some px → tget s p k = Some c →
     ∃ v, c = Stored v ∧
       proxy_get (S fuel') p k s
         = Some (if instanceofError v
                 then Err (VError (failure_message (path_of (ppath px) k)) None)
                 else Ok v, s)).
Proof.
  intros Hinj Hreads. pose proof (inject_settled _ _ _ _ _ Hinj Hreads) as Hs.
  split; [done|]. intros p px k c fuel' Hp Hc.
  destruct c as [|v]; [by apply Hs in Hc|]. exists v. split; [done|].
  rewrite (proxy_get_cached _ _ _ _ _ _ Hp Hc). simpl.
  by destruct (instanceofError v).
Qed.

Lemma requested_does_not_outlive_read_witness :
  let s0 := Examples.state_of Examples.no_state (inject 1 [Examples.cyclic_pair]) in
  let s := Examples.state_of s0 (proxy_get 3 0 "a" s0) in
  (∀ p k, tget s p k ≠ Some Requested) ∧
  proxy_get 1 0 "a" s = Some (Err (VError "Construction failure: a" None), s).
Proof.
  intros s0 s.
  destruct (requested_does_not_outlive_read 1 [Examples.cyclic_pair] (Ok (VProxy 0)) s0 s)
    as [Hs Hread].
  - reflexivity.
  - exact (reads_step s0 3 0 "a" (Err (VError (cycle_message "a") None)) s s
             eq_refl (reads_refl s)).
  - split; [exact Hs|].
    destruct (Hread 0 (mkProxy [("a", Stored (VError (cycle_message "a") None));
                                ("b", Stored (VError (cycle_message "a") None))] 1 None None)
                "a" (Stored (VError (cycle_message "a") None)) 0 eq_refl eq_refl)
      as (v & [= <-] & Hget).
    exact Hget.
Defined.

(** ** What reads leave alone *)

(** X3. Property reads on proxies, in any number and from any store, leave
    the module objects as they are, keep the module, container and path
    every proxy closes over, never overwrite or remove a property a target
    holds, and only add to the record of factory calls. *)
Theorem reads_only_extend_the_store s s' :
  reads s s' →
  modules s' = modules s ∧
  (∀ p px, proxies s !! p = Some px →
     ∃ px', proxies s' !! p = Some px' ∧ pmodule px' = pmodule px ∧
            pcontainer px' = pcontainer px ∧ ppath px' = ppath px) ∧
  (∀ p k c, tget s p k = Some c → tget s' p k = Some c) ∧
  (∃ l, calls s' = calls s ++ l).
Proof.
  intros Hreads. apply reads_ext in Hreads as [Hm Hp Hf Hc _].
  split; [done|]. split; [|by split].
  intros p px Hpx. destruct (Hp p px Hpx) as (px' & Hpx' & Hcl). by exists px'.
Qed.

Lemma reads_only_extend_the_store_witness :
  let s0 := Examples.state_of Examples.no_state (inject 3 [Examples.deep_reads_root]) in
  let s1 := Examples.state_of s0 (read_path 2 (VProxy 0) ["g"; "h"; "deep"] s0) in
  let s2 := Examples.state_of s1 (proxy_get 1 0 "x" s1) in
  tget s1 0 "x" = Some (Stored (VNum 1)) ∧ tget s2 0 "x" = Some (Stored (VNum 1)) ∧
  modules s2 = modules s1.
Proof.
  intros s0 s1 s2.
  destruct (reads_only_extend_the_store s1 s2) as (Hm & _ & Hf & _).
  - exact (reads_step s1 1 0 "x" (Ok (VNum 1)) s2 s2 eq_refl (reads_refl s2)).
  - split; [reflexivity|]. split; [|exact Hm]. apply Hf. reflexivity.
Defined.

(** ** A factory that failed, and a service that is an [Error] *)

Lemma replay_after fuel p px k r s s' c :
  proxies s !! p = Some px → proxy_get fuel p k s = Some (r, s') →
  tget s' p k = Some c →
  ∀ s'' fuel', reads s' s'' →
    proxy_get (S fuel') p k s'' = Some (replay (path_of (ppath px) k) c, s'').
Proof.
  intros Hp Hget Hc s'' fuel' Hreads.
  pose proof (ext_trans _ _ _ (proxy_get_ext _ _ _ _ _ _ Hget) (reads_ext _ _ Hreads))
    as Hext.
  destruct (ext_proxies _ _ Hext _ _ Hp) as (px'' & Hp'' & _ & _ & Hpath).
  pose proof (ext_frozen _ _ (reads_ext _ _ Hreads) _ _ _ Hc) as Hc''.
  by rewrite (proxy_get_cached _ _ _ _ _ _ Hp'' Hc''), Hpath.
Qed.

Lemma call_keeps_proxy fuel f c p k px s r s2 :
  proxies s !! p = Some px →
  call (proxy_get fuel) f c (tset p k Requested s) = Some (r, s2) →
  is_Some (proxies s2 !! p).
Proof.
  intros Hp Hc. apply call_ext in Hc; [|apply proxy_get_ext].
  destruct (proxies_tset p k Requested _ _ _ Hp) as (px1 & Hp1 & _).
  destruct (ext_proxies _ _ Hc _ _ Hp1) as (px2 & Hp2 & _). eauto.
Qed.

(** X4. When the first invocation of a factory throws an [Error], the first
    read throws that error and the target then holds it; every later read
    throws a new [Error] with the message ["Construction failure: "]
    followed by the path, and leaves the store as it is, so the factory is
    not invoked again. *)
Theorem failed_factory_is_not_retried fuel p px k f e s s2 :
  proxies s !! p = Some px → tin s p k = false →
  mget (modules s) (pmodule px) k = Some (MFn f) →
  call (proxy_get fuel) f (default p (pcontainer px)) (tset p k Requested s)
    = Some (Err e, s2) →
  instanceofError e = true →
  ∃ s', proxy_get (S fuel) p k s = Some (Err e, s') ∧
        tget s' p k = Some (Stored e) ∧
        ∀ s'' fuel', reads s' s'' →
          proxy_get (S fuel') p k s''
            = Some (Err (VError (failure_message (path_of (ppath px) k)) None), s'').
Proof.
  intros Hp Ht Hm Hc He.
  pose proof (proxy_get_factory_throws _ _ _ _ _ _ _ _ Hp Ht Hm Hc) as Hget.
  rewrite He in Hget. eexists. split; [exact Hget|].
  assert (Hcell : tget (tset p k (Stored e) s2) p k = Some (Stored e))
    by (apply tget_tset_eq; by eapply call_keeps_proxy).
  split; [done|]. intros s'' fuel' Hreads.
  rewrite (replay_after _ _ _ _ _ _ _ _ Hp Hget Hcell _ _ Hreads). simpl.
  by rewrite He.
Qed.

Lemma failed_factory_is_not_retried_witness :
  let s := Examples.state_of Examples.no_state (inject 1 [Examples.failing_first]) in
  ∃ s', proxy_get 1 0 "first" s = Some (Err (VError "construction error" None), s') ∧
    proxy_get 1 0 "first" s' = Some (Err (VError "Construction failure: first" None), s') ∧
    ncalls 0 (calls s') = 1.
Proof.
  intros s.
  destruct (failed_factory_is_not_retried 0 0 (mkProxy [] 1 None None) "first"
              (mkFactory 0 false (λ _, Throw (VError "construction error" None)))
              (VError "construction error" None) s
              (record_call (mkFactory 0 false (λ _, Throw (VError "construction error" None)))
                 (VProxy 0) (tset 0 "first" Requested s))
              eq_refl eq_refl eq_refl eq_refl eq_refl) as (s' & Hget & Hcell & Hlater).
  exists s'. split; [exact Hget|]. split; [exact (Hlater s' 0 (reads_refl s'))|].
  vm_compute in Hget. injection Hget as <-. reflexivity.
Defined.

(** X5. When a factory returns an instance of [Error] as its service, the
    first read returns it, and every later read throws the construction
    failure instead of returning the service; the factory is not invoked
    again. *)
Theorem error_valued_service_is_replayed_as_failure fuel p px k f v s s2 :
  proxies s !! p = Some px → tin s p k = false →
  mget (modules s) (pmodule px) k = Some (MFn f) →
  call (proxy_get fuel) f (default p (pcontainer px)) (tset p k Requested s)
    = Some (Ok v, s2) →
  instanceofError v = true →
  ∃ s', proxy_get (S fuel) p k s = Some (Ok v, s') ∧
        ∀ s'' fuel', reads s' s'' →
          proxy_get (S fuel') p k s''
            = Some (Err (VError (failure_message (path_of (ppath px) k)) None), s'').
Proof.
  intros Hp Ht Hm Hc He.
  pose proof (proxy_get_factory_returns _ _ _ _ _ _ _ _ Hp Ht Hm Hc) as Hget.
  eexists. split; [exact Hget|].
  assert (Hcell : tget (tset p k (Stored v) s2) p k = Some (Stored v))
    by (apply tget_tset_eq; by eapply call_keeps_proxy).
  intros s'' fuel' Hreads.
  rewrite (replay_after _ _ _ _ _ _ _ _ Hp Hget Hcell _ _ Hreads). simpl.
  by rewrite He.
Qed.

Lemma error_valued_service_is_replayed_as_failure_witness :
  let f := mkFactory 0 false (λ _, Ret (VError "not thrown" None)) in
  let s := Examples.state_of Examples.no_state (inject 1 [[("e", Service f)]]) in
  ∃ s', proxy_get 1 0 "e" s = Some (Ok (VError "not thrown" None), s') ∧
    proxy_get 1 0 "e" s' = Some (Err (VError "Construction failure: e" None), s').
Proof.
  intros f s.
  destruct (error_valued_service_is_replayed_as_failure 0 0 (mkProxy [] 1 None None) "e"
              f (VError "not thrown" None) s
              (record_call f (VProxy 0) (tset 0 "e" Requested s))
              eq_refl eq_refl eq_refl eq_refl eq_refl) as (s' & Hget & Hlater).
  exists s'. split; [exact Hget|]. exact (Hlater s' 0 (reads_refl s')).
Defined.

(** ** Names inherited from [Object.prototype] *)

Lemma fills_refl s : fills s s.
Proof. by intros p k. Qed.

Lemma fills_trans s1 s2 s3 : fills s1 s2 → fills s2 s3 → fills s1 s3.
Proof. intros H12 H23 p k Hk H. by apply H12, H23. Qed.

Lemma fills_record_call f c s s' : fills (record_call f c s) s' → fills s s'.
Proof. intros H p k Hk Hc. by apply H in Hc. Qed.

Lemma fills_overwrite s s2 p k c :
  inherited k = false → fills (tset p k Requested s) s2 → fills s (tset p k c s2).
Proof.
  intros Hin H p' k' Hk' Hc.
  assert (Hne : (p, k) ≠ (p', k')) by (intros [= <- <-]; congruence).
  rewrite tget_tset_ne in Hc by done. apply H in Hc; [|done].
  by rewrite tget_tset_ne in Hc.
Qed.

Lemma fills_group s p k m c path q :
  inherited k = false → is_Some (proxies s !! p) →
  fills s (tset p k (Stored (VProxy q)) (proxify m c path (tset p k Requested s)).2).
Proof.
  intros Hin Hp p' k' Hk'. rewrite tget_group by done.
  destruct (decide ((p, k) = (p', k'))) as [[= <- <-]|]; [congruence|done].
Qed.

Section RunFills.
Variable get : nat → string → state → option (outcome * state).
Hypothesis get_fills : ∀ p k s r s', get p k s = Some (r, s') → fills s s'.

Lemma run_fills c : ∀ s r s', run get c s = Some (r, s') → fills s s'.
Proof.
  induction c as [v|v|o k| |c IHc k IHk|c IHc hd IHh]; simpl; intros s r s'.
  - intros [= <- <-]. apply fills_refl.
  - intros [= <- <-]. apply fills_refl.
  - destruct o; simpl; try (intros [= <- <-]; apply fills_refl). apply get_fills.
  - intros [= <- <-]. by intros p k.
  - destruct (run get c s) as [[[v|e] s1]|] eqn:E; [| |done].
    + intros H. eapply fills_trans; [by eapply IHc|by eapply IHk].
    + intros [= <- <-]. by eapply IHc.
  - destruct (run get c s) as [[[v|e] s1]|] eqn:E; [| |done].
    + intros [= <- <-]. by eapply IHc.
    + intros H. eapply fills_trans; [by eapply IHc|by eapply IHh].
Qed.

Lemma call_fills f c s r s' : call get f c s = Some (r, s') → fills s s'.
Proof. unfold call. intros H. eapply fills_record_call, run_fills, H. Qed.
End RunFills.

Lemma proxy_get_fills fuel : ∀ p k s r s',
  proxy_get fuel p k s = Some (r, s') → fills s s'.
Proof.
  induction fuel as [|fuel IH]; intros p k s r s'; unfold proxy_get.
  { destruct (proxies s !! p); [done|]. intros [= <- <-]. apply fills_refl. }
  destruct (proxies s !! p) as [px|] eqn:Hp; [|intros [= <- <-]; apply fills_refl].
  rewrite resolve_S. simpl.
  destruct (tget s p k) as [[|v]|] eqn:Ht.
  { intros [= <- <-]. apply fills_refl. }
  { destruct (instanceofError v); intros [= <- <-]; apply fills_refl. }
  destruct (inherited k) eqn:Hin; [intros [= <- <-]; apply fills_refl|].
  destruct (mget (modules s) (pmodule px) k) as [[f|m]|] eqn:Hm.
  - destruct (call _ f _ _) as [[[v|e] s2]|] eqn:E; [| |done];
      intros [= <- <-]; (apply fills_overwrite; [done|]);
      exact (call_fills _ IH _ _ _ _ _ E).
  - intros [= <- <-]. apply fills_group; eauto.
  - intros [= <- <-]. apply fills_refl.
Qed.

Lemma initializeEagerServices_fills fuel : ∀ module container s r s',
  initializeEagerServices fuel module container s = Some (r, s') → fills s s'.
Proof.
  induction fuel as [|fuel IH]; [done|].
  intros module container s r s'. simpl.
  generalize (default [] (keys <$> modules s !! module)). intros ks.
  assert (Hacc : ∀ acc, foldl (eager_key (initializeEagerServices fuel)
                                 (proxy_get fuel) module container) acc ks
                          = Some (r, s') →
                 ∀ r0 s0, acc = Some (r0, s0) → fills s0 s').
  { induction ks as [|key ks IHks]; simpl.
    - intros acc -> r0 s0 [= <- <-]. apply fills_refl.
    - intros acc Hfold r0 s0 ->.
      destruct (eager_key _ _ module container (Some (r0, s0)) key)
        as [[r1 s1]|] eqn:Hstep.
      2:{ exfalso. clear -Hfold. induction ks; simpl in *; [done|auto]. }
      eapply fills_trans; [|by eapply IHks].
      revert Hstep. simpl.
      destruct r0 as [v0|e0]; [|intros [= <- <-]; apply fills_refl].
      destruct (mget (modules s0) module key) as [[f|m]|] eqn:Hm;
        [| |intros [= <- <-]; apply fills_refl].
      + destruct (isEager f); [|intros [= <- <-]; apply fills_refl].
        destruct (call _ f _ _) as [[[v|e] s2]|] eqn:E; [| |done];
          intros [= <- <-]; exact (call_fills _ (proxy_get_fills fuel) _ _ _ _ _ E).
      + apply IH. }
  intros Hfold. by eapply Hacc.
Qed.

(** After [inject] and any property reads no target holds a property with
    an inherited name. *)
Lemma inject_unfilled fuel ms r s0 s :
  inject fuel ms = Some (r, s0) → reads s0 s →
  ∀ p k, inherited k = true → tget s p k = None.
Proof.
  intros Hinj Hreads.
  assert (H0 : ∀ p k, inherited k = true → tget s0 p k = None).
  { revert Hinj. unfold inject, inject_refs.
    destruct (alloc_modules ms []) as [rs h0]. simpl.
    destruct (merge_all fuel rs h0) as [[module h]|]; [|done]. simpl.
    destruct (initializeEagerServices fuel module 0 _) as [[r' s2]|] eqn:E; [|done].
    intros Hr. assert (s2 = s0) as -> by (destruct r'; by inversion Hr).
    intros p k Hk. apply initializeEagerServices_fills in E.
    destruct (tget s0 p k) as [c|] eqn:Hc; [|done].
    destruct (E p k Hk) as [c' Hc']; [by rewrite Hc|].
    unfold tget in Hc'. simpl in Hc'. by destruct p as [|[|p]]. }
  clear Hinj. induction Hreads as [s|s fuel' p k r' s1 s2 Hget _ IH]; [done|].
  apply IH. intros p' k' Hk'. destruct (tget s1 p' k') as [c|] eqn:Hc; [|done].
  destruct (proxy_get_fills _ _ _ _ _ _ Hget p' k' Hk') as [c' Hc']; [by rewrite Hc|].
  by rewrite (H0 p' k' Hk') in Hc'.
Qed.

(** X17. A key named like a property of [Object.prototype] ([toString],
    [constructor], ...) is never resolved. In a state reached from the
    result of [inject] by property reads alone (nothing assigned to the
    container), the read of such a name on any node of the container
    returns what [Object.prototype] has there, calls no factory and leaves
    the store as it is, whether or not the module has a factory or a group
    at that key; [k in proxy] is true, and the target does not hold the
    key. *)
Theorem inherited_name_is_never_resolved fuel ms r s0 s p px k fuel' :
  inject fuel ms = Some (r, s0) → reads s0 s →
  proxies s !! p = Some px → inherited k = true →
  proxy_get (S fuel') p k s = Some (Ok (VInherited k), s) ∧
  proxy_has p k s = true ∧ tget s p k = None.
Proof.
  intros Hinj Hreads Hp Hin.
  pose proof (inject_unfilled _ _ _ _ _ Hinj Hreads p k Hin) as Hc.
  split; [|split; [|done]].
  - unfold proxy_get. rewrite Hp, resolve_S. simpl. by rewrite Hc, Hin.
  - unfold proxy_has. rewrite Hp, Hin. apply orb_true_r.
Qed.

Lemma inherited_name_is_never_resolved_witness :
  let m : list (string * ModuleTree) :=
    [("toString", Service (mkFactory 0 false (λ _, Ret (VStr "service"))))] in
  let s0 := Examples.state_of Examples.no_state (inject 1 [m]) in
  proxy_get 1 0 "toString" s0 = Some (Ok (VInherited "toString"), s0) ∧
  proxy_has 0 "toString" s0 = true ∧ tget s0 0 "toString" = None.
Proof.
  intros m s0.
  apply (inherited_name_is_never_resolved 1 [m] (Ok (VProxy 0)) s0 s0 0
           (mkProxy [] 1 None None) "toString" 0).
  - reflexivity.
  - apply reads_refl.
  - reflexivity.
  - reflexivity.
Defined.

(** ** The descriptor trap *)

(** X6. The [getOwnPropertyDescriptor] trap resolves the property as a read
    does. For a key of the module that is not a name inherited from
    [Object.prototype] it ends in the store of that read and gives the
    descriptor of the value the read returned, or throws what the read
    threw. In a state reached from the result of [inject] by property reads
    alone (nothing assigned to the container), for a key with [k in proxy]
    false it gives no descriptor and changes nothing. For an inherited name
    that the target does not hold as its own it gives no descriptor and
    changes nothing, whether the module has the key or not. *)
Theorem descriptor_trap_resolves_like_get :
  (∀ fuel p px k s d s',
     proxies s !! p = Some px → is_Some (mget (modules s) (pmodule px) k) →
     inherited k = false →
     proxy_getOwnPropertyDescriptor fuel p k s = Some (d, s') →
     match d with
     | inr c => ∃ v, c = Some (Stored v) ∧ proxy_get fuel p k s = Some (Ok v, s')
     | inl e => proxy_get fuel p k s = Some (Err e, s')
     end) ∧
  (∀ fuel ms r s0 s p k fuel',
     inject fuel ms = Some (r, s0) → reads s0 s → proxy_has p k s = false →
     proxy_getOwnPropertyDescriptor (S fuel') p k s = Some (inr None, s)) ∧
  (∀ p px k s fuel',
     proxies s !! p = Some px → inherited k = true → tget s p k = None →
     proxy_getOwnPropertyDescriptor (S fuel') p k s = Some (inr None, s)).
Proof.
  split; [|split].
  - intros fuel p px k s d s' Hp Hm Hin. unfold proxy_getOwnPropertyDescriptor.
    destruct (proxy_get fuel p k s) as [[[v|e] s1]|] eqn:Hget; [| |done].
    + intros [= <- <-].
      destruct (proxy_get_cell _ _ _ _ _ _ _ Hget Hp Hm Hin) as [_ Hv].
      exists v. split; [|done]. f_equal. by apply Hv.
    + by intros [= <- <-].
  - intros fuel ms r s0 s p k fuel' Hinj Hreads Hhas.
    pose proof (inject_within _ _ _ _ _ Hinj Hreads) as Hw.
    unfold proxy_getOwnPropertyDescriptor.
    rewrite (proxy_get_missing _ _ _ _ Hw Hhas). do 2 f_equal.
    unfold proxy_has in Hhas. destruct (proxies s !! p) as [px|] eqn:Hp.
    + apply orb_false_iff in Hhas as [Hhas _]. apply bool_decide_eq_false in Hhas.
      destruct (tget s p k) eqn:Hc; [|done]. exfalso. apply Hhas. eapply Hw; eauto.
    + unfold tget. by rewrite Hp.
  - intros p px k s fuel' Hp Hin Hc. unfold proxy_getOwnPropertyDescriptor, proxy_get.
    rewrite Hp, resolve_S. simpl. rewrite Hc, Hin. simpl. by rewrite ?Hc.
Qed.

Lemma descriptor_trap_resolves_like_get_witness :
  let s := Examples.state_of Examples.no_state (inject 1 [Examples.throwing_a]) in
  ∃ s', proxy_getOwnPropertyDescriptor 1 0 "b" s = Some (inr (Some (Stored (VNum 1))), s') ∧
    proxy_get 1 0 "b" s = Some (Ok (VNum 1), s') ∧
    proxy_getOwnPropertyDescriptor 1 0 "c" s = Some (inr None, s) ∧
    proxy_getOwnPropertyDescriptor 1 0 "valueOf" s = Some (inr None, s).
Proof.
  intros s. eexists. split; [reflexivity|]. split; [|split].
  - destruct (proj1 descriptor_trap_resolves_like_get 1 0 (mkProxy [] 1 None None) "b" s
                (inr (Some (Stored (VNum 1)))) _ eq_refl (ex_intro _ _ eq_refl) eq_refl
                eq_refl)
      as (v & [= <-] & Hget).
    exact Hget.
  - exact (proj1 (proj2 descriptor_trap_resolves_like_get) 1 [Examples.throwing_a]
             (Ok (VProxy 0)) s s 0 "c" 0 eq_refl (reads_refl s) eq_refl).
  - exact (proj2 (proj2 descriptor_trap_resolves_like_get) 0 (mkProxy [] 1 None None)
             "valueOf" s 0 eq_refl eq_refl eq_refl).
Defined.

(** ** Termination *)

(** X7. [inject] returns: the merge needs fuel for the depth of the
    arguments, and the eager initialization for the depth of the merged
    module plus its number of keys, because every nested [resolve] marks
    one more key as requested and a marked key ends the recursion. *)
Theorem inject_returns fuel ms :
  Forall (λ m, depth (Group m) ≤ fuel) ms →
  depth (Group (merge_all_spec (norm_entries <$> ms)))
    + nkeys (Group (merge_all_spec (norm_entries <$> ms))) < fuel →
  is_Some (inject fuel ms).
Proof. apply inject_total. Qed.

Lemma inject_returns_witness :
  is_Some (inject 7 [Examples.eager_reads_lazy; Examples.group_value]).
Proof.
  apply inject_returns.
  - repeat constructor.
  - vm_compute. lia.
Defined.

(** ** The merge of module literals *)



(** X8. After [inject], every chain of property reads returns a value or
    throws, whatever the factories read: the depth of nested [resolve]
    calls never exceeds the number of keys of the merged module. *)
Theorem every_read_returns fuel ms r s0 s fuel' o π :
  Forall (λ m, depth (Group m) ≤ fuel) ms →
  inject fuel ms = Some (r, s0) → reads s0 s →
  nkeys (Group (merge_all_spec (norm_entries <$> ms))) < fuel' →
  is_Some (read_path fuel' o π s).
Proof. apply reads_total. Qed.

Lemma every_read_returns_witness :
  let s0 := Examples.state_of Examples.no_state (inject 1 [Examples.cyclic_pair]) in
  is_Some (read_path 3 (VProxy 0) ["a"] s0).
Proof.
  intros s0.
  apply (every_read_returns 1 [Examples.cyclic_pair] (Ok (VProxy 0)) s0 s0).
  - repeat constructor.
  - reflexivity.
  - apply reads_refl.
  - vm_compute. lia.
Defined.

(** ** The container and the merged module *)

Lemma asub_spec (h : heap) : ∀ π r kids k,
  awf h (ANode r kids) →
  value_at h r π k = aval <$> asub kids π k ∧
  tree_at (prod_map id erase <$> kids) π k = erase <$> asub kids π k ∧
  (∀ a, asub kids π k = Some a → awf h a).
Proof.
  induction π as [|k1 π IH]; intros r kids k Ha.
  - pose proof Ha as (Hobj & _ & Hkids)%awf_node.
    unfold value_at. simpl. rewrite (mget_kobj _ _ _ _ Hobj), lookup_key_fmap.
    split; [done|]. split; [done|]. intros a Hl.
    apply lookup_key_Some_elem_of in Hl. rewrite Forall_forall in Hkids.
    by apply (Hkids (k, a)).
  - pose proof Ha as (Hobj & _ & Hkids)%awf_node.
    unfold value_at. simpl. rewrite (mget_kobj _ _ _ _ Hobj), lookup_key_fmap.
    destruct (lookup_key k1 kids) as [[f|r' kids']|] eqn:Hl; simpl; [done| |done].
    apply lookup_key_Some_elem_of in Hl. rewrite Forall_forall in Hkids.
    apply (IH r' kids' k). by apply (Hkids (k1, ANode r' kids')).
Qed.

(** What holds of the store after [inject] and any property reads. *)
Lemma inject_setup fuel ms r s0 s :
  Forall (λ m, depth (Group m) ≤ fuel) ms →
  inject fuel ms = Some (r, s0) → reads s0 s →
  ∃ rootm h kids paths px0,
    merged_module fuel ms = Some (rootm, h) ∧
    awf h (ANode rootm kids) ∧
    prod_map id erase <$> kids = merge_all_spec (norm_entries <$> ms) ∧
    tracked h rootm ([] :: paths) s ∧
    proxies s !! 0 = Some px0 ∧ pmodule px0 = rootm.
Proof.
  intros Hd Hinj Hreads.
  destruct (merged_module_awf fuel ms Hd) as (rootm & h & kids & Hm & Hwf & Her).
  destruct (inject_tracked _ _ _ _ _ _ Hm Hinj) as [l Hl].
  destruct (reads_tracked _ _ _ _ _ Hreads Hl) as [l' Hl'].
  rewrite <- (assoc_L (++)) in Hl'. simpl in Hl'.
  destruct (tracked_proxy _ _ _ _ 0 [] Hl' eq_refl) as [px0 Hp0].
  exists rootm, h, kids, (l ++ l'), px0. repeat (split; [done|]).
  pose proof (tr_node _ _ _ _ Hl' 0 px0 [] Hp0 eq_refl) as Hn. simpl in Hn.
  by injection Hn as <-.
Qed.

(** A read of a key that holds a group. *)
Lemma group_get h rootm paths s p px π k m fuel' :
  tracked h rootm paths s → proxies s !! p = Some px → paths !! p = Some π →
  mget h (pmodule px) k = Some (MObj m) → inherited k = false →
  ∃ q s' l, proxy_get (S fuel') p k s = Some (Ok (VProxy q), s') ∧
    calls s' = calls s ∧ tget s' p k = Some (Stored (VProxy q)) ∧
    tracked h rootm (paths ++ l) s' ∧ (paths ++ l) !! q = Some (π ++ [k]).
Proof.
  intros Ht Hp Hπ Hm Hinh. destruct (tget s p k) as [c|] eqn:Hc.
  - destruct (tr_group _ _ _ _ Ht _ _ _ _ _ _ Hp Hπ Hm Hc) as (q & -> & Hq).
    exists q, s, []. rewrite (proxy_get_cached _ _ _ _ _ _ Hp Hc), app_nil_r. done.
  - exists (List.length (proxies s)),
      (tset p k (Stored (VProxy (List.length (proxies s))))
         (proxify m (Some (default p (pcontainer px)))
            (Some (if truthy (path_of (ppath px) k) then "." else ""))
            (tset p k Requested s)).2),
      [π ++ [k]].
    split; [|split; [|split; [|split]]].
    + unfold proxy_get. rewrite Hp, resolve_S. simpl.
      rewrite Hc, Hinh, (tr_modules _ _ _ _ Ht), Hm. simpl.
      by rewrite length_proxies_tset.
    + rewrite calls_tset. simpl. by rewrite calls_tset.
    + rewrite tget_group by eauto. by rewrite decide_True.
    + by eapply tracked_group.
    + rewrite lookup_app_r; rewrite (tr_length _ _ _ _ Ht); [|done].
      by rewrite Nat.sub_diag.
Qed.

Lemma tracked_pmodule h rootm paths s p px π q pq k m :
  tracked h rootm paths s → proxies s !! p = Some px → paths !! p = Some π →
  mget h (pmodule px) k = Some (MObj m) →
  proxies s !! q = Some pq → paths !! q = Some (π ++ [k]) → pmodule pq = m.
Proof.
  intros Ht Hp Hπ Hm Hq Hπq.
  pose proof (tr_node _ _ _ _ Ht _ _ _ Hq Hπq) as Hn.
  rewrite node_at_app, (tr_node _ _ _ _ Ht _ _ _ Hp Hπ) in Hn. simpl in Hn.
  rewrite Hm in Hn. by injection Hn as <-.
Qed.

(** A chain of reads along groups. *)
Lemma read_group_chain h rootm fuel' : ∀ π p px π0 paths s k m,
  tracked h rootm paths s → proxies s !! p = Some px → paths !! p = Some π0 →
  value_at h (pmodule px) π k = Some (MObj m) →
  Forall (λ k, inherited k = false) (π ++ [k]) →
  ∃ q s' l pq, read_path (S fuel') (VProxy p) (π ++ [k]) s = Some (Ok (VProxy q), s') ∧
    calls s' = calls s ∧ tracked h rootm (paths ++ l) s' ∧
    proxies s' !! q = Some pq ∧ pmodule pq = m ∧
    chain s' p π k (VProxy q).
Proof.
  induction π as [|k1 π IH]; intros p px π0 paths s k m Ht Hp Hπ0 Hv Hnames.
  - unfold value_at in Hv. simpl in Hv.
    apply Forall_cons in Hnames as [Hk _].
    destruct (group_get _ _ _ _ _ _ _ _ _ fuel' Ht Hp Hπ0 Hv Hk)
      as (q & s' & l & Hget & Hcalls & Hcell & Ht' & Hq).
    destruct (tracked_proxy _ _ _ _ _ _ Ht' Hq) as [pq Hpq].
    exists q, s', l, pq. simpl. rewrite Hget. repeat (split; [done|]). split; [|done].
    destruct (ext_proxies _ _ (proxy_get_ext _ _ _ _ _ _ Hget) _ _ Hp)
      as (px' & Hp' & Hcl & _).
    eapply (tracked_pmodule _ _ _ _ p px' π0 q pq k m Ht' Hp'); [|by rewrite Hcl|done|done].
    by apply lookup_app_l_Some.
  - unfold value_at in Hv. simpl in Hv.
    destruct (mget h (pmodule px) k1) as [[f|r1]|] eqn:Hm1; [done| |done].
    change ((k1 :: π) ++ [k]) with (k1 :: (π ++ [k])) in Hnames.
    apply Forall_cons in Hnames as [Hk1 Hnames].
    destruct (group_get _ _ _ _ _ _ _ _ _ fuel' Ht Hp Hπ0 Hm1 Hk1)
      as (q1 & s1 & l1 & Hget & Hcalls & Hcell & Ht1 & Hq1).
    destruct (tracked_proxy _ _ _ _ _ _ Ht1 Hq1) as [pq1 Hpq1].
    destruct (ext_proxies _ _ (proxy_get_ext _ _ _ _ _ _ Hget) _ _ Hp)
      as (px' & Hp' & Hcl & _).
    assert (Hmod1 : pmodule pq1 = r1).
    { eapply (tracked_pmodule _ _ _ _ p px' π0 q1 pq1 k1 r1 Ht1 Hp');
        [by apply lookup_app_l_Some|by rewrite Hcl|done|done]. }
    destruct (IH q1 pq1 (π0 ++ [k1]) (paths ++ l1) s1 k m Ht1 Hpq1 Hq1)
      as (q & s' & l & pq & Hread & Hcalls' & Ht' & Hpq & Hmod & Hchain).
    { by rewrite Hmod1. }
    { done. }
    exists q, s', (l1 ++ l), pq. rewrite (assoc_L (++)).
    split; [|split; [congruence|split; [done|split; [done|split; [done|]]]]].
    + change ((k1 :: π) ++ [k]) with (k1 :: (π ++ [k])). simpl. by rewrite Hget.
    + simpl. exists q1. split; [|done].
      apply (ext_frozen _ _ (reads_ext _ _ (read_path_reads _ _ _ _ _ _ Hread))). done.
Qed.



(** ** Eager factories *)

Lemma foldl_eager_key_Err rec get module c e s ks :
  foldl (eager_key rec get module c) (Some (Err e, s)) ks = Some (Err e, s).
Proof. induction ks as [|key ks IH]; [done|]. simpl. apply IH. Qed.

Lemma foldl_eager_key_None rec get module c ks :
  foldl (eager_key rec get module c) None ks = None.
Proof. induction ks as [|key ks IH]; [done|]. simpl. apply IH. Qed.

Lemma call_recorded fuel f c s r s' :
  call (proxy_get fuel) f c s = Some (r, s') → (fid f, VProxy c) ∈ calls s'.
Proof.
  unfold call. intros H. apply run_ext in H; [|apply proxy_get_ext].
  destruct (ext_calls _ _ H) as [l ->]. simpl.
  apply elem_of_app. left. apply elem_of_app. right. by left.
Qed.

(** A completed eager initialization has called the eager factories of the
    module and of its groups. *)
Lemma initializeEagerServices_calls fuel : ∀ module c s v s' π k f,
  initializeEagerServices fuel module c s = Some (Ok v, s') →
  value_at (modules s) module π k = Some (MFn f) → isEager f = true →
  (fid f, VProxy c) ∈ calls s'.
Proof.
  induction fuel as [|fuel IH]; [done|].
  intros module c s v s' π k f. simpl. intros Hfold Hv Hf.
  remember (match π with [] => k | k1 :: _ => k1 end) as k1 eqn:Hdef.
  assert (Hk1 : k1 ∈ default [] (keys <$> modules s !! module)).
  { assert (Hsome : is_Some (mget (modules s) module k1)).
    { unfold value_at in Hv. rewrite Hdef. destruct π as [|k2 π]; simpl in Hv.
      - by rewrite Hv.
      - by destruct (mget (modules s) module k2) as [[|]|]. }
    unfold mget in Hsome. destruct (modules s !! module) as [o|]; simpl in *.
    - destruct Hsome as [x Hx]. by eapply lookup_key_Some_keys.
    - by destruct Hsome. }
  revert Hfold Hk1. generalize (default [] (keys <$> modules s !! module)). intros ks.
  assert (Hloop : ∀ v0 s1,
    foldl (eager_key (initializeEagerServices fuel) (proxy_get fuel) module c)
          (Some (Ok v0, s1)) ks = Some (Ok v, s') →
    modules s1 = modules s →
    k1 ∈ ks ∨ (fid f, VProxy c) ∈ calls s1 → (fid f, VProxy c) ∈ calls s').
  { induction ks as [|key ks IHks]; intros v0 s1 Hfold Hmod Hor.
    { simpl in Hfold. injection Hfold as _ <-. destruct Hor as [Hin|]; [|done].
      by apply not_elem_of_nil in Hin. }
    change (foldl (eager_key (initializeEagerServices fuel) (proxy_get fuel) module c)
              (eager_key (initializeEagerServices fuel) (proxy_get fuel) module c
                 (Some (Ok v0, s1)) key) ks = Some (Ok v, s')) in Hfold.
    destruct (eager_key (initializeEagerServices fuel) (proxy_get fuel) module c
                (Some (Ok v0, s1)) key) as [[[v1|e1] s2]|] eqn:Hstep.
    2:{ by rewrite foldl_eager_key_Err in Hfold. }
    2:{ by rewrite foldl_eager_key_None in Hfold. }
    assert (Hext : ext s1 s2).
    { revert Hstep. simpl. destruct (mget (modules s1) module key) as [[g|m]|].
      - destruct (isEager g); [|intros [= _ <-]; apply ext_refl].
        destruct (call _ g _ _) as [[[w|e] s3]|] eqn:E; [|done|done].
        intros [= _ <-]. exact (call_ext _ (proxy_get_ext fuel) _ _ _ _ _ E).
      - apply initializeEagerServices_ext.
      - intros [= _ <-]. apply ext_refl. }
    apply (IHks v1 s2 Hfold); [by rewrite (ext_modules _ _ Hext)|].
    destruct Hor as [Hin|Hcalled].
    2:{ right. destruct (ext_calls _ _ Hext) as [l ->]. apply elem_of_app. by left. }
    apply elem_of_cons in Hin as [->|Hin]; [|by left]. right.
    revert Hstep. simpl. rewrite Hmod. unfold value_at in Hv.
    destruct π as [|k2 π]; simpl in Hv; rewrite Hdef.
    - rewrite Hv, Hf. destruct (call _ f _ _) as [[[w|e] s3]|] eqn:E; [|done|done].
      intros [= _ <-]. by eapply call_recorded.
    - destruct (mget (modules s) module k2) as [[g|m]|]; [done| |done].
      intros Hrec. eapply (IH m c s1 v1 s2 π k f Hrec); [|done].
      unfold value_at. by rewrite Hmod. }
  intros Hfold Hk1. eapply Hloop; [exact Hfold|done|by left].
Qed.



(** ** What [merge] writes *)



Lemma elem_of_flat_kaddrs trees x :
  x ∈ flat_map (λ t : nat * list (string * atree), kaddrs t.2) trees → x ∈ taddrs trees.
Proof.
  intros Hx. apply list_elem_of_In, in_flat_map in Hx as ([r kids] & Hin & Hx).
  apply list_elem_of_In in Hin, Hx. eapply taddrs_elem_of; [exact Hin|].
  simpl. right. exact Hx.
Qed.

Lemma root_not_nested trees :
  NoDup (taddrs trees) → ∀ r, r ∈ trees.*1 →
  r ∉ flat_map (λ t : nat * list (string * atree), kaddrs t.2) trees.
Proof.
  induction trees as [|[r0 kids0] trees IH]; intros Hnd r Hr.
  { by apply not_elem_of_nil in Hr. }
  rewrite taddrs_cons in Hnd. apply NoDup_app in Hnd as (Hnd0 & Hdisj & Hnd').
  apply NoDup_cons in Hnd0 as [Hr0 _].
  rewrite fmap_cons in Hr. simpl in Hr |- *. fold (kaddrs kids0).
  intros [Hin|Hin]%elem_of_app.
  - apply elem_of_cons in Hr as [->|Hr]; [done|].
    apply (Hdisj r); [by right|].
    apply list_elem_of_fmap in Hr as ([r' kids'] & -> & Hin').
    eapply taddrs_elem_of; [exact Hin'|]. by left.
  - apply elem_of_cons in Hr as [->|Hr].
    + apply (Hdisj r0); [by left|]. by apply elem_of_flat_kaddrs.
    + by apply (IH Hnd' r Hr).
Qed.

Lemma merge_all_fold_frame fuel acc : ∀ trees tk (h : heap),
  awf h (ANode acc tk) →
  Forall (λ t, awf h (ANode t.1 t.2)) trees →
  NoDup (acc :: kaddrs tk ++ taddrs trees) →
  Forall (λ t, adepth (ANode t.1 t.2) ≤ fuel) trees →
  ∃ h', foldl (λ (a : option heap) m, h ← a; merge fuel acc m h) (Some h) trees.*1
          = Some h' ∧
        List.length h' = List.length h ∧
        ∀ r, r ≠ acc → r ∉ kaddrs tk →
             r ∉ flat_map (λ t : nat * list (string * atree), kaddrs t.2) trees →
             h' !! r = h !! r.
Proof.
  induction trees as [|[r kids] trees IH]; intros tk h Ht Hall Hnd Hd.
  { by exists h. }
  apply Forall_cons in Hall as [Hs Hall]. apply Forall_cons in Hd as [Hds Hd].
  simpl in Hs, Hds. rewrite taddrs_cons in Hnd.
  destruct (merge_correct fuel r kids acc tk h Hds Ht Hs) as (h1 & Hm & Hlen & Hwf & Hframe).
  { simpl. fold (kaddrs tk). fold (kaddrs kids).
    eapply NoDup_submseteq_down; [|exact Hnd]. solve_submseteq. }
  assert (Hsub : kaddrs (amerge_kids tk kids) ⊆+ kaddrs tk ++ kaddrs kids).
  { apply kaddrs_amerge_kids. apply Forall_forall. intros ? _. apply addrs_amerge_value. }
  destruct (IH (amerge_kids tk kids) h1) as (h' & Hfold & Hlen' & Hframe').
  - done.
  - apply Forall_forall. intros [r' kids'] Hin. rewrite Forall_forall in Hall.
    eapply awf_stable; [by apply (Hall (r', kids'))|]. intros x Hx. apply Hframe.
    simpl in Hx |- *. fold (kaddrs tk).
    assert (Hxt : x ∈ taddrs trees) by by eapply taddrs_elem_of.
    intros Hxa.
    assert (Hnd2 : NoDup ((acc :: kaddrs tk) ++ taddrs trees)).
    { eapply NoDup_submseteq_down; [|exact Hnd]. solve_submseteq. }
    apply NoDup_app in Hnd2 as (_ & Hdisj & _). by apply (Hdisj x).
  - eapply NoDup_submseteq_down; [|exact Hnd]. constructor.
    trans ((kaddrs tk ++ kaddrs kids) ++ taddrs trees); [|solve_submseteq].
    by apply submseteq_skips_r.
  - done.
  - exists h'. split; [simpl; by rewrite Hm|]. split; [congruence|].
    intros x Hacc Htk Hrest. simpl in Hrest. fold (kaddrs kids) in Hrest.
    apply not_elem_of_app in Hrest as [Hk Hrest].
    rewrite Hframe'; [|done| |done].
    + apply Hframe. simpl. fold (kaddrs tk). by intros [->|?]%elem_of_cons.
    + intros Hin. apply (elem_of_submseteq _ _ _ Hin) in Hsub.
      by apply elem_of_app in Hsub as [?|?].
Qed.



(** ** The keys and the factories of the merged module *)

Lemma elem_of_keys_set_key {A : Type} (o : list (string * A)) k k' v :
  k' ∈ keys (set_key k v o) ↔ k' = k ∨ k' ∈ keys o.
Proof.
  destruct (lookup_key k o) as [w|] eqn:Hl.
  - rewrite keys_set_key_present by eauto. split; [by right|].
    intros [->|?]; [|done]. by eapply lookup_key_Some_keys.
  - rewrite keys_set_key_absent by done. rewrite elem_of_app, list_elem_of_singleton.
    tauto.
Qed.

Lemma elem_of_keys_foldl_set_key {A B : Type} (g : list (string * A) → string * B → A)
    (es : list (string * B)) : ∀ (o : list (string * A)) k,
  k ∈ keys (foldl (λ o e, set_key e.1 (g o e) o) o es) ↔ k ∈ keys o ∨ k ∈ keys es.
Proof.
  induction es as [|[k0 b] es IH]; intros o k; simpl.
  - split; [by left|]. intros [?|Hin]; [done|]. by apply not_elem_of_nil in Hin.
  - rewrite IH, elem_of_keys_set_key. unfold keys at 3. simpl.
    rewrite elem_of_cons. fold (keys es). tauto.
Qed.

Lemma NoDup_keys_foldl_set_key {A B : Type} (g : list (string * A) → string * B → A)
    (es : list (string * B)) : ∀ (o : list (string * A)),
  NoDup (keys o) → NoDup (keys (foldl (λ o e, set_key e.1 (g o e) o) o es)).
Proof.
  induction es as [|[k0 b] es IH]; intros o Hnd; simpl; [done|].
  apply IH. by apply NoDup_keys_set_key.
Qed.

Lemma elem_of_keys_norm_entries es k : k ∈ keys (norm_entries es) ↔ k ∈ keys es.
Proof.
  unfold norm_entries.
  rewrite (elem_of_keys_foldl_set_key (λ _ e, norm e.2) es [] k).
  split; [|by right]. intros [Hin|?]; [|done]. by apply not_elem_of_nil in Hin.
Qed.

Lemma NoDup_keys_norm_entries es : NoDup (keys (norm_entries es)).
Proof.
  unfold norm_entries.
  apply (NoDup_keys_foldl_set_key (λ _ e, norm e.2) es []). constructor.
Qed.

Lemma elem_of_keys_merge_spec t s k :
  k ∈ keys (merge_spec t s) ↔ k ∈ keys t ∨ k ∈ keys s.
Proof.
  unfold merge_spec.
  apply (elem_of_keys_foldl_set_key (λ t e, merge_value e.2 (lookup_key e.1 t)) s t k).
Qed.

Lemma elem_of_keys_merge_all (L : list (list (string * ModuleTree))) : ∀ acc k,
  k ∈ keys (foldl merge_spec acc L) ↔ k ∈ keys acc ∨ ∃ m, m ∈ L ∧ k ∈ keys m.
Proof.
  induction L as [|m L IH]; intros acc k; simpl.
  - split; [by left|]. intros [?|(m & Hin & _)]; [done|]. by apply not_elem_of_nil in Hin.
  - rewrite IH, elem_of_keys_merge_spec. split.
    + intros [[?|?]|(m' & Hin & Hk)]; [by left|right; exists m; split; [by left|done]|].
      right. exists m'. split; [by right|done].
    + intros [?|(m' & Hin & Hk)]; [by left; left|].
      apply elem_of_cons in Hin as [->|Hin]; [by left; right|].
      right. by exists m'.
Qed.



Lemma merge_all_spec_snoc L m :
  merge_all_spec (L ++ [m]) = merge_spec (merge_all_spec L) m.
Proof. unfold merge_all_spec. by rewrite foldl_app. Qed.

(** X14. A service of the last module replaces what the earlier modules
    have at its key, when the key is not a name inherited from
    [Object.prototype]: in a state reached from the result of [inject] by
    property reads, the first read of the key invokes the last module's
    factory, with the container. *)
Theorem last_module_rebinds_service fuel ms m k f ctr s0 s fuel' r s' :
  Forall (λ m, depth (Group m) ≤ fuel) (ms ++ [m]) →
  lookup_key k (norm_entries m) = Some (Service f) →
  inject fuel (ms ++ [m]) = Some (Ok ctr, s0) → reads s0 s →
  inherited k = false → tget s 0 k = None →
  proxy_get (S fuel') 0 k s = Some (r, s') →
  ∃ l, calls s' = calls s ++ (fid f, ctr) :: l.
Proof.
  intros Hd Hk Hinj Hreads Hinh Hcell.
  destruct (inject_rooted _ _ _ _ Hinj) as [Hroot Hctr]. rewrite (Hctr ctr eq_refl).
  pose proof (reads_rooted _ _ _ Hreads Hroot) as [Hcont _].
  destruct (inject_setup _ _ _ _ _ Hd Hinj Hreads)
    as (rootm & h & kids & paths & px0 & _ & Hwf & Her & Ht & Hp0 & Hmod0).
  apply awf_node in Hwf as (Hobj & _ & _).
  assert (Hm : mget h rootm k = Some (MFn f)).
  { rewrite (mget_kobj _ _ _ _ Hobj).
    assert (Hl : lookup_key k (prod_map id erase <$> kids) = Some (Service f)).
    { rewrite Her, fmap_app. change (norm_entries <$> [m]) with [norm_entries m].
      rewrite merge_all_spec_snoc.
      rewrite lookup_merge_spec by apply NoDup_keys_norm_entries. by rewrite Hk. }
    rewrite lookup_key_fmap in Hl.
    destruct (lookup_key k kids) as [[g|? ?]|]; [|done|done].
    simpl in Hl. by injection Hl as ->. }
  unfold proxy_get. rewrite Hp0, resolve_S. simpl.
  rewrite Hcell, Hinh, (tr_modules _ _ _ _ Ht), Hmod0, Hm, (Hcont _ _ Hp0).
  destruct (call _ f _ _) as [[c s2]|] eqn:E; [|done].
  assert (Hcalls : ∃ l, calls s2 = calls s ++ (fid f, VProxy 0) :: l).
  { unfold call in E. apply run_ext in E; [|apply proxy_get_ext].
    destruct (ext_calls _ _ E) as [l ->].
    exists (((λ g, (g, VProxy 0)) <$> forwards f) ++ l).
    rewrite calls_record_call, calls_tset. unfold invoked.
    rewrite fmap_cons, <- !(assoc_L (++)). done. }
  destruct Hcalls as [l Hl].
  destruct c; intros [= <- <-]; exists l; by rewrite calls_tset.
Qed.

Lemma last_module_rebinds_service_witness :
  let m1 : list (string * ModuleTree) :=
    [("a", Service (mkFactory 5 false (λ _, Ret (VNum 1))))] in
  let s := Examples.state_of Examples.no_state (inject 1 [m1; Examples.throwing_a]) in
  let s' := Examples.state_of s (proxy_get 1 0 "a" s) in
  ∃ l, calls s' = calls s ++ (0, VProxy 0) :: l.
Proof.
  intros m1 s s'.
  apply (last_module_rebinds_service 1 [m1] Examples.throwing_a "a"
           (mkFactory 0 false (λ _, Throw (VError "" None))) (VProxy 0) s s 0
           (Err (VError "" None)) s').
  - repeat constructor.
  - reflexivity.
  - reflexivity.
  - apply reads_refl.
  - reflexivity.
  - reflexivity.
  - reflexivity.
Defined.

(** ** What a target holds was built by the factory of the module *)

Lemma called_start root s p px k f :
  called root s → proxies s !! p = Some px →
  mget (modules s) (pmodule px) k = Some (MFn f) →
  called root (record_call f (VProxy root) (tset p k Requested s)).
Proof.
  intros Hc Hp Hm q qx k' g Hq Hcell Hg. simpl in *.
  rewrite calls_tset. rewrite modules_tset in Hg.
  destruct (proxies_tset_inv _ _ _ _ _ _ Hq) as (px0 & Hq0 & Hcl & _).
  rewrite Hcl in Hg. apply elem_of_app.
  destruct (decide ((p, k) = (q, k'))) as [[= <- <-]|Hne].
  - right. rewrite Hp in Hq0. injection Hq0 as <-. rewrite Hm in Hg.
    injection Hg as <-. by left.
  - left. rewrite tget_record_call, tget_tset_ne in Hcell by done. by eapply Hc.
Qed.

Lemma called_end root s p k c :
  called root s → is_Some (tget s p k) → called root (tset p k c s).
Proof.
  intros Hc Hsome q qx k' g Hq Hcell Hg.
  rewrite calls_tset. rewrite modules_tset in Hg.
  destruct (proxies_tset_inv _ _ _ _ _ _ Hq) as (px0 & Hq0 & Hcl & _).
  rewrite Hcl in Hg. destruct (decide ((p, k) = (q, k'))) as [[= <- <-]|Hne].
  - by eapply Hc.
  - rewrite tget_tset_ne in Hcell by done. by eapply Hc.
Qed.

Lemma called_group root s p px k m c path q :
  called root s → proxies s !! p = Some px →
  mget (modules s) (pmodule px) k = Some (MObj m) →
  called root (tset p k (Stored (VProxy q)) (proxify m c path (tset p k Requested s)).2).
Proof.
  intros Hc Hp Hm q' qx k' g Hq Hcell Hg.
  rewrite calls_tset. simpl. rewrite calls_tset.
  rewrite modules_tset in Hg.
  change (modules (proxify m c path (tset p k Requested s)).2)
    with (modules (tset p k Requested s)) in Hg. rewrite modules_tset in Hg.
  rewrite tget_group in Hcell by eauto.
  destruct (proxies_group_inv _ _ _ _ _ _ _ _ _ Hq) as [(px0 & Hq0 & Hcl & _)|[-> Hmod]].
  - rewrite Hcl in Hg. destruct (decide ((p, k) = (q', k'))) as [[= <- <-]|Hne].
    + rewrite Hp in Hq0. injection Hq0 as <-. by rewrite Hm in Hg.
    + by eapply Hc.
  - destruct (decide ((p, k) = (List.length (proxies s), k'))) as [[= Hself _]|Hne].
    + apply lookup_lt_Some in Hp. lia.
    + apply tget_is_Some_proxy in Hcell as [? Hcell].
      apply lookup_lt_Some in Hcell. lia.
Qed.

Section RunCalled.
Variable root : nat.
Variable get : nat → string → state → option (outcome * state).
Hypothesis get_called : ∀ p k s r s',
  get p k s = Some (r, s') → rooted root s ∧ called root s →
  rooted root s' ∧ called root s'.

Lemma run_called c : ∀ s r s',
  run get c s = Some (r, s') → rooted root s ∧ called root s →
  rooted root s' ∧ called root s'.
Proof.
  induction c as [v|v|o k| |c IHc k IHk|c IHc hd IHh]; simpl; intros s r s'.
  - by intros [= <- <-].
  - by intros [= <- <-].
  - destruct o; simpl; try by intros [= <- <-]. apply get_called.
  - intros [= <- <-] [Hr Hc]. split; [done|]. intros p px k f. apply Hc.
  - destruct (run get c s) as [[[v|e] s1]|] eqn:E; [| |done].
    + intros H Hs. eapply IHk; [done|]. by eapply IHc.
    + intros [= <- <-]. by eapply IHc.
  - destruct (run get c s) as [[[v|e] s1]|] eqn:E; [| |done].
    + intros [= <- <-]. by eapply IHc.
    + intros H Hs. eapply IHh; [done|]. by eapply IHc.
Qed.
End RunCalled.

Lemma proxy_get_called root fuel : ∀ p k s r s',
  proxy_get fuel p k s = Some (r, s') → rooted root s ∧ called root s →
  rooted root s' ∧ called root s'.
Proof.
  induction fuel as [|fuel IH]; intros p k s r s' Hget [Hr Hc].
  { split; [by eapply proxy_get_rooted|]. revert Hget. unfold proxy_get.
    destruct (proxies s !! p); [done|]. by intros [= <- <-]. }
  split; [by eapply proxy_get_rooted|]. revert Hget. unfold proxy_get.
  destruct (proxies s !! p) as [px|] eqn:Hp; [|by intros [= <- <-]].
  rewrite resolve_S. simpl.
  destruct (tget s p k) as [[|v]|] eqn:Ht.
  { by intros [= <- <-]. }
  { destruct (instanceofError v); by intros [= <- <-]. }
  destruct (inherited k); [by intros [= <- <-]|].
  destruct (mget (modules s) (pmodule px) k) as [[f|m]|] eqn:Hm.
  - rewrite (proj1 Hr _ _ Hp).
    assert (Hend : ∀ c s2 w, call (proxy_get fuel) f root (tset p k Requested s)
                               = Some (c, s2) → called root (tset p k w s2)).
    { intros c s2 w Hcall.
      pose proof (call_ext _ (proxy_get_ext fuel) _ _ _ _ _ Hcall) as Hext.
      apply called_end.
      - unfold call in Hcall. eapply (run_called root _ IH) in Hcall; [apply Hcall|].
        split; [by apply rooted_record_call, rooted_tset|by eapply called_start].
      - rewrite (ext_frozen _ _ Hext p k Requested); [eauto|].
        apply tget_tset_eq. eauto. }
    destruct (call _ f _ _) as [[[v|e] s2]|] eqn:E; [| |done];
      intros [= <- <-]; by eapply Hend.
  - intros [= <- <-]. by eapply called_group.
  - by intros [= <- <-].
Qed.

Lemma initializeEagerServices_called root fuel : ∀ module s r s',
  initializeEagerServices fuel module root s = Some (r, s') →
  rooted root s ∧ called root s → rooted root s' ∧ called root s'.
Proof.
  induction fuel as [|fuel IH]; [done|]. intros module s r s'. simpl.
  generalize (default [] (keys <$> modules s !! module)). intros ks.
  assert (Hacc : ∀ acc, foldl (eager_key (initializeEagerServices fuel)
                                 (proxy_get fuel) module root) acc ks
                          = Some (r, s') →
                 ∀ r0 s0, acc = Some (r0, s0) → rooted root s0 ∧ called root s0 →
                 rooted root s' ∧ called root s').
  { induction ks as [|key ks IHks]; simpl.
    - by intros acc -> r0 s0 [= <- <-].
    - intros acc Hfold r0 s0 -> Hs.
      destruct (eager_key _ _ module root (Some (r0, s0)) key)
        as [[r1 s1]|] eqn:Hstep.
      2:{ by rewrite foldl_eager_key_None in Hfold. }
      eapply IHks; [exact Hfold|done|].
      revert Hstep. simpl.
      destruct r0 as [v0|e0]; [|by intros [= <- <-]].
      destruct (mget (modules s0) module key) as [[f|m]|] eqn:Hm;
        [| |by intros [= <- <-]].
      + destruct (isEager f); [|by intros [= <- <-]].
        assert (Hrun : ∀ c s2, call (proxy_get fuel) f root s0 = Some (c, s2) →
                  rooted root s2 ∧ called root s2).
        { intros c s2 Hcall. unfold call in Hcall.
          eapply (run_called root _ (proxy_get_called root fuel)); [exact Hcall|].
          destruct Hs as [Hr Hc]. split; [by apply rooted_record_call|].
          intros p px k g Hp Hcell Hg. simpl. apply elem_of_app. left.
          by eapply Hc. }
        destruct (call _ f _ _) as [[[v|e] s2]|] eqn:E; [| |done];
          intros [= <- <-]; by eapply Hrun.
      + intros H. by eapply IH. }
  intros Hfold. by eapply Hacc.
Qed.

Lemma inject_called fuel ms r s0 s :
  inject fuel ms = Some (r, s0) → reads s0 s → called 0 s.
Proof.
  intros Hinj Hreads.
  assert (H0 : rooted 0 s0 ∧ called 0 s0).
  { revert Hinj. unfold inject, inject_refs.
    destruct (alloc_modules ms []) as [rs h0]. simpl.
    destruct (merge_all fuel rs h0) as [[module h]|]; [|done]. simpl.
    destruct (initializeEagerServices fuel module 0 _) as [[r' s2]|] eqn:E; [|done].
    intros Hr. assert (s2 = s0) as -> by (destruct r'; by inversion Hr).
    eapply initializeEagerServices_called; [exact E|]. split.
    - split; simpl.
      + intros [|p] px; [by intros [= <-]|done].
      + intros c Hc. by apply not_elem_of_nil in Hc.
    - intros [|p] px k f; [|done]. intros [= <-]. unfold tget. simpl. by intros [? ?]. }
  clear Hinj. induction Hreads as [s|s fuel' p k r' s1 s2 Hget _ IH]; [apply H0|].
  apply IH. by eapply proxy_get_called.
Qed.

(** The read of a service ends with the target of its group holding the
    key. *)
Lemma service_read_cell h rootm : ∀ π fuel' p px π0 paths s k f r s',
  tracked h rootm paths s → proxies s !! p = Some px → paths !! p = Some π0 →
  value_at h (pmodule px) π k = Some (MFn f) →
  Forall (λ k, inherited k = false) (π ++ [k]) →
  read_path fuel' (VProxy p) (π ++ [k]) s = Some (r, s') →
  ∃ q pq, proxies s' !! q = Some pq ∧ mget h (pmodule pq) k = Some (MFn f) ∧
          is_Some (tget s' q k).
Proof.
  induction π as [|k1 π IH];
    intros fuel' p px π0 paths s k f r s' Ht Hp Hπ0 Hv Hnames Hread.
  - unfold value_at in Hv. simpl in Hv, Hread.
    apply Forall_cons in Hnames as [Hk _].
    assert (Hget : proxy_get fuel' p k s = Some (r, s')).
    { destruct (proxy_get fuel' p k s) as [[[v|e] s1]|]; [|done|done].
      by injection Hread as <- <-. }
    destruct (proxy_get_cell _ _ _ _ _ _ _ Hget Hp) as [Hsome _].
    { rewrite (tr_modules _ _ _ _ Ht), Hv. eauto. }
    { done. }
    destruct (ext_proxies _ _ (proxy_get_ext _ _ _ _ _ _ Hget) _ _ Hp)
      as (px' & Hp' & Hcl & _).
    exists p, px'. by rewrite Hcl.
  - unfold value_at in Hv. simpl in Hv.
    destruct (mget h (pmodule px) k1) as [[g|r1]|] eqn:Hm1; [done| |done].
    change ((k1 :: π) ++ [k]) with (k1 :: (π ++ [k])) in Hnames.
    apply Forall_cons in Hnames as [Hk1 Hnames].
    destruct fuel' as [|fuel'].
    { simpl in Hread. unfold proxy_get in Hread. by rewrite Hp in Hread. }
    destruct (group_get _ _ _ _ _ _ _ _ _ fuel' Ht Hp Hπ0 Hm1 Hk1)
      as (q1 & s1 & l1 & Hget & Hcalls & Hcell & Ht1 & Hq1).
    change ((k1 :: π) ++ [k]) with (k1 :: (π ++ [k])) in Hread.
    simpl in Hread. rewrite Hget in Hread.
    destruct (tracked_proxy _ _ _ _ _ _ Ht1 Hq1) as [pq1 Hpq1].
    destruct (ext_proxies _ _ (proxy_get_ext _ _ _ _ _ _ Hget) _ _ Hp)
      as (px' & Hp' & Hcl & _).
    assert (Hmod1 : pmodule pq1 = r1).
    { eapply (tracked_pmodule _ _ _ _ p px' π0 q1 pq1 k1 r1 Ht1 Hp');
        [by apply lookup_app_l_Some|by rewrite Hcl|done|done]. }
    eapply (IH (S fuel') q1 pq1 (π0 ++ [k1]) (paths ++ l1) s1 k f r s' Ht1 Hpq1 Hq1);
      [by rewrite Hmod1|done|done].
Qed.

(** X15. In a state reached from the result of [inject] by property reads
    alone (nothing assigned to the container), once the read of the path of
    a service of the merged module, along keys none of which is a name
    inherited from [Object.prototype], has returned or thrown, the factory
    the merged module has at that path has been invoked with the
    container: what a read yields at such a service key comes from that
    factory. *)
Theorem service_read_invokes_its_factory fuel ms ctr s0 s π k f fuel' r s' :
  Forall (λ m, depth (Group m) ≤ fuel) ms →
  inject fuel ms = Some (Ok ctr, s0) → reads s0 s →
  tree_at (merge_all_spec (norm_entries <$> ms)) π k = Some (Service f) →
  Forall (λ k, inherited k = false) (π ++ [k]) →
  read_path fuel' ctr (π ++ [k]) s = Some (r, s') →
  (fid f, ctr) ∈ calls s'.
Proof.
  intros Hd Hinj Hreads Htree Hnames Hread.
  destruct (inject_rooted _ _ _ _ Hinj) as [_ Hctr].
  rewrite (Hctr ctr eq_refl) in Hread |- *.
  destruct (inject_setup _ _ _ _ _ Hd Hinj Hreads)
    as (rootm & h & kids & paths & px0 & _ & Hwf & Her & Ht & Hp0 & Hmod0).
  destruct (asub_spec h π rootm kids k Hwf) as (Hval & Hsub & _).
  rewrite Her, Htree in Hsub.
  destruct (asub kids π k) as [[g|r' kids']|] eqn:Ha; [|done|done].
  simpl in Hsub, Hval. injection Hsub as <-.
  destruct (service_read_cell h rootm π fuel' 0 px0 [] _ s k f r s' Ht Hp0 eq_refl)
    as (q & pq & Hpq & Hm & Hcell); [by rewrite Hmod0|done|done|].
  assert (Hreads' : reads s0 s').
  { eapply reads_trans; [exact Hreads|]. by eapply read_path_reads. }
  eapply (inject_called _ _ _ _ _ Hinj Hreads' q pq k f Hpq Hcell).
  assert (Hmods : modules s' = h).
  { rewrite (ext_modules _ _ (reads_ext _ _ (read_path_reads _ _ _ _ _ _ Hread))).
    by apply (tr_modules _ _ _ _ Ht). }
  by rewrite Hmods.
Qed.

Lemma service_read_invokes_its_factory_witness :
  let s0 := Examples.state_of Examples.no_state (inject 3 [Examples.deep_reads_root]) in
  let s' := Examples.state_of s0 (read_path 2 (VProxy 0) ["g"; "h"; "deep"] s0) in
  (1, VProxy 0) ∈ calls s'.
Proof.
  intros s0 s'.
  apply (service_read_invokes_its_factory 3 [Examples.deep_reads_root] (VProxy 0) s0 s0
           ["g"; "h"] "deep" (mkFactory 1 false (λ ctx, Read ctx "x")) 2 (Ok (VNum 1)) s').
  - repeat constructor.
  - reflexivity.
  - apply reads_refl.
  - reflexivity.
  - repeat constructor.
  - reflexivity.
Defined.
